(** * PodShift dependency mapper: graph construction and sequencing

    A shallow embedding of the algorithmic core of
    [scripts/discovery/dependency_mapper.py] (class [DependencyMapper]):
    [build_dependency_graph], [_detect_cycles], [_calculate_startup_order],
    [generate_migration_sequence] and [_estimate_migration_duration], of the
    analysers that record the relationships ([_analyze_network_dependencies],
    [_analyze_volume_dependencies], [_analyze_environment_dependencies],
    [_analyze_container_links], the service loop of [_analyze_compose_file])
    and of the report lists of [save_dependencies], followed by the
    properties of that code.

    Conventions of the embedding.
    - A Python [dict] (and [defaultdict]) that is iterated is an association
      list in insertion order; its keys are pairwise distinct.
    - A Python [set] that is iterated is represented by the sequence of its
      insertions; the order in which Python enumerates it is not fixed by the
      language, so it is a parameter of the development ([SetOrder]).
    - A [set] that is only tested for membership is a [gset string];
      [defaultdict(int)] and [defaultdict(list)] that are only read by key
      are [gmap]s read with the default value.
    - Python integers are [Z] (or [nat] where the code only counts up).
    - The recursion of [dfs] carries a depth argument. In
      [_detect_cycles_within] it is the recursion depth that Python leaves
      to the call, and running out of it is Python's [RecursionError];
      [_detect_cycles] gives [dfs] a depth above the number of nodes, which
      is all it ever uses. The [while] loop of the sequencer carries a fuel
      argument and is proved to finish within it.
    - A Python [float] is the rational value of an IEEE binary64 number; an
      operation on floats is the exact operation followed by [binary64],
      the rounding to the nearest double, a tie to the even one. The
      exponent range is not bounded: neither overflow nor subnormal numbers
      occur on the values of the estimator. *)

From stdpp Require Import base list strings gmap sets relations sorting pretty.
From Stdlib Require Import ZArith QArith Qround Qpower Lia Lqa Ascii.
From Stdlib Require Import PrimFloat FloatOps SpecFloat.

Set Warnings "-clear-no-such-hyp".

Open Scope string_scope.
Open Scope Z_scope.
Open Scope nat_scope.
Open Scope list_scope.
Open Scope stdpp_scope.

(** ** Python containers *)

(** A set, as the sequence of elements inserted into it. *)
Abbreviation pyset := (list string) (only parsing).

(** The iteration order of a set: some duplicate-free enumeration of its
    elements, determined by the insertions. *)
Class SetOrder := {
  set_iter : pyset → list string;
  set_iter_NoDup : ∀ s, NoDup (set_iter s);
  set_iter_elem : ∀ s x, x ∈ set_iter s ↔ x ∈ s
}.

(** One admissible order: each element at the place of its first insertion. *)
Fixpoint first_insertions (seen : list string) (s : pyset) : list string :=
  match s with
  | [] => []
  | x :: s' =>
      if decide (x ∈ seen) then first_insertions seen s'
      else x :: first_insertions (x :: seen) s'
  end.

(** Enumeration in order of first insertion is an admissible set order. *)
#[global] Instance insertion_order : SetOrder.
Proof.
  assert (∀ s seen x, x ∈ first_insertions seen s ↔ x ∈ s ∧ x ∉ seen)
    as Helem.
  { induction s as [|y s IH]; intros seen x; simpl.
    - split; [intros ?%elem_of_nil | intros [?%elem_of_nil _]]; done.
    - case_decide as Hy.
      + rewrite IH, elem_of_cons. split; [tauto|].
        intros [[->|?] ?]; [done | tauto].
      + rewrite elem_of_cons, IH, !elem_of_cons.
        destruct (decide (x = y)) as [->|]; naive_solver. }
  refine {| set_iter := first_insertions [] |}.
  - intros s. generalize (@nil string).
    induction s as [|y s IH]; intros seen; simpl; [constructor|].
    case_decide; [apply IH|]. constructor; [|apply IH].
    rewrite Helem, elem_of_cons. tauto.
  - intros s x. rewrite Helem.
    split; [tauto | intros ?; split; [done | apply not_elem_of_nil]].
Defined.

(** [len(s)] *)
Definition set_len `{SetOrder} (s : pyset) : nat := length (set_iter s).

(** An insertion-ordered dictionary with string keys. *)
Abbreviation pydict V := (list (string * V)) (only parsing).

(** [d.get(k)] *)
Fixpoint dict_get {V} (d : pydict V) (k : string) : option V :=
  match d with
  | [] => None
  | (k', v) :: d' => if decide (k = k') then Some v else dict_get d' k
  end.

(** [d.get(k, [])] for a dictionary of sets *)
Definition dict_get_set (d : pydict pyset) (k : string) : pyset :=
  default [] (dict_get d k).

(** [d[k].update(vs)] on a [defaultdict(set)]: a missing key is created
    (at the end of the dictionary) with an empty set first. *)
Fixpoint dd_update (k : string) (vs : list string) (d : pydict pyset)
  : pydict pyset :=
  match d with
  | [] => [(k, vs)]
  | (k', s) :: d' =>
      if decide (k = k') then (k', s ++ vs) :: d'
      else (k', s) :: dd_update k vs d'
  end.

(** [d[k].add(v)] on a [defaultdict(set)] *)
Definition dd_add (k v : string) (d : pydict pyset) : pydict pyset :=
  dd_update k [v] d.

(** [d[k]] read on a [defaultdict(int)] and on a [defaultdict(list)] *)
Definition dd_int (d : gmap string Z) (k : string) : Z := default 0%Z (d !! k).
Definition dd_list (d : gmap string (list string)) (k : string) : list string :=
  default [] (d !! k).

(** [l.index(x)]: the first position of [x], [None] for Python's ValueError. *)
Fixpoint list_index (x : string) (l : list string) : option nat :=
  match l with
  | [] => None
  | y :: l' => if decide (x = y) then Some 0 else S <$> list_index x l'
  end.

(** ** Outcomes of the recursive traversal

    [pyerr] lists the exceptions that the statements of the traversal and of
    the sequencer raise themselves. The third outcome, [OutOfFuel], is the
    end of the depth or fuel argument; for [dfs], whose argument is the
    depth of recursion left, it is the RecursionError of the interpreter. *)

Inductive pyerr := ValueError | KeyError | IndexError.

Inductive res (A : Type) :=
  | Ok (a : A)
  | Raise (e : pyerr)
  | OutOfFuel.
Arguments Ok {A} a.
Arguments Raise {A} e.
Arguments OutOfFuel {A}.

Definition res_bind {A B} (m : res A) (f : A → res B) : res B :=
  match m with
  | Ok a => f a
  | Raise e => Raise e
  | OutOfFuel => OutOfFuel
  end.

Notation "x ←r m ; k" := (res_bind m (λ x, k))
  (at level 100, m at next level, right associativity, only parsing).

(** ** The mapper's internal tracking state *)

(** The four [defaultdict(set)] trackers of [DependencyMapper.__init__] that
    [build_dependency_graph] reads. *)
Inductive tracker := ContainerDep | NetworkDep | VolumeDep | ComposeDep.

#[global] Instance tracker_eq_dec : EqDecision tracker.
Proof. solve_decision. Defined.

(** A relationship recorded by an analyser: [self.<kind>[source].add(target)]. *)
Record fact := Fact { source : string; target : string; kind : tracker }.

Record Mapper := {
  (** keys of [self.dependencies["containers"]], the inventory *)
  containers : list string;
  container_dependencies : pydict pyset;
  network_dependencies : pydict pyset;
  volume_dependencies : pydict pyset;
  compose_dependencies : pydict pyset
}.

Definition new_mapper : Mapper :=
  {| containers := []; container_dependencies := [];
     network_dependencies := []; volume_dependencies := [];
     compose_dependencies := [] |}.

(** [self.dependencies["containers"][container_name] = {...}] *)
Definition register_container (m : Mapper) (name : string) : Mapper :=
  {| containers :=
       if decide (name ∈ containers m) then containers m
       else containers m ++ [name];
     container_dependencies := container_dependencies m;
     network_dependencies := network_dependencies m;
     volume_dependencies := volume_dependencies m;
     compose_dependencies := compose_dependencies m |}.

Definition record_fact (m : Mapper) (f : fact) : Mapper :=
  match kind f with
  | ContainerDep =>
      {| containers := containers m;
         container_dependencies :=
           dd_add (source f) (target f) (container_dependencies m);
         network_dependencies := network_dependencies m;
         volume_dependencies := volume_dependencies m;
         compose_dependencies := compose_dependencies m |}
  | NetworkDep =>
      {| containers := containers m;
         container_dependencies := container_dependencies m;
         network_dependencies :=
           dd_add (source f) (target f) (network_dependencies m);
         volume_dependencies := volume_dependencies m;
         compose_dependencies := compose_dependencies m |}
  | VolumeDep =>
      {| containers := containers m;
         container_dependencies := container_dependencies m;
         network_dependencies := network_dependencies m;
         volume_dependencies :=
           dd_add (source f) (target f) (volume_dependencies m);
         compose_dependencies := compose_dependencies m |}
  | ComposeDep =>
      {| containers := containers m;
         container_dependencies := container_dependencies m;
         network_dependencies := network_dependencies m;
         volume_dependencies := volume_dependencies m;
         compose_dependencies :=
           dd_add (source f) (target f) (compose_dependencies m) |}
  end.

Definition tracker_of (m : Mapper) (k : tracker) : pydict pyset :=
  match k with
  | ContainerDep => container_dependencies m
  | NetworkDep => network_dependencies m
  | VolumeDep => volume_dependencies m
  | ComposeDep => compose_dependencies m
  end.

(** The state in which [build_dependency_graph] runs: the inventory and the
    relationship facts the analysers recorded. *)
Definition analysed (inventory : list string) (facts : list fact) : Mapper :=
  foldl record_fact (foldl register_container new_mapper inventory) facts.

Section Embedding.
Context `{SetOrder}.

(** ** Graph builder: [build_dependency_graph] *)

Record edge := Edge { edge_from : string; edge_to : string; edge_type : string }.

(** [self.dependencies["dependency_graph"]] *)
Record dependency_graph := {
  dg_nodes : list string;
  dg_edges : list edge;
  dg_cycles : list (list string);
  dg_startup_order : list string
}.

(** [for container, deps in tracker.items():
       all_dependencies[container].update(deps)] *)
Definition merge_tracker (all_dependencies t : pydict pyset) : pydict pyset :=
  foldl (λ acc '(container, deps), dd_update container (set_iter deps) acc)
        all_dependencies t.

Definition all_dependencies (m : Mapper) : pydict pyset :=
  merge_tracker
    (merge_tracker
       (merge_tracker
          (merge_tracker [] (container_dependencies m))
          (network_dependencies m))
       (volume_dependencies m))
    (compose_dependencies m).

(** [all_nodes = set(); all_nodes.update(dependencies.keys());
     for deps in dependencies.values(): all_nodes.update(deps)] *)
Definition all_nodes (dependencies : pydict pyset) : pyset :=
  dependencies.*1 ++ concat (set_iter <$> dependencies.*2).

(** [for source, targets in all_dependencies.items():
       for target in targets: edges.append({...})] *)
Definition graph_edges (dependencies : pydict pyset) : list edge :=
  concat ((λ '(source, targets),
             (λ target, Edge source target "depends_on") <$> set_iter targets)
          <$> dependencies).

(** ** Cycle detector: [_detect_cycles] *)

(** The variables the nested function [dfs] closes over. *)
Record dfs_state := DfsState {
  cycles : list (list string);
  visited : gset string;
  rec_stack : gset string;
  path : list string
}.

(** [for neighbor in ...: if dfs(neighbor): pass] *)
Fixpoint dfs_each (dfs : string → dfs_state → res (bool * dfs_state))
    (neighbors : list string) (st : dfs_state) : res dfs_state :=
  match neighbors with
  | [] => Ok st
  | neighbor :: rest => r ←r dfs neighbor st; dfs_each dfs rest r.2
  end.

(** [dfs(node)]; [fuel] is the number of nested calls that are still
    possible: with none left the call fails, as Python's does with
    RecursionError. *)
Fixpoint dfs (fuel : nat) (dependencies : pydict pyset) (node : string)
    (st : dfs_state) : res (bool * dfs_state) :=
  match fuel with
  | 0 => OutOfFuel
  | S fuel' =>
      if decide (node ∈ rec_stack st) then
        match list_index node (path st) with
        | None => Raise ValueError
        | Some cycle_start =>
            let cycle := drop cycle_start (path st) ++ [node] in
            Ok (true, DfsState (cycles st ++ [cycle]) (visited st)
                               (rec_stack st) (path st))
        end
      else if decide (node ∈ visited st) then Ok (false, st)
      else
        let st1 := DfsState (cycles st) ({[node]} ∪ visited st)
                            ({[node]} ∪ rec_stack st) (path st ++ [node]) in
        st2 ←r dfs_each (dfs fuel' dependencies)
                        (set_iter (dict_get_set dependencies node)) st1;
        if decide (node ∈ rec_stack st2) then
          match path st2 with
          | [] => Raise IndexError
          | _ => Ok (false, DfsState (cycles st2) (visited st2)
                                     (rec_stack st2 ∖ {[node]})
                                     (removelast (path st2)))
          end
        else Raise KeyError
  end.

(** [for node in dependencies.keys(): if node not in visited: dfs(node)] *)
Fixpoint dfs_roots (fuel : nat) (dependencies : pydict pyset)
    (keys : list string) (st : dfs_state) : res dfs_state :=
  match keys with
  | [] => Ok st
  | node :: rest =>
      if decide (node ∈ visited st) then dfs_roots fuel dependencies rest st
      else r ←r dfs fuel dependencies node st;
           dfs_roots fuel dependencies rest r.2
  end.

(** The recursion never goes deeper than one call per node plus the call
    that finds the node visited. *)
Definition dfs_fuel (dependencies : pydict pyset) : nat :=
  S (set_len (all_nodes dependencies)).

Definition _detect_cycles (dependencies : pydict pyset)
  : res (list (list string)) :=
  st ←r dfs_roots (dfs_fuel dependencies) dependencies dependencies.*1
                  (DfsState [] ∅ ∅ []);
  Ok (cycles st).

(** The warning [build_dependency_graph] logs for a cycle:
    [' -> '.join(cycle + [cycle[0]])], as the list that is joined. *)
Definition logged_cycle (cycle : list string) : option (list string) :=
  match cycle with
  | [] => None
  | first :: _ => Some (cycle ++ [first])
  end.

(** ** Topological sequencer: [_calculate_startup_order] *)

(** [graph[target].append(source); in_degree[source] += 1] *)
Definition add_dependency (source : string)
    (acc : gmap string (list string) * gmap string Z) (target : string)
  : gmap string (list string) * gmap string Z :=
  (<[target := dd_list acc.1 target ++ [source]]> acc.1,
   <[source := (dd_int acc.2 source + 1)%Z]> acc.2).

Definition add_dependencies
    (acc : gmap string (list string) * gmap string Z)
    (item : string * pyset) : gmap string (list string) * gmap string Z :=
  foldl (add_dependency item.1) acc (set_iter item.2).

(** [for node in all_nodes: in_degree[node] = 0] followed by the loop over
    [dependencies.items()]. *)
Definition reverse_graph (dependencies : pydict pyset)
  : gmap string (list string) * gmap string Z :=
  foldl add_dependencies
        (∅, foldl (λ in_degree node, <[node := 0%Z]> in_degree) ∅
                  (set_iter (all_nodes dependencies)))
        dependencies.

(** [for neighbor in graph[node]: in_degree[neighbor] -= 1;
       if in_degree[neighbor] == 0: queue.append(neighbor)] *)
Fixpoint release (neighbors : list string) (in_degree : gmap string Z)
    (queue : list string) : gmap string Z * list string :=
  match neighbors with
  | [] => (in_degree, queue)
  | neighbor :: rest =>
      let d := (dd_int in_degree neighbor - 1)%Z in
      release rest (<[neighbor := d]> in_degree)
              (if decide (d = 0%Z) then queue ++ [neighbor] else queue)
  end.

(** [while queue: node = queue.popleft(); startup_order.append(node); ...];
    [fuel] bounds the number of iterations. *)
Fixpoint kahn_loop (fuel : nat) (graph : gmap string (list string))
    (in_degree : gmap string Z) (queue startup_order : list string)
  : option (list string) :=
  match queue with
  | [] => Some startup_order
  | node :: queue' =>
      match fuel with
      | 0 => None
      | S fuel' =>
          let r := release (dd_list graph node) in_degree queue' in
          kahn_loop fuel' graph r.1 r.2 (startup_order ++ [node])
      end
  end.

(** [None] only if the loop were to run for more iterations than there are
    nodes, which [startup_order_total] excludes. *)
Definition _calculate_startup_order (dependencies : pydict pyset)
  : option (list string) :=
  let nodes := set_iter (all_nodes dependencies) in
  let r := reverse_graph dependencies in
  kahn_loop (length nodes) r.1 r.2
            (filter (λ node, dd_int r.2 node = 0%Z) nodes) [].

(** [build_dependency_graph], as the value stored under
    [self.dependencies["dependency_graph"]]. *)
Definition build_dependency_graph (m : Mapper) : res dependency_graph :=
  let deps := all_dependencies m in
  cs ←r _detect_cycles deps;
  match _calculate_startup_order deps with
  | None => OutOfFuel
  | Some order =>
      Ok {| dg_nodes := set_iter (all_nodes deps);
            dg_edges := graph_edges deps;
            dg_cycles := cs;
            dg_startup_order := order |}
  end.


(** ** Duration estimator: [_estimate_migration_duration]

    The float values the function handles are the rationals they denote.
    The literal [0.7] is the double nearest to seven tenths, and [5 * 0.7]
    rounds to the double [3.5]. The phase times are multiples of one half,
    and their sum is kept exact: in binary64 it is exact as long as it stays
    below [2 ^ 52] minutes ([float_minutes_exact]), and so is the conversion
    of the integer minutes that enter a division. Each division, the
    subtraction and the multiplication of the returned values round to
    binary64, and [round(x, 1)] is taken on the double they produce. *)

Record phase := Phase {
  phase_name : string;                        (* "name" *)
  phase_containers : list string;             (* "containers" *)
  parallel : bool;
  description : option string;
  special : option bool;                      (* key absent: [None] *)
  phase_cycles : option (list (list string))  (* "cycles" *)
}.

Record parallel_group := ParallelGroup {
  group_phase : nat;                          (* "phase" *)
  group_containers : list string;             (* "containers" *)
  group_reason : string                       (* "reason" *)
}.

Record duration := {
  total_containers : Z;
  estimated_sequential_minutes : Z;
  estimated_parallel_minutes : Z;
  estimated_sequential_hours : Q;
  estimated_parallel_hours : Q;
  time_savings_percent : Q
}.

(** *** Double precision *)

(** The integer nearest to [x], a tie to the even one *)
Definition round_half_even (x : Q) : Z :=
  let t := Qfloor x in
  match ((x - inject_Z t) * inject_Z 2 ?= inject_Z 1)%Q with
  | Lt => t
  | Gt => (t + 1)%Z
  | Eq => if Z.even t then t else (t + 1)%Z
  end.

(** For a positive [x], the exponent [k] with [2 ^ k <= x < 2 ^ (k + 1)] *)
Definition binade (x : Q) : Z :=
  let k := (Z.log2 (Qnum x) - Z.log2 (Zpos (Qden x)))%Z in
  if Qle_bool (2 ^ k) x then k else (k - 1)%Z.

(** For a positive [x], the nearest number with a significand of 53 bits *)
Definition nearest_double (x : Q) : Q :=
  let e := (binade x - 52)%Z in
  (inject_Z (round_half_even (x / 2 ^ e)) * 2 ^ e)%Q.

(** The double that an operation with the exact result [x] returns *)
Definition binary64 (x : Q) : Q :=
  let x := Qred x in
  match Qnum x with
  | Z0 => inject_Z 0
  | Zpos _ => nearest_double x
  | Zneg _ => (- nearest_double (- x))%Q
  end.

Definition float_mul (x y : Q) : Q := binary64 (x * y).
Definition float_div (x y : Q) : Q := binary64 (x / y).
Definition float_sub (x y : Q) : Q := binary64 (x - y).

(** [parallel_minutes] as the loop computes it once it holds a float *)
Definition float_minutes (times : list Q) : Q :=
  foldl (λ acc t, binary64 (acc + t)) (inject_Z 0) times.

Definition base_time_per_container : Z := 5.
Definition parallel_efficiency : Q := binary64 (7 # 10).

(** [int(x)]: truncation towards zero *)
Definition py_int (x : Q) : Z :=
  if Qle_bool (inject_Z 0) x then Qfloor x else Qceiling x.

(** [round(x, 1)] of the double [x]: the nearest tenth of its exact value, a
    tie to the even tenth; the result is given as the decimal it prints as *)
Definition py_round1 (x : Q) : Q :=
  let y := (x * inject_Z 10)%Q in
  let t := Qfloor y in
  let tenths :=
    match ((y - inject_Z t) * inject_Z 2 ?= inject_Z 1)%Q with
    | Lt => t
    | Gt => (t + 1)%Z
    | Eq => if Z.even t then t else (t + 1)%Z
    end in
  tenths # 10.

Definition phase_time (ph : phase) : Q :=
  if parallel ph
  then float_mul (inject_Z base_time_per_container) parallel_efficiency
  else inject_Z (Z.of_nat (length (phase_containers ph))
                 * base_time_per_container).

(** The time of a phase, in half minutes *)
Definition phase_halves (ph : phase) : Z :=
  if parallel ph then 7%Z
  else (10 * Z.of_nat (length (phase_containers ph)))%Z.

Definition _estimate_migration_duration (phases : list phase) : duration :=
  let total_containers :=
    foldl (λ acc ph, (acc + Z.of_nat (length (phase_containers ph)))%Z)
          0%Z phases in
  let sequential_minutes := (total_containers * base_time_per_container)%Z in
  let parallel_minutes :=
    foldl (λ acc ph, (acc + phase_time ph)%Q) (inject_Z 0) phases in
  {| total_containers := total_containers;
     estimated_sequential_minutes := sequential_minutes;
     estimated_parallel_minutes := py_int parallel_minutes;
     estimated_sequential_hours :=
       py_round1 (float_div (inject_Z sequential_minutes) (inject_Z 60));
     estimated_parallel_hours :=
       py_round1 (float_div parallel_minutes (inject_Z 60));
     time_savings_percent :=
       if decide (0 < sequential_minutes)%Z then
         py_round1
           (float_mul
              (float_sub (inject_Z 1)
                 (float_div parallel_minutes (inject_Z sequential_minutes)))
              (inject_Z 100))
       else inject_Z 0 |}.

(** ** Phase planner: [generate_migration_sequence] *)

(** [self.dependencies["migration_sequence"]] *)
Record migration_sequence := {
  phases : list phase;
  parallel_groups : list parallel_group;
  sequential_order : list string;
  total_phases : nat;
  estimated_duration : duration
}.

(** [dependency_levels = defaultdict(list)], in insertion order of its keys *)
Abbreviation level_table := (list (nat * list string)) (only parsing).

(** [for lvl, containers in dependency_levels.items():
       if dep in containers: ...; break] *)
Fixpoint level_of (dependency_levels : level_table) (dep : string)
  : option nat :=
  match dependency_levels with
  | [] => None
  | (lvl, containers) :: rest =>
      if decide (dep ∈ containers) then Some lvl else level_of rest dep
  end.

(** The body of [for dep in self.container_dependencies.get(node, [])] *)
Definition raise_level (processed : gset string)
    (dependency_levels : level_table) (level : nat) (dep : string) : nat :=
  if decide (dep ∈ processed) then
    match level_of dependency_levels dep with
    | Some lvl => level `max` (lvl + 1)
    | None => level
    end
  else level.

(** [dependency_levels[level].append(node)] *)
Fixpoint level_append (level : nat) (node : string)
    (dependency_levels : level_table) : level_table :=
  match dependency_levels with
  | [] => [(level, [node])]
  | (lvl, containers) :: rest =>
      if decide (level = lvl) then (lvl, containers ++ [node]) :: rest
      else (lvl, containers) :: level_append level node rest
  end.

(** [dependency_levels[level]] for a key of the table *)
Fixpoint level_get (dependency_levels : level_table) (level : nat)
  : list string :=
  match dependency_levels with
  | [] => []
  | (lvl, containers) :: rest =>
      if decide (level = lvl) then containers else level_get rest level
  end.

(** One iteration of [for node in startup_order]. *)
Definition place_node (container_dependencies : pydict pyset)
    (acc : level_table * gset string) (node : string)
  : level_table * gset string :=
  let level :=
    foldl (raise_level acc.2 acc.1) 0
          (set_iter (dict_get_set container_dependencies node)) in
  (level_append level node acc.1, {[node]} ∪ acc.2).

Definition group_by_level (container_dependencies : pydict pyset)
    (startup_order : list string) : level_table :=
  (foldl (place_node container_dependencies) ([], ∅) startup_order).1.

(** [sorted(dependency_levels.keys())] *)
Definition sorted_levels (dependency_levels : level_table) : list nat :=
  merge_sort (≤) dependency_levels.*1.

Definition level_phase (dependency_levels : level_table) (level : nat)
  : phase :=
  let containers := level_get dependency_levels level in
  Phase ("Phase " +:+ pretty (level + 1)) containers
        (bool_decide (1 < length containers))
        (Some ("Migrate containers with dependency level " +:+ pretty level))
        None None.

Definition level_group (dependency_levels : level_table) (level : nat)
  : list parallel_group :=
  let containers := level_get dependency_levels level in
  if decide (1 < length containers) then
    [ParallelGroup (level + 1) containers "No interdependencies within group"]
  else [].

Definition cycle_phase (cycle_containers : pyset)
    (cycles : list (list string)) : phase :=
  Phase "Phase 0 - Cycle Resolution" (set_iter cycle_containers) false
        (Some "Containers with circular dependencies - manual intervention required")
        (Some true) (Some cycles).

Definition generate_migration_sequence (m : Mapper) (g : dependency_graph)
  : migration_sequence :=
  let startup_order := dg_startup_order g in
  let cycles := dg_cycles g in
  let '(phases, parallel_groups, sequential_order) :=
    match startup_order with
    | [] =>
        let all_containers := containers m in
        ([Phase "Phase 1" all_containers false None None None],
         [], all_containers)
    | _ =>
        let dependency_levels :=
          group_by_level (container_dependencies m) startup_order in
        let levels := sorted_levels dependency_levels in
        (level_phase dependency_levels <$> levels,
         concat (level_group dependency_levels <$> levels),
         startup_order)
    end in
  let phases :=
    match cycles with
    | [] => phases
    | _ =>
        let cycle_containers := concat cycles in
        match cycle_containers with
        | [] => phases
        | _ => cycle_phase cycle_containers cycles :: phases
        end
    end in
  {| phases := phases;
     parallel_groups := parallel_groups;
     sequential_order := sequential_order;
     total_phases := length phases;
     estimated_duration := _estimate_migration_duration phases |}.

(** [build_dependency_graph()] followed by [generate_migration_sequence()],
    as [run_full_analysis] calls them. *)
Definition plan (m : Mapper) : res (dependency_graph * migration_sequence) :=
  g ←r build_dependency_graph m;
  Ok (g, generate_migration_sequence m g).


(** ** Vocabulary of the properties *)

(** [source] depends on [target]: an edge of the dependency graph. *)
Definition depends_on (dependencies : pydict pyset) (source target : string)
  : Prop :=
  ∃ targets, (source, targets) ∈ dependencies ∧ target ∈ targets.

Definition acyclic (dependencies : pydict pyset) : Prop :=
  ∀ node, ¬ tc (depends_on dependencies) node node.

Definition cyclic (dependencies : pydict pyset) : Prop :=
  ∃ node, tc (depends_on dependencies) node node.

(** The dependencies of a node, in the order the code enumerates them. *)
Definition deps_of (dependencies : pydict pyset) (node : string)
  : list string :=
  set_iter (dict_get_set dependencies node).

(** The nodes that depend on [target], in dictionary order: the contents of
    [graph[target]] in [_calculate_startup_order]. *)
Definition dependents (dependencies : pydict pyset) (target : string)
  : list string :=
  (filter (λ item : string * pyset, target ∈ item.2) dependencies).*1.

(** The number of dependencies of [node] that are not yet in [order]. *)
Definition pending (dependencies : pydict pyset) (order : list string)
    (node : string) : nat :=
  length (filter (λ t, t ∉ order) (deps_of dependencies node)).

(** The invariant of the [while queue] loop of Kahn's algorithm. *)
Record kahn_inv (dependencies : pydict pyset) (order queue : list string)
    (in_degree : gmap string Z) : Prop := {
  ki_nodup : NoDup (order ++ queue);
  ki_nodes : ∀ x, x ∈ order ++ queue → x ∈ all_nodes dependencies;
  ki_degree : ∀ s, dd_int in_degree s = Z.of_nat (pending dependencies order s);
  ki_ready : ∀ x, x ∈ queue → pending dependencies order x = 0;
  ki_complete : ∀ x, x ∈ all_nodes dependencies →
                pending dependencies order x = 0 → x ∈ order ++ queue;
  ki_before : ∀ j x, order !! j = Some x →
              ∀ t, t ∈ deps_of dependencies x →
              ∃ i, i < j ∧ order !! i = Some t
}.


(** Consecutive elements of [l] are related by [R]. *)
Definition chain (R : relation string) (l : list string) : Prop :=
  ∀ i a b, l !! i = Some a → l !! S i = Some b → R a b.

(** A walk along dependency edges that returns to its first node, stored
    with that node at both ends. *)
Definition closed_walk (dependencies : pydict pyset) (c : list string)
  : Prop :=
  chain (depends_on dependencies) c ∧ ∃ node mid, c = node :: mid ++ [node].

(** The nodes [dfs] has not entered yet. *)
Definition unvisited (dependencies : pydict pyset) (st : dfs_state)
  : list string :=
  filter (λ x, x ∉ visited st) (set_iter (all_nodes dependencies)).

(** [dfs(node)] is called on a graph node, from the node on top of the path
    when there is one. *)
Definition call_ok (dependencies : pydict pyset) (st : dfs_state)
    (node : string) : Prop :=
  node ∈ all_nodes dependencies
  ∧ ∀ top, last (path st) = Some top → depends_on dependencies top node.

(** The invariant of the traversal. *)
Record dfs_inv (dependencies : pydict pyset) (st : dfs_state) : Prop := {
  di_stack : ∀ x, x ∈ rec_stack st ↔ x ∈ path st;
  di_chain : chain (depends_on dependencies) (path st);
  di_nodes : ∀ x, x ∈ visited st → x ∈ all_nodes dependencies;
  di_cycles : ∀ c, c ∈ cycles st → closed_walk dependencies c;
  di_closed :
    cycles st = [] →
    ∀ u, u ∈ visited st → u ∉ rec_stack st →
         (∀ w, depends_on dependencies u w →
               w ∈ visited st ∧ w ∉ rec_stack st)
         ∧ ¬ tc (depends_on dependencies) u u
}.

(** What a call of [dfs] leaves unchanged and what it only extends. *)
Record dfs_post (st st' : dfs_state) : Prop := {
  dp_stack : rec_stack st' = rec_stack st;
  dp_path : path st' = path st;
  dp_visited : visited st ⊆ visited st';
  dp_cycles : ∃ new, cycles st' = cycles st ++ new
}.


(** The quantities the duration estimate is stated in. *)
Definition node_count (phases : list phase) : Z :=
  Z.of_nat (length (concat (phase_containers <$> phases))).

Definition parallel_count (phases : list phase) : Z :=
  Z.of_nat (length (filter (λ ph, parallel ph = true) phases)).

Definition sequential_nodes (phases : list phase) : Z :=
  node_count (filter (λ ph, parallel ph = false) phases).

(** The sum the parallel estimate is built from: three and a half minutes
    for each parallel phase, five minutes for each node of the others. *)
Definition parallel_sum (phases : list phase) : Q :=
  (7 * parallel_count phases + 10 * sequential_nodes phases)%Z # 2.


(** Every key of a tracker built by [add] has a recorded target. *)
Definition populated (d : pydict pyset) : Prop :=
  ∀ k, k ∈ d.*1 → ∃ x, depends_on d k x.

End Embedding.

(** ** Inputs of the concrete runs *)

(** A depends on B, B depends on C. *)
Definition chain_deps : pydict pyset := [("A", ["B"]); ("B", ["C"])].

Definition chain_rank (node : string) : nat :=
  default 0 (list_index node ["C"; "B"; "A"]).

(** X depends on Y, Y depends on X. *)
Definition two_cycle_deps : pydict pyset := [("X", ["Y"]); ("Y", ["X"])].

(** The same graph with Y recorded first. *)
Definition two_cycle_deps_rev : pydict pyset := [("Y", ["X"]); ("X", ["Y"])].

(** The traversal state when [dfs] has entered X and then Y. *)
Definition on_stack_xy : dfs_state :=
  DfsState [] ({["Y"]} ∪ ({["X"]} ∪ ∅)) ({["Y"]} ∪ ({["X"]} ∪ ∅)) ["X"; "Y"].

(** One parallel phase of three nodes. *)
Definition three_node_phase : phase :=
  Phase "Phase 1" ["a"; "b"; "c"] true None None None.

(** A two-node cycle next to a dependency without cycle. *)
Definition mixed_facts : list fact :=
  [Fact "X" "Y" ContainerDep; Fact "Y" "X" ContainerDep;
   Fact "B" "C" ContainerDep].

(** ** Vocabulary of the further properties *)

(** A cycle as [dfs] stores it, without a repeated node apart from the one
    at both ends. *)
Definition simple_cycle (c : list string) : Prop :=
  ∃ node mid, c = node :: mid ++ [node] ∧ NoDup (node :: mid).

(** The part of the traversal invariant that keeps the path free of
    repetitions. *)
Record path_inv (st : dfs_state) : Prop := {
  pi_nodup : NoDup (path st);
  pi_stack : ∀ x, x ∈ rec_stack st ↔ x ∈ path st;
  pi_cycles : ∀ c, c ∈ cycles st → simple_cycle c
}.

(** The shape of the level table: distinct levels without a gap below any
    of them, none of them empty. *)
Definition levels_ok (table : list (nat * list string)) : Prop :=
  NoDup table.*1
  ∧ (∀ l l', l ∈ table.*1 → l' < l → l' ∈ table.*1)
  ∧ (∀ l, l ∈ table.*1 → level_get table l ≠ []).

(** A level the planner can assign: level 0, or the successor of a level
    that is in use. *)
Definition next_level (table : list (nat * list string)) (level : nat)
  : Prop :=
  level = 0 ∨ ∃ lvl, lvl ∈ table.*1 ∧ level = lvl + 1.

(** ** Report lists: [save_dependencies]

    The part of [save_dependencies] that completes the report entry of each
    container of the inventory before the report is written. *)

Record container_info := ContainerInfo {
  info_depends_on : list string;     (* "depends_on" *)
  info_depended_by : list string     (* "depended_by" *)
}.

#[global] Instance container_info_eq_dec : EqDecision container_info.
Proof. solve_decision. Defined.

Section Reports.
Context `{SetOrder}.

(** [all_deps = set()] and the three [all_deps.update(...get(name, []))],
    then [list(all_deps)] *)
Definition all_deps (m : Mapper) (container_name : string) : list string :=
  set_iter
    (set_iter (dict_get_set (container_dependencies m) container_name)
     ++ set_iter (dict_get_set (network_dependencies m) container_name)
     ++ set_iter (dict_get_set (volume_dependencies m) container_name)).

(** [for container_name in self.dependencies["containers"]: ...] *)
Definition save_dependencies (m : Mapper) : pydict container_info :=
  (λ container_name,
     (container_name,
      ContainerInfo (all_deps m container_name)
                    (dependents (container_dependencies m) container_name)))
  <$> containers m.

End Reports.

(** ** Python string operations of the analysers

    A string is the sequence of its characters, one [ascii] each; text with
    other characters is outside the model. The separators the analysers
    look for are ASCII characters. *)

(** [sub in s] *)
Fixpoint str_contains (sub s : string) : bool :=
  String.prefix sub s
  || match s with
     | EmptyString => false
     | String _ s' => str_contains sub s'
     end.

(** [s.split(sep)] for a separator of one character: the first piece and
    the pieces after it *)
Fixpoint str_split (sep : ascii) (s : string) : string * list string :=
  match s with
  | EmptyString => (EmptyString, [])
  | String c s' =>
      let '(piece, pieces) := str_split sep s' in
      if decide (c = sep) then (EmptyString, piece :: pieces)
      else (String c piece, pieces)
  end.

(** [s.split(sep, 1)]: the text before the first separator, and the text
    after it when there is a separator *)
Fixpoint str_split1 (sep : ascii) (s : string) : string * option string :=
  match s with
  | EmptyString => (EmptyString, None)
  | String c s' =>
      if decide (c = sep) then (EmptyString, Some s')
      else let '(piece, rest) := str_split1 sep s' in (String c piece, rest)
  end.

(** [s.lstrip(c)] for one character *)
Fixpoint str_lstrip (c : ascii) (s : string) : string :=
  match s with
  | EmptyString => EmptyString
  | String c' s' => if decide (c' = c) then str_lstrip c s' else s
  end.

(** [s.replace(old, new)] for single characters *)
Fixpoint str_replace (old new : ascii) (s : string) : string :=
  match s with
  | EmptyString => EmptyString
  | String c s' =>
      String (if decide (c = old) then new else c) (str_replace old new s')
  end.

(** [for c in s] *)
Fixpoint str_chars (s : string) : list string :=
  match s with
  | EmptyString => []
  | String c s' => String c EmptyString :: str_chars s'
  end.

(** ** The analysers of [analyze_container_dependencies]

    What the analysers read from the Docker daemon is data of the model: a
    container with the attributes the code looks up, and the client with
    the containers and networks it lists. An attribute that is absent or
    null, for which the loop over it does not run (the exception is caught
    and logged), is the empty list. The entries appended to the report
    lists of a container are not part of the model, the KeyError of the
    lookup of a container that is not in the inventory is. *)

Record docker_mount := Mount {
  mount_type : option string;        (* mount.get('Type') *)
  mount_name : option string;        (* mount.get('Name') *)
  mount_source : option string       (* mount.get('Source') *)
}.

#[global] Instance docker_mount_eq_dec : EqDecision docker_mount.
Proof. solve_decision. Defined.

Record docker_container := Container {
  c_name : string;                   (* container.name *)
  c_networks : list string;          (* keys of NetworkSettings.Networks *)
  c_mounts : list docker_mount;      (* attrs['Mounts'] *)
  c_env : list string;               (* Config.Env *)
  c_links : list string              (* HostConfig.Links *)
}.

Record docker_client := Client {
  (** [self.client.containers.list(all=True)] *)
  client_containers : list docker_container;
  (** [self.client.networks.get(name).attrs['Containers']], as the 'Name'
      of each entry; a network that is not in the list raises *)
  client_networks : pydict (list (option string))
}.

(** A mapper state and the exception that ended the statement, if any. *)
Definition outcome : Type := Mapper * option pyerr.

(** [for item in items: body], left at the first exception *)
Fixpoint for_each {A} (body : A → Mapper → outcome) (items : list A)
    (m : Mapper) : outcome :=
  match items with
  | [] => (m, None)
  | item :: rest =>
      match body item m with
      | (m', None) => for_each body rest m'
      | raised => raised
      end
  end.

(** [self.<tracker>[container_name].add(other)] followed by
    [self.dependencies["containers"][container_name][...].append({...})] *)
Definition record_relation (k : tracker) (container_name other : string)
    (m : Mapper) : outcome :=
  (record_fact m (Fact container_name other k),
   if decide (container_name ∈ containers m) then None else Some KeyError).

(** [_analyze_network_dependencies]; both [try] blocks discard the
    exception. *)
Definition _analyze_network_dependencies (client : docker_client)
    (container : docker_container) (container_name : string) (m : Mapper)
  : Mapper :=
  (for_each
     (λ network_name m,
        if decide (network_name = "bridge") then (m, None)
        else
          match dict_get (client_networks client) network_name with
          | None => (m, None)
          | Some connected_containers =>
              ((for_each
                  (λ connected_name m,
                     match connected_name with
                     | Some connected_name =>
                         if decide (connected_name ≠ ""
                                    ∧ connected_name ≠ container_name)
                         then record_relation NetworkDep container_name
                                              connected_name m
                         else (m, None)
                     | None => (m, None)
                     end)
                  connected_containers m).1, None)
          end)
     (c_networks container) m).1.

(** [for other_container in self.client.containers.list(all=True)] with
    the loop over its mounts, as both branches of
    [_analyze_volume_dependencies] have it; [shared] is the test on
    [other_mount]. *)
Definition for_other_mounts (client : docker_client)
    (container_name : string) (shared : docker_mount → bool) (m : Mapper)
  : outcome :=
  for_each
    (λ other_container m,
       if decide (c_name other_container = container_name) then (m, None)
       else
         for_each
           (λ other_mount m,
              if shared other_mount
              then record_relation VolumeDep container_name
                                   (c_name other_container) m
              else (m, None))
           (c_mounts other_container) m)
    (client_containers client) m.

(** The relationships that loop records. *)
Definition shared_mount_facts (client : docker_client)
    (container_name : string) (shared : docker_mount → bool) : list fact :=
  concat
    ((λ other_container,
        if decide (c_name other_container = container_name) then []
        else
          concat
            ((λ other_mount,
                if shared other_mount
                then [Fact container_name (c_name other_container) VolumeDep]
                else [])
             <$> c_mounts other_container))
     <$> client_containers client).

(** The two tests of [_analyze_volume_dependencies] on a mount of the
    container and a mount of another container: both are volumes with the
    same non-empty name, or both are bind mounts with the same source. *)
Definition shares_storage (mount other_mount : docker_mount) : Prop :=
  (mount_type mount = Some "volume" ∧ mount_type other_mount = Some "volume"
   ∧ ∃ volume_name, volume_name ≠ "" ∧ mount_name mount = Some volume_name
                    ∧ mount_name other_mount = Some volume_name)
  ∨ (mount_type mount = Some "bind" ∧ mount_type other_mount = Some "bind"
     ∧ mount_source other_mount = mount_source mount).

(** [_analyze_volume_dependencies] *)
Definition _analyze_volume_dependencies (client : docker_client)
    (container : docker_container) (container_name : string) (m : Mapper)
  : Mapper :=
  (for_each
     (λ mount m,
        if decide (mount_type mount = Some "volume") then
          match mount_name mount with
          | Some volume_name =>
              if decide (volume_name ≠ "") then
                for_other_mounts client container_name
                  (λ other_mount,
                     bool_decide (mount_type other_mount = Some "volume"
                                  ∧ mount_name other_mount = Some volume_name))
                  m
              else (m, None)
          | None => (m, None)
          end
        else if decide (mount_type mount = Some "bind") then
          for_other_mounts client container_name
            (λ other_mount,
               bool_decide (mount_type other_mount = Some "bind"
                            ∧ mount_source other_mount = mount_source mount))
            m
        else (m, None))
     (c_mounts container) m).1.

(** [_analyze_container_links] *)
Definition _analyze_container_links (container : docker_container)
    (container_name : string) (m : Mapper) : Mapper :=
  (for_each
     (λ link m,
        if str_contains ":" link then
          let parts := str_split ":"%char link in
          if decide (2 ≤ S (length parts.2)) then
            let source_container := str_lstrip "/"%char parts.1 in
            record_relation ContainerDep container_name source_container m
          else (m, None)
        else (m, None))
     (c_links container) m).1.

Section Environment.

(** [str.upper] *)
Variable upper : string → string.

(** The test of [_analyze_environment_dependencies] on the name of another
    container. *)
Definition env_reference (other_name key value : string) : bool :=
  str_contains other_name value
  || str_contains (upper (str_replace "-"%char "_"%char other_name)) key
  || str_contains (str_replace "_"%char "-"%char other_name) value.

(** [_analyze_environment_dependencies]; [key, value = env_var.split('=', 1)]
    raises ValueError when the split gives one piece. *)
Definition _analyze_environment_dependencies (client : docker_client)
    (container : docker_container) (container_name : string) (m : Mapper)
  : Mapper :=
  (for_each
     (λ env_var m,
        if negb (str_contains "=" env_var) then (m, None)
        else
          match str_split1 "="%char env_var with
          | (key, Some value) =>
              for_each
                (λ other_container m,
                   if decide (c_name other_container = container_name)
                   then (m, None)
                   else
                     let other_name := c_name other_container in
                     if env_reference other_name key value
                     then record_relation ContainerDep container_name
                                          other_name m
                     else (m, None))
                (client_containers client) m
          | (_, None) => (m, Some ValueError)
          end)
     (c_env container) m).1.

End Environment.

(** [s.upper()] on ASCII text *)
Definition ascii_upper (c : ascii) : ascii :=
  let n := nat_of_ascii c in
  if decide (97 ≤ n ∧ n ≤ 122) then ascii_of_nat (n - 32) else c.

Fixpoint str_upper (s : string) : string :=
  match s with
  | EmptyString => EmptyString
  | String c s' => String (ascii_upper c) (str_upper s')
  end.

(** ** Compose services: the service loop of [_analyze_compose_file]

    What [yaml.safe_load] gives for a key of a service is a list of names,
    a mapping (of which the code uses the keys), a string, null, or a number
    or boolean; a key that is absent has the default of the [get], the empty
    list. A service can be without a body (null, or a value that is not a
    mapping). Names in lists and mappings are strings. The loop has no
    [try] of its own: the first exception ends it, and
    [_analyze_compose_file] catches and logs it. The [service_info] entries
    of the report are not part of the model. *)

Inductive yaml_names :=
  | YamlList (names : list string)
  | YamlDict (keys : list string)
  | YamlStr (name : string)
  | YamlNull
  | YamlOther.                        (* a number or a boolean *)

Record compose_service := ComposeService {
  service_depends_on : yaml_names;    (* service_config.get('depends_on', []) *)
  service_links : yaml_names;         (* service_config.get('links', []) *)
  service_volumes_from : yaml_names;  (* service_config.get('volumes_from', []) *)
  service_networks : yaml_names       (* service_config.get('networks', []) *)
}.

Inductive compose_error := TypeError | AttributeError.

Definition compose_outcome : Type := Mapper * option compose_error.

(** [depends_on] after the two [isinstance] tests, as the sequence that
    [for dep in depends_on] runs over; [None] when the value is not
    iterable *)
Definition depends_on_names (depends_on : yaml_names) : option (list string) :=
  match depends_on with
  | YamlList names => Some names
  | YamlDict keys => Some keys
  | YamlStr name => Some [name]
  | YamlNull | YamlOther => None
  end.

(** [for x in value]: a mapping gives its keys, a string its characters;
    [None] when the value is not iterable *)
Definition yaml_iter (value : yaml_names) : option (list string) :=
  match value with
  | YamlList names => Some names
  | YamlDict keys => Some keys
  | YamlStr text => Some (str_chars text)
  | YamlNull | YamlOther => None
  end.

(** [link.split(':')[0]] if [':' in link], else [link] *)
Definition linked_service (link : string) : string :=
  if str_contains ":" link then (str_split ":"%char link).1 else link.

(** [for other_service_name, other_service_config in services.items()]:
    the lookup of the networks of a service without body raises, and so
    does [set(...)] of a number; a null is replaced by the empty list
    before. Nothing is added to a tracker here. *)
Fixpoint network_loop (networks : yaml_names) (service_name : string)
    (services : pydict (option compose_service)) : option compose_error :=
  match services with
  | [] => None
  | (other_service_name, other_service_config) :: rest =>
      if decide (other_service_name = service_name)
      then network_loop networks service_name rest
      else
        match other_service_config with
        | None => Some AttributeError
        | Some other_service_config =>
            match networks, service_networks other_service_config with
            | YamlOther, _ | _, YamlOther => Some TypeError
            | _, _ => network_loop networks service_name rest
            end
        end
  end.

(** The body of the service loop. *)
Definition analyze_service (services : pydict (option compose_service))
    (service_name : string) (service_config : option compose_service)
    (m : Mapper) : compose_outcome :=
  match service_config with
  | None => (m, Some AttributeError)
  | Some service_config =>
      match depends_on_names (service_depends_on service_config) with
      | None => (m, Some TypeError)
      | Some depends_on =>
          let m :=
            foldl (λ m dep, record_fact m (Fact service_name dep ComposeDep))
                  m depends_on in
          match yaml_iter (service_links service_config) with
          | None => (m, Some TypeError)
          | Some links =>
              let m :=
                foldl (λ m link,
                         record_fact m (Fact service_name (linked_service link)
                                             ComposeDep))
                      m links in
              match yaml_iter (service_volumes_from service_config) with
              | None => (m, Some TypeError)
              | Some volumes_from =>
                  let m :=
                    foldl (λ m vol_from,
                             record_fact m (Fact service_name vol_from
                                                 ComposeDep))
                          m volumes_from in
                  (m, network_loop (service_networks service_config)
                                   service_name services)
              end
          end
      end
  end.

(** [for service_name, service_config in services.items(): ...], left at
    the first exception *)
Fixpoint service_loop (services items : pydict (option compose_service))
    (m : Mapper) : compose_outcome :=
  match items with
  | [] => (m, None)
  | (service_name, service_config) :: rest =>
      match analyze_service services service_name service_config m with
      | (m', None) => service_loop services rest m'
      | raised => raised
      end
  end.

(** The service loop inside the [try] of [_analyze_compose_file]. *)
Definition analyze_services (services : pydict (option compose_service))
    (m : Mapper) : Mapper :=
  (service_loop services services m).1.

(** The relationships a service asks for. *)
Definition service_facts (item : string * option compose_service)
  : list fact :=
  match item.2 with
  | None => []
  | Some service_config =>
      ((λ dep, Fact item.1 dep ComposeDep)
       <$> default [] (depends_on_names (service_depends_on service_config)))
      ++ ((λ link, Fact item.1 (linked_service link) ComposeDep)
          <$> default [] (yaml_iter (service_links service_config)))
      ++ ((λ vol_from, Fact item.1 vol_from ComposeDep)
          <$> default []
                (yaml_iter (service_volumes_from service_config)))
  end.

(** [s] asks for [x] in one of the three keys. *)
Definition service_asks (services : pydict (option compose_service))
    (s x : string) : Prop :=
  ∃ service_config,
    (s, Some service_config) ∈ services
    ∧ ((∃ names, depends_on_names (service_depends_on service_config)
                 = Some names ∧ x ∈ names)
       ∨ (∃ links link, yaml_iter (service_links service_config) = Some links
                        ∧ link ∈ links ∧ x = linked_service link)
       ∨ (∃ names, yaml_iter (service_volumes_from service_config)
                   = Some names ∧ x ∈ names)).

(** A service on which the loop body does not raise: it has a body, its
    three keys are iterable and its networks are not a number. *)
Definition service_ok (item : string * option compose_service) : Prop :=
  ∃ service_config,
    item.2 = Some service_config
    ∧ is_Some (depends_on_names (service_depends_on service_config))
    ∧ is_Some (yaml_iter (service_links service_config))
    ∧ is_Some (yaml_iter (service_volumes_from service_config))
    ∧ service_networks service_config ≠ YamlOther.

(** ** Inputs of the further runs *)

(** Two containers, web and db, attached to the network [backend]. *)
Definition web_container : docker_container :=
  Container "web" ["backend"] [Mount (Some "volume") (Some "data") None]
            ["DB_HOST=db"; "DEBUG"] ["/db:/web/db"].

Definition db_container : docker_container :=
  Container "db" ["bridge"; "backend"]
            [Mount (Some "volume") (Some "data") None] [] [].

Definition two_containers : docker_client :=
  Client [web_container; db_container]
         [("backend", [Some "web"; Some "db"])].

Definition sequential_two : phase :=
  Phase "Phase 1" ["a"; "b"] false None None None.

(** The graph of the chain A → B → C as the builder stores it. *)
Definition chain_graph : dependency_graph :=
  {| dg_nodes := ["A"; "B"; "C"];
     dg_edges := [Edge "A" "B" "depends_on"; Edge "B" "C" "depends_on"];
     dg_cycles := [];
     dg_startup_order := ["C"; "B"; "A"] |}.

Definition chain_facts : list fact :=
  [Fact "A" "B" ContainerDep; Fact "B" "C" ContainerDep].

(** The relationships of web and db: an environment reference, a shared
    network and a compose dependency. *)
Definition web_db_facts : list fact :=
  [Fact "web" "db" ContainerDep; Fact "web" "db" NetworkDep;
   Fact "db" "web" NetworkDep; Fact "web" "cache" ComposeDep].

(** ** The interpreter's recursion limit

    [dfs] is a recursive closure: every node of the path is a frame of the
    interpreter, and Python raises RecursionError when a call would go
    deeper than the frames it has left. Neither [_detect_cycles] nor
    [build_dependency_graph] catches it. *)

(** The outcome of a traversal that ran out of frames. *)
Definition RecursionError {A} : res A := OutOfFuel.

Section RecursionLimit.
Context `{SetOrder}.

(** [_detect_cycles] in an interpreter that has room for [depth] nested
    calls of [dfs]. *)
Definition _detect_cycles_within (depth : nat) (dependencies : pydict pyset)
  : res (list (list string)) :=
  st ←r dfs_roots depth dependencies dependencies.*1 (DfsState [] ∅ ∅ []);
  Ok (cycles st).

End RecursionLimit.

Definition node_name (i : nat) : string := "n" +:+ pretty i.

(** n0 depends on n1, n1 on n2, and so on up to n[k]; n[k] depends on the
    node before it, which closes a cycle of two nodes at the far end. *)
Definition deep_chain (k : nat) : pydict pyset :=
  ((λ i, (node_name i, [node_name (S i)])) <$> seq 0 k)
  ++ [(node_name k, [node_name (k - 1)])].


(** *** Doubles of the machine

    The rational value of a primitive float, to compare [binary64] with the
    arithmetic of the processor on the values of the examples. *)
Definition double_value (x : float) : Q :=
  match Prim2SF x with
  | S754_finite sign m e =>
      ((if sign then - inject_Z (Z.pos m) else inject_Z (Z.pos m)) * 2 ^ e)%Q
  | _ => inject_Z 0
  end.

(** A parallel phase of three nodes, then five nodes one after the other. *)
Definition mixed_phases : list phase :=
  [three_node_phase;
   Phase "Phase 2" ["d"; "e"; "f"; "g"; "h"] false None None None].

(** Two parallel phases, then four nodes one after the other: 27 minutes. *)
Definition half_hour_phases : list phase :=
  [Phase "Phase 1" ["a"; "b"] true None None None;
   Phase "Phase 2" ["c"; "d"] true None None None;
   Phase "Phase 3" ["e"; "f"; "g"; "h"] false None None None].
(** * Properties *)

(** ** Containers *)

Section Dicts.
Context {V : Type}.
Implicit Types (d : pydict V) (k : string) (v : V).

Lemma dict_get_Some_elem d k v : dict_get d k = Some v → (k, v) ∈ d.
Proof.
  induction d as [|[k' v'] d IH]; simpl; [done|].
  case_decide as Hk.
  - intros [= ->]. subst. left.
  - intros ?. right. auto.
Qed.

Lemma dict_get_elem d k v : NoDup d.*1 → (k, v) ∈ d → dict_get d k = Some v.
Proof.
  induction d as [|[k' v'] d IH]; simpl.
  - intros _ ?%elem_of_nil. done.
  - intros [Hk Hd]%NoDup_cons [Heq|Hin]%elem_of_cons.
    + injection Heq as -> ->. by rewrite decide_True.
    + rewrite decide_False; [auto|]. intros ->. apply Hk.
      apply (list_elem_of_fmap_2 fst) in Hin. done.
Qed.

Lemma dict_get_None d k : dict_get d k = None ↔ k ∉ d.*1.
Proof.
  induction d as [|[k' v'] d IH]; simpl.
  - split; [intros _; apply not_elem_of_nil | done].
  - rewrite elem_of_cons. case_decide; [naive_solver|]. rewrite IH. tauto.
Qed.

End Dicts.

Lemma elem_of_concat {A} (x : A) (ls : list (list A)) :
  x ∈ concat ls ↔ ∃ l, x ∈ l ∧ l ∈ ls.
Proof.
  induction ls as [|l ls IH]; simpl.
  - split; [by intros ?%elem_of_nil | by intros (? & _ & ?%elem_of_nil)].
  - rewrite elem_of_app, IH. split.
    + intros [?|(l' & ? & ?)]; [exists l | exists l'];
        (split; [done|]); [left | by right].
    + intros (l' & ? & [->|?]%elem_of_cons); [by left | right; eauto].
Qed.

Lemma list_index_lookup x l i : list_index x l = Some i → l !! i = Some x.
Proof.
  revert i. induction l as [|y l IH]; intros i; simpl; [done|].
  case_decide as Hxy.
  - intros [= <-]. by subst.
  - destruct (list_index x l) as [j|]; simpl; [|done].
    intros [= <-]. simpl. auto.
Qed.

Lemma list_index_first x l i j :
  list_index x l = Some i → l !! j = Some x → i ≤ j.
Proof.
  revert i j. induction l as [|y l IH]; intros i j; simpl; [done|].
  case_decide as Hxy.
  - intros [= <-] _. lia.
  - destruct (list_index x l) as [i'|] eqn:Hi; simpl; [|done].
    intros [= <-]. destruct j as [|j]; simpl.
    + intros [= ->]. done.
    + intros Hj. specialize (IH _ _ eq_refl Hj). lia.
Qed.

Lemma lookup_list_index x l i :
  NoDup l → l !! i = Some x → list_index x l = Some i.
Proof.
  intros Hnd Hi.
  destruct (list_index x l) as [j|] eqn:Hj.
  - f_equal. apply list_index_lookup in Hj. eapply NoDup_lookup; eauto.
  - exfalso. clear Hnd. revert i Hi Hj.
    induction l as [|y l IH]; intros i; simpl; [done|].
    case_decide as Hxy; [done|].
    destruct i as [|i]; simpl; [naive_solver|].
    destruct (list_index x l); simpl; [done|]. eauto.
Qed.

Lemma list_index_is_Some x l : x ∈ l → is_Some (list_index x l).
Proof.
  induction l as [|y l IH]; simpl; [by intros ?%elem_of_nil|].
  intros [->|Hin]%elem_of_cons.
  - rewrite decide_True; eauto.
  - case_decide; [eauto|]. destruct (IH Hin) as [i ->]. simpl. eauto.
Qed.

(** ** Topological sequencer *)

Section Kahn.
Context `{SetOrder}.
Implicit Types (deps : pydict pyset) (order queue : list string).
Implicit Types (in_degree : gmap string Z) (graph : gmap string (list string)).

Lemma set_iter_elem_1 s x : x ∈ set_iter s → x ∈ s.
Proof. apply set_iter_elem. Qed.

Lemma set_iter_elem_2 s x : x ∈ s → x ∈ set_iter s.
Proof. apply set_iter_elem. Qed.

Lemma set_iter_nil : set_iter [] = [].
Proof.
  destruct (set_iter []) as [|x l] eqn:E; [done|].
  assert (x ∈ set_iter []) as Hx by (rewrite E; left).
  apply set_iter_elem_1 in Hx. by apply elem_of_nil in Hx.
Qed.

Lemma dd_list_insert graph k v t :
  dd_list (<[k:=v]> graph) t = if decide (k = t) then v else dd_list graph t.
Proof. unfold dd_list. rewrite lookup_insert. by case_decide. Qed.

Lemma dd_int_insert in_degree k v s :
  dd_int (<[k:=v]> in_degree) s = if decide (k = s) then v else dd_int in_degree s.
Proof. unfold dd_int. rewrite lookup_insert. by case_decide. Qed.

Lemma depends_on_deps_of deps s t :
  NoDup deps.*1 → depends_on deps s t ↔ t ∈ deps_of deps s.
Proof.
  unfold depends_on, deps_of, dict_get_set. intros Hnd.
  rewrite set_iter_elem. split.
  - intros (ts & Hin & Ht). by rewrite (dict_get_elem _ _ _ Hnd Hin).
  - destruct (dict_get deps s) as [ts|] eqn:E; simpl.
    + intros Ht. exists ts. split; [by apply dict_get_Some_elem | done].
    + by intros ?%elem_of_nil.
Qed.

Lemma elem_of_dependents deps s t : s ∈ dependents deps t ↔ depends_on deps s t.
Proof.
  unfold dependents, depends_on. rewrite list_elem_of_fmap. split.
  - intros ([k ts] & -> & [Ht Hin]%list_elem_of_filter). eauto.
  - intros (ts & Hin & Ht). exists (s, ts). split; [done|].
    by apply list_elem_of_filter.
Qed.

Lemma NoDup_dependents deps t : NoDup deps.*1 → NoDup (dependents deps t).
Proof.
  intros Hnd. apply (sublist_NoDup _ deps.*1); [done|].
  unfold dependents. apply fmap_sublist, sublist_filter.
Qed.

Lemma depends_on_nodes deps s t :
  depends_on deps s t → s ∈ all_nodes deps ∧ t ∈ all_nodes deps.
Proof.
  intros (ts & Hin & Ht). unfold all_nodes. rewrite !elem_of_app. split.
  - left. by apply (list_elem_of_fmap_2 fst) in Hin.
  - right. apply elem_of_concat. exists (set_iter ts). split.
    + by apply set_iter_elem.
    + apply list_elem_of_fmap. exists ts. split; [done|].
      by apply (list_elem_of_fmap_2 snd) in Hin.
Qed.

Lemma all_nodes_elem deps x :
  x ∈ all_nodes deps ↔ x ∈ deps.*1 ∨ ∃ s, depends_on deps s x.
Proof.
  split.
  - unfold all_nodes. rewrite elem_of_app. intros [?|Hx]; [by left|right].
    apply elem_of_concat in Hx as (l & Hx & Hl).
    apply list_elem_of_fmap in Hl as (ts & -> & Hts).
    apply list_elem_of_fmap in Hts as ([s ts'] & -> & Hin).
    exists s, ts'. split; [done|]. by apply set_iter_elem_1.
  - intros [Hk|[s Hs]]; [|by apply depends_on_nodes in Hs as [_ ?]].
    unfold all_nodes. apply elem_of_app. by left.
Qed.

(** *** The reversed graph and the initial in-degrees *)

Lemma add_dependency_fold source l graph in_degree :
  NoDup l →
  (∀ t, dd_list (foldl (add_dependency source) (graph, in_degree) l).1 t
        = dd_list graph t ++ if decide (t ∈ l) then [source] else []) ∧
  (∀ s, dd_int (foldl (add_dependency source) (graph, in_degree) l).2 s
        = (dd_int in_degree s
           + if decide (s = source) then Z.of_nat (length l) else 0)%Z).
Proof.
  revert graph in_degree.
  induction l as [|x l IH]; intros graph in_degree Hnd; simpl.
  - split; intros k.
    + by rewrite app_nil_r.
    + case_decide; lia.
  - apply NoDup_cons in Hnd as [Hx Hnd].
    destruct (IH (<[x:=dd_list graph x ++ [source]]> graph)
                 (<[source:=(dd_int in_degree source + 1)%Z]> in_degree) Hnd)
      as [IHg IHd].
    split; intros k.
    + rewrite IHg, dd_list_insert. destruct (decide (x = k)) as [->|Hne].
      * rewrite decide_False by done. rewrite decide_True by left.
        by rewrite app_nil_r.
      * destruct (decide (k ∈ l)) as [Hk|Hk].
        -- rewrite decide_True; [done | by right].
        -- rewrite decide_False; [done|].
           intros [->|?]%elem_of_cons; done.
    + rewrite IHd, dd_int_insert.
      repeat case_decide; subst; try done; lia.
Qed.

Lemma deps_of_cons_eq k ts deps : deps_of ((k, ts) :: deps) k = set_iter ts.
Proof. unfold deps_of, dict_get_set. simpl. by rewrite decide_True. Qed.

Lemma deps_of_cons_ne k ts deps s :
  s ≠ k → deps_of ((k, ts) :: deps) s = deps_of deps s.
Proof. intros. unfold deps_of, dict_get_set. simpl. by rewrite decide_False. Qed.

Lemma deps_of_not_key deps s : s ∉ deps.*1 → deps_of deps s = [].
Proof.
  intros Hs%dict_get_None. unfold deps_of, dict_get_set. rewrite Hs.
  apply set_iter_nil.
Qed.

Lemma dependents_cons k ts deps t :
  dependents ((k, ts) :: deps) t
  = (if decide (t ∈ ts) then [k] else []) ++ dependents deps t.
Proof. unfold dependents. rewrite filter_cons. simpl. by case_decide. Qed.

Lemma add_dependencies_fold deps graph in_degree :
  NoDup deps.*1 →
  (∀ t, dd_list (foldl add_dependencies (graph, in_degree) deps).1 t
        = dd_list graph t ++ dependents deps t) ∧
  (∀ s, dd_int (foldl add_dependencies (graph, in_degree) deps).2 s
        = (dd_int in_degree s + Z.of_nat (length (deps_of deps s)))%Z).
Proof.
  revert graph in_degree.
  induction deps as [|[k ts] deps IH]; intros graph in_degree Hnd.
  - split; intros x; cbn [foldl fst snd].
    + unfold dependents. rewrite filter_nil. simpl. by rewrite app_nil_r.
    + rewrite deps_of_not_key by apply not_elem_of_nil. simpl. lia.
  - rewrite fmap_cons in Hnd. apply NoDup_cons in Hnd as [Hk Hnd].
    cbn [foldl]. unfold add_dependencies at 2 4. cbn [fst snd] in *.
    destruct (add_dependency_fold k (set_iter ts) graph in_degree
                (set_iter_NoDup ts)) as [Hg Hd].
    destruct (foldl (add_dependency k) (graph, in_degree) (set_iter ts))
      as [g1 d1] eqn:E. cbn [fst snd] in Hg, Hd.
    destruct (IH g1 d1 Hnd) as [IHg IHd]. split; intros x.
    + rewrite IHg, Hg, <-app_assoc, dependents_cons. f_equal.
      destruct (decide (x ∈ set_iter ts)) as [Hx|Hx];
        rewrite set_iter_elem in Hx.
      * by rewrite decide_True.
      * by rewrite decide_False.
    + rewrite IHd, Hd. destruct (decide (x = k)) as [->|Hne].
      * rewrite deps_of_cons_eq, (deps_of_not_key deps k) by done.
        simpl. lia.
      * rewrite deps_of_cons_ne by done. lia.
Qed.

Lemma in_degree_init l in_degree :
  (∀ k, dd_int in_degree k = 0%Z) →
  ∀ k, dd_int (foldl (λ d node, <[node:=0%Z]> d) in_degree l) k = 0%Z.
Proof.
  revert in_degree. induction l as [|x l IH]; intros d Hd k; simpl; [auto|].
  apply IH. intros k'. rewrite dd_int_insert. by case_decide.
Qed.

Lemma reverse_graph_spec deps :
  NoDup deps.*1 →
  (∀ t, dd_list (reverse_graph deps).1 t = dependents deps t) ∧
  (∀ s, dd_int (reverse_graph deps).2 s
        = Z.of_nat (length (deps_of deps s))).
Proof.
  intros Hnd. unfold reverse_graph.
  destruct (add_dependencies_fold deps ∅
              (foldl (λ d node, <[node:=0%Z]> d) ∅
                     (set_iter (all_nodes deps))) Hnd) as [Hg Hd].
  split; intros x.
  - rewrite Hg. unfold dd_list at 1. by rewrite lookup_empty.
  - rewrite Hd, in_degree_init; [lia|]. intros k. unfold dd_int.
    by rewrite lookup_empty.
Qed.

(** *** Releasing the dependents of a node *)

Lemma filter_ext_elem {A} (P Q : A → Prop)
    `{!∀ x, Decision (P x), !∀ x, Decision (Q x)} (l : list A) :
  (∀ x, x ∈ l → P x ↔ Q x) → filter P l = filter Q l.
Proof.
  induction l as [|a l IH]; intros HPQ; [done|].
  rewrite !filter_cons.
  rewrite IH by (intros x Hx; apply HPQ; by right).
  assert (P a ↔ Q a) as Ha by (apply HPQ; left).
  destruct (decide (P a)) as [HP|HP].
  - rewrite decide_True; [done | tauto].
  - rewrite decide_False; [done | tauto].
Qed.

Lemma release_spec l in_degree queue :
  NoDup l →
  (∀ s, dd_int (release l in_degree queue).1 s
        = (dd_int in_degree s - if decide (s ∈ l) then 1 else 0)%Z) ∧
  (release l in_degree queue).2
  = queue ++ filter (λ s, dd_int in_degree s = 1%Z) l.
Proof.
  revert in_degree queue.
  induction l as [|n l IH]; intros in_degree queue Hnd.
  - split; [intros s|]; cbn [release fst snd].
    + rewrite decide_False by apply not_elem_of_nil. lia.
    + by rewrite filter_nil, app_nil_r.
  - apply NoDup_cons in Hnd as [Hn Hnd]. cbn [release].
    destruct (IH (<[n:=(dd_int in_degree n - 1)%Z]> in_degree)
                 (if decide ((dd_int in_degree n - 1)%Z = 0%Z)
                  then queue ++ [n] else queue) Hnd) as [IHd IHq].
    split; [intros s|].
    + rewrite IHd, dd_int_insert. destruct (decide (n = s)) as [->|Hne].
      * rewrite decide_False by done. rewrite decide_True by left. lia.
      * destruct (decide (s ∈ l)) as [Hs|Hs].
        -- rewrite decide_True by (by right). lia.
        -- rewrite decide_False; [lia|].
           intros [->|?]%elem_of_cons; done.
    + rewrite IHq, filter_cons.
      rewrite (filter_ext_elem _ (λ s, dd_int in_degree s = 1%Z) l).
      * destruct (decide ((dd_int in_degree n - 1)%Z = 0%Z)) as [Hd|Hd].
        -- rewrite decide_True by lia. by rewrite <-app_assoc.
        -- rewrite decide_False by lia. done.
      * intros x Hx. rewrite dd_int_insert, decide_False; [done|].
        by intros ->.
Qed.

(** *** Counting the unresolved dependencies *)

Lemma pending_nil deps s : pending deps [] s = length (deps_of deps s).
Proof.
  unfold pending. f_equal. induction (deps_of deps s) as [|x l IH]; [done|].
  rewrite filter_cons_True by apply not_elem_of_nil. by rewrite IH.
Qed.

Lemma pending_zero deps order s :
  pending deps order s = 0 ↔ ∀ t, t ∈ deps_of deps s → t ∈ order.
Proof.
  unfold pending. induction (deps_of deps s) as [|x l IH].
  - split; [by intros _ t ?%elem_of_nil | done].
  - rewrite filter_cons. destruct (decide (x ∉ order)) as [Hx|Hx].
    + split; [done|]. intros Hall. destruct Hx. apply Hall. left.
    + rewrite IH. apply dec_stable in Hx. split.
      * intros Hall t [->|?]%elem_of_cons; auto.
      * intros Hall t Ht. apply Hall. by right.
Qed.

Lemma pending_snoc_out deps order t s :
  t ∉ deps_of deps s → pending deps (order ++ [t]) s = pending deps order s.
Proof.
  intros Ht. unfold pending. f_equal. apply filter_ext_elem.
  intros x Hx. rewrite elem_of_app, list_elem_of_singleton.
  split; [tauto|]. intros Hno [?| ->]; done.
Qed.

Lemma pending_snoc_in deps order t s :
  t ∈ deps_of deps s → t ∉ order →
  pending deps order s = S (pending deps (order ++ [t]) s).
Proof.
  unfold pending, deps_of. intros Ht Hno.
  pose proof (set_iter_NoDup (dict_get_set deps s)) as Hnd.
  induction (set_iter (dict_get_set deps s)) as [|x l IH];
    [by apply elem_of_nil in Ht|].
  apply NoDup_cons in Hnd as [Hx Hnd]. rewrite !filter_cons.
  apply elem_of_cons in Ht as [<-|Ht].
  - rewrite decide_True by done.
    rewrite decide_False by (rewrite elem_of_app, list_elem_of_singleton; tauto).
    simpl. f_equal. f_equal. apply filter_ext_elem.
    intros y Hy. rewrite elem_of_app, list_elem_of_singleton.
    split; [|tauto]. intros Hyo [?| ->]; done.
  - specialize (IH Ht Hnd). assert (x ≠ t) by (by intros ->).
    destruct (decide (x ∉ order)) as [Hxo|Hxo].
    + rewrite decide_True
        by (rewrite elem_of_app, list_elem_of_singleton; tauto).
      simpl. by rewrite IH.
    + rewrite decide_False
        by (rewrite elem_of_app; apply dec_stable in Hxo; tauto).
      done.
Qed.

Lemma pending_mono deps order t s :
  pending deps order s = 0 → pending deps (order ++ [t]) s = 0.
Proof.
  rewrite !pending_zero. intros Hall x Hx. apply elem_of_app. left. auto.
Qed.

(** *** The loop invariant *)

Lemma kahn_inv_placed deps order queue in_degree x :
  kahn_inv deps order queue in_degree →
  x ∈ order ++ queue → pending deps order x = 0.
Proof.
  intros Hinv [Hx|Hx]%elem_of_app; [|by eapply ki_ready].
  apply pending_zero. intros t Ht.
  apply list_elem_of_lookup in Hx as [j Hj].
  destruct (ki_before _ _ _ _ Hinv j x Hj t Ht) as (i & _ & Hi).
  by eapply list_elem_of_lookup_2.
Qed.

Lemma kahn_inv_init deps :
  NoDup deps.*1 →
  kahn_inv deps []
    (filter (λ node, dd_int (reverse_graph deps).2 node = 0%Z)
            (set_iter (all_nodes deps)))
    (reverse_graph deps).2.
Proof.
  intros Hnd. destruct (reverse_graph_spec deps Hnd) as [_ Hd].
  split.
  - rewrite app_nil_l. apply NoDup_filter, set_iter_NoDup.
  - intros x. rewrite app_nil_l.
    intros [_ Hx]%list_elem_of_filter. by apply set_iter_elem_1.
  - intros s. by rewrite Hd, pending_nil.
  - intros x [Hx _]%list_elem_of_filter. rewrite pending_nil.
    rewrite Hd in Hx. lia.
  - intros x Hx Hp. rewrite app_nil_l. apply list_elem_of_filter.
    split; [|by apply set_iter_elem_2].
    rewrite Hd, <-pending_nil, Hp. done.
  - intros j x Hj. by rewrite lookup_nil in Hj.
Qed.

Lemma kahn_inv_step deps order node queue in_degree :
  NoDup deps.*1 →
  kahn_inv deps order (node :: queue) in_degree →
  kahn_inv deps (order ++ [node])
    (release (dependents deps node) in_degree queue).2
    (release (dependents deps node) in_degree queue).1.
Proof.
  intros Hnd Hinv.
  destruct (release_spec (dependents deps node) in_degree queue
              (NoDup_dependents deps node Hnd)) as [Hd Hq].
  rewrite Hq. clear Hq.
  assert (∀ s, s ∈ dependents deps node ↔ node ∈ deps_of deps s) as Hdep.
  { intros s. by rewrite elem_of_dependents, depends_on_deps_of. }
  pose proof (ki_nodup _ _ _ _ Hinv) as Hnodup.
  assert (node ∉ order) as Hfresh.
  { apply NoDup_app in Hnodup as (_ & Hdisj & _). intros Hin.
    apply (Hdisj _ Hin). left. }
  assert (pending deps order node = 0) as Hnode.
  { eapply ki_ready; [done | left]. }
  assert (∀ s, s ∈ filter (λ s, dd_int in_degree s = 1%Z)
                         (dependents deps node) →
               pending deps order s = 1 ∧ node ∈ deps_of deps s) as Hnew.
  { intros s [Hs Hin]%list_elem_of_filter. split; [|by apply Hdep].
    rewrite (ki_degree _ _ _ _ Hinv) in Hs. lia. }
  split.
  - rewrite <-app_assoc. simpl. rewrite app_comm_cons, app_assoc.
    apply NoDup_app. split; [done|]. split.
    + intros x Hx Hx'. apply Hnew in Hx' as [Hx' _].
      rewrite (kahn_inv_placed _ _ _ _ _ Hinv Hx) in Hx'. done.
    + apply NoDup_filter, NoDup_dependents, Hnd.
  - intros x. rewrite <-app_assoc. simpl. rewrite app_comm_cons, app_assoc.
    intros [Hx|Hx]%elem_of_app; [by eapply ki_nodes|].
    apply list_elem_of_filter in Hx as [_ Hx].
    apply elem_of_dependents, depends_on_nodes in Hx. tauto.
  - intros s. rewrite Hd, (ki_degree _ _ _ _ Hinv).
    destruct (decide (s ∈ dependents deps node)) as [Hs|Hs].
    + apply Hdep in Hs. rewrite (pending_snoc_in _ _ node s Hs Hfresh). lia.
    + rewrite pending_snoc_out; [lia|]. by rewrite <-Hdep.
  - intros x [Hx|Hx]%elem_of_app.
    + apply pending_mono. eapply ki_ready; [done | by right].
    + apply Hnew in Hx as [Hone Hx].
      rewrite (pending_snoc_in _ _ node x Hx Hfresh) in Hone. lia.
  - intros x Hx Hp. rewrite <-app_assoc. simpl.
    rewrite app_comm_cons, app_assoc. apply elem_of_app.
    destruct (decide (node ∈ deps_of deps x)) as [Hin|Hin].
    + right. apply list_elem_of_filter. split; [|by apply Hdep].
      rewrite (ki_degree _ _ _ _ Hinv),
        (pending_snoc_in _ _ node x Hin Hfresh), Hp. done.
    + left. rewrite pending_snoc_out in Hp by done.
      by eapply ki_complete.
  - intros j x Hj t Ht. apply lookup_snoc_Some in Hj as [[Hlt Hj]|[-> <-]].
    + destruct (ki_before _ _ _ _ Hinv j x Hj t Ht) as (i & Hi & Hit).
      exists i. split; [done|]. by apply lookup_app_l_Some.
    + apply (proj1 (pending_zero _ _ _) Hnode) in Ht.
      apply list_elem_of_lookup in Ht as [i Hi]. exists i.
      split; [by eapply lookup_lt_Some | by apply lookup_app_l_Some].
Qed.

(** The loop terminates within one iteration per node and keeps the
    invariant. *)
Lemma kahn_loop_spec deps fuel order queue in_degree :
  NoDup deps.*1 →
  kahn_inv deps order queue in_degree →
  length (set_iter (all_nodes deps)) ≤ length order + fuel →
  ∃ order' in_degree',
    kahn_loop fuel (reverse_graph deps).1 in_degree queue order = Some order'
    ∧ kahn_inv deps order' [] in_degree'.
Proof.
  intros Hnd. revert order queue in_degree.
  induction fuel as [|fuel IH]; intros order queue in_degree Hinv Hlen;
    destruct queue as [|node queue]; cbn [kahn_loop]; eauto.
  - exfalso. pose proof (ki_nodup _ _ _ _ Hinv) as Hnodup.
    rewrite cons_middle, app_assoc in Hnodup.
    apply NoDup_app in Hnodup as (Hnodup & _ & _).
    assert (order ++ [node] ⊆+ set_iter (all_nodes deps)) as Hsub.
    { apply NoDup_submseteq; [done|]. intros x Hx. apply set_iter_elem_2.
      eapply ki_nodes; [done|]. rewrite cons_middle, app_assoc.
      apply elem_of_app. by left. }
    apply submseteq_length in Hsub. rewrite length_app in Hsub.
    simpl in Hsub. lia.
  - destruct (reverse_graph_spec deps Hnd) as [Hg _]. rewrite Hg.
    apply IH.
    + by apply kahn_inv_step.
    + rewrite length_app. simpl. lia.
Qed.

(** [_calculate_startup_order] returns, and its result satisfies the
    invariant with an empty queue. *)
Lemma startup_order_total deps :
  NoDup deps.*1 →
  ∃ order in_degree,
    _calculate_startup_order deps = Some order
    ∧ kahn_inv deps order [] in_degree.
Proof.
  intros Hnd. unfold _calculate_startup_order.
  apply kahn_loop_spec; [done | by apply kahn_inv_init | simpl; lia].
Qed.

(** *** Finite graphs without sinks have cycles *)

Lemma tc_shortcut {A} (R : relation A) (x : A) a b :
  tc (λ a b, R a b ∨ (R a x ∧ R x b)) a b → tc R a b.
Proof.
  induction 1 as [a b [Hab|[Hax Hxb]]|a b c [Hab|[Hax Hxb]] _ IH].
  - by apply tc_once.
  - eapply tc_l; [done | by apply tc_once].
  - by eapply tc_l.
  - eapply tc_l; [done|]. by eapply tc_l.
Qed.

Lemma serial_cycle (R : relation string) (l : list string) :
  l ≠ [] →
  (∀ x, x ∈ l → ∃ y, y ∈ l ∧ R x y) →
  ∃ x, x ∈ l ∧ tc R x x.
Proof.
  remember (length l) as n eqn:Hn. revert R l Hn.
  induction n as [n IH] using lt_wf_ind. intros R l -> Hne Hser.
  destruct l as [|x l]; [done|]. clear Hne.
  destruct (Hser x) as (y & Hy & Hxy); [left|].
  destruct (decide (y = x)) as [->|Hyx].
  { exists x. split; [left | by apply tc_once]. }
  set (l' := filter (λ z, z ≠ x) l).
  assert (∀ z, z ∈ l' ↔ z ∈ x :: l ∧ z ≠ x) as Hl'.
  { intros z. unfold l'. rewrite list_elem_of_filter, elem_of_cons.
    naive_solver. }
  assert (length l' < length (x :: l)) as Hlt.
  { pose proof (length_filter (λ z, z ≠ x) l). unfold l'. simpl. lia. }
  destruct (IH (length l') Hlt (λ a b, R a b ∨ (R a x ∧ R x b)) l' eq_refl)
    as (z & Hz & Hcyc).
  - intros Hnil. assert (y ∈ l') as Hin by (by apply Hl').
    rewrite Hnil in Hin. by apply elem_of_nil in Hin.
  - intros a [Ha Hax]%Hl'. destruct (Hser a Ha) as (b & Hb & Hab).
    destruct (decide (b = x)) as [->|Hbx].
    + exists y. split; [by apply Hl' | by right].
    + exists b. split; [by apply Hl' | by left].
  - exists z. split; [by apply Hl' in Hz as [? _] | by eapply tc_shortcut].
Qed.

(** *** What the returned order satisfies *)

Lemma kahn_order_nodes deps order in_degree x :
  kahn_inv deps order [] in_degree → x ∈ order → x ∈ all_nodes deps.
Proof.
  intros Hinv Hx. eapply ki_nodes; [done|]. by rewrite app_nil_r.
Qed.

Lemma kahn_order_NoDup deps order in_degree :
  kahn_inv deps order [] in_degree → NoDup order.
Proof. intros Hinv. pose proof (ki_nodup _ _ _ _ Hinv) as Hnd.
  by rewrite app_nil_r in Hnd. Qed.

Lemma kahn_order_before deps order in_degree s t j :
  NoDup deps.*1 → kahn_inv deps order [] in_degree →
  tc (depends_on deps) s t → order !! j = Some s →
  ∃ i, i < j ∧ order !! i = Some t.
Proof.
  intros Hnd Hinv Hst. revert j.
  induction Hst as [s t Hst|s u t Hsu _ IH]; intros j Hj.
  - apply depends_on_deps_of in Hst; [|done]. by eapply ki_before.
  - apply depends_on_deps_of in Hsu; [|done].
    destruct (ki_before _ _ _ _ Hinv j s Hj u Hsu) as (i & Hi & Hu).
    destruct (IH i Hu) as (i' & Hi' & Ht). exists i'. split; [lia | done].
Qed.

(** Nodes on a cycle are never emitted. *)
Lemma kahn_order_no_cycle deps order in_degree x :
  NoDup deps.*1 → kahn_inv deps order [] in_degree →
  tc (depends_on deps) x x → x ∉ order.
Proof.
  intros Hnd Hinv Hcyc [j Hj]%list_elem_of_lookup.
  destruct (kahn_order_before _ _ _ _ _ _ Hnd Hinv Hcyc Hj) as (i & Hi & Hx).
  pose proof (NoDup_lookup _ _ _ _ (kahn_order_NoDup _ _ _ Hinv) Hj Hx). lia.
Qed.

(** Without cycles every node is emitted. *)
Lemma kahn_order_complete deps order in_degree x :
  NoDup deps.*1 → kahn_inv deps order [] in_degree → acyclic deps →
  x ∈ all_nodes deps → x ∈ order.
Proof.
  intros Hnd Hinv Hacyc Hx.
  destruct (decide (x ∈ order)) as [|Hno]; [done|]. exfalso.
  set (rest := filter (λ y, y ∉ order) (set_iter (all_nodes deps))).
  destruct (serial_cycle (depends_on deps) rest) as (z & _ & Hz).
  - intros Hnil. assert (x ∈ rest) as Hin.
    { apply list_elem_of_filter. split; [done | by apply set_iter_elem_2]. }
    rewrite Hnil in Hin. by apply elem_of_nil in Hin.
  - intros y [Hy Hnode%set_iter_elem_1]%list_elem_of_filter.
    destruct (filter (λ t, t ∉ order) (deps_of deps y)) as [|t l] eqn:E.
    + destruct Hy. rewrite <-(app_nil_r order).
      eapply ki_complete; [done | done |]. unfold pending. by rewrite E.
    + assert (t ∈ filter (λ t, t ∉ order) (deps_of deps y)) as Ht
        by (rewrite E; left).
      apply list_elem_of_filter in Ht as [Hto Ht].
      apply depends_on_deps_of in Ht; [|done]. exists t. split; [|done].
      apply list_elem_of_filter. split; [done|]. apply set_iter_elem_2.
      by apply depends_on_nodes in Ht as [_ ?].
  - by apply (Hacyc z).
Qed.

Lemma tc_depends_on_node deps x y :
  tc (depends_on deps) x y → x ∈ all_nodes deps.
Proof.
  intros Hxy. destruct Hxy as [x y Hxy|x y z Hxy _];
    by apply depends_on_nodes in Hxy as [? _].
Qed.

End Kahn.

(** ** Cycle detector *)

Section Dfs.
Context `{SetOrder}.
Implicit Types (deps : pydict pyset) (st : dfs_state).

Lemma dfs_post_refl st : dfs_post st st.
Proof. split; [done | done | done | exists []; by rewrite app_nil_r]. Qed.

Lemma dfs_post_trans st1 st2 st3 :
  dfs_post st1 st2 → dfs_post st2 st3 → dfs_post st1 st3.
Proof.
  intros [Hs1 Hp1 Hv1 [n1 Hc1]] [Hs2 Hp2 Hv2 [n2 Hc2]]. split.
  - congruence.
  - congruence.
  - set_solver.
  - exists (n1 ++ n2). by rewrite Hc2, Hc1, app_assoc.
Qed.

Lemma dfs_post_no_cycles st st' :
  dfs_post st st' → cycles st' = [] → cycles st = [].
Proof.
  intros [_ _ _ [new Hc]] Hnil. rewrite Hnil in Hc.
  symmetry in Hc. by apply app_eq_nil in Hc as [? _].
Qed.

Lemma unvisited_mono deps st st' :
  visited st ⊆ visited st' →
  length (unvisited deps st') ≤ length (unvisited deps st).
Proof.
  intros Hsub. unfold unvisited. apply submseteq_length, NoDup_submseteq.
  - apply NoDup_filter, set_iter_NoDup.
  - intros x [Hx Hin]%list_elem_of_filter. apply list_elem_of_filter.
    split; [set_solver | done].
Qed.

Lemma unvisited_enter deps st node cs rs p :
  node ∈ all_nodes deps → node ∉ visited st →
  length (unvisited deps (DfsState cs ({[node]} ∪ visited st) rs p))
  < length (unvisited deps st).
Proof.
  intros Hnode Hnew. unfold unvisited. simpl.
  rewrite (list_filter_iff (λ x, x ∉ {[node]} ∪ visited st)
                           (λ x, x ≠ node ∧ x ∉ visited st)) by set_solver.
  rewrite <-list_filter_filter.
  apply (length_filter_lt _ _ node); [|by intros []].
  apply list_elem_of_filter. split; [done | by apply set_iter_elem_2].
Qed.

(** *** Walks along dependency edges *)

Lemma chain_snoc (R : relation string) l b :
  chain R l → (∀ a, last l = Some a → R a b) → chain R (l ++ [b]).
Proof.
  intros Hl Hlast i x y Hx Hy.
  apply lookup_snoc_Some in Hy as [[Hlt Hy]|[Hi <-]].
  - apply lookup_snoc_Some in Hx as [[_ Hx]|[Hi _]]; [by eapply Hl | lia].
  - apply lookup_snoc_Some in Hx as [[_ Hx]|[Hi' _]]; [|lia].
    apply Hlast. by rewrite last_lookup, <-Hi.
Qed.

Lemma chain_drop (R : relation string) l n : chain R l → chain R (drop n l).
Proof.
  intros Hl i a b. rewrite !lookup_drop.
  replace (n + S i) with (S (n + i)) by lia. apply Hl.
Qed.

Lemma chain_tc (R : relation string) l i j a b :
  chain R l → l !! i = Some a → l !! j = Some b → i < j → tc R a b.
Proof.
  intros Hl Hi Hj Hlt. revert b Hj.
  induction Hlt as [|m Hle IH]; intros b Hj.
  - apply tc_once. by eapply Hl.
  - destruct (lookup_lt_is_Some_2 l m) as [c Hc].
    { apply lookup_lt_Some in Hj. lia. }
    eapply tc_r; [by apply IH | by eapply Hl].
Qed.

Lemma tc_closed {A} (R : relation A) (P : A → Prop) u v :
  (∀ a b, P a → R a b → P b) → tc R u v → P u → P v.
Proof. intros HP. induction 1; eauto. Qed.

(** Every node of a stored cycle lies on a cycle of the graph. *)
Lemma closed_walk_tc deps c x :
  closed_walk deps c → x ∈ c → tc (depends_on deps) x x.
Proof.
  intros [Hchain (node & mid & ->)] [k Hk]%list_elem_of_lookup.
  set (c := node :: mid ++ [node]) in *.
  assert (c !! 0 = Some node) as Hfirst by done.
  assert (c !! S (length mid) = Some node) as Hlast.
  { unfold c. simpl. apply lookup_snoc_Some. by right. }
  assert (k ≤ S (length mid)) as Hle.
  { apply lookup_lt_Some in Hk. unfold c in Hk. simpl in Hk.
    rewrite length_app in Hk. simpl in Hk. lia. }
  destruct (decide (k = S (length mid))) as [->|Hne].
  - assert (x = node) as -> by congruence.
    eapply (chain_tc _ c 0); eauto; lia.
  - assert (tc (depends_on deps) x node) as Hxn.
    { eapply (chain_tc _ c k); eauto; lia. }
    destruct k as [|k]; [congruence|].
    etrans; [exact Hxn|]. eapply (chain_tc _ c 0); eauto; lia.
Qed.

(** *** The traversal *)

Lemma snoc_match {A B} (l : list A) (x : A) (a b : B) :
  match l ++ [x] with [] => a | _ :: _ => b end = b.
Proof. by destruct l. Qed.

(** Reaching a node that is on the stack stores the path from its first
    occurrence on, followed by the node itself. *)
Lemma dfs_on_stack deps fuel node st i :
  node ∈ rec_stack st → list_index node (path st) = Some i →
  dfs (S fuel) deps node st
  = Ok (true, DfsState (cycles st ++ [drop i (path st) ++ [node]])
                       (visited st) (rec_stack st) (path st)).
Proof. intros Hin Hi. simpl. rewrite decide_True by done. by rewrite Hi. Qed.

Lemma dfs_each_spec deps (f : string → dfs_state → res (bool * dfs_state))
    (fuel : nat) :
  (∀ node st,
     dfs_inv deps st → call_ok deps st node →
     length (unvisited deps st) < fuel →
     ∃ b st', f node st = Ok (b, st') ∧ dfs_post st st' ∧ dfs_inv deps st'
              ∧ (cycles st' = [] →
                 node ∈ visited st' ∧ node ∉ rec_stack st')
              ∧ (node ∉ rec_stack st → node ∈ visited st')) →
  ∀ l st,
    dfs_inv deps st → (∀ w, w ∈ l → call_ok deps st w) →
    length (unvisited deps st) < fuel →
    ∃ st', dfs_each f l st = Ok st' ∧ dfs_post st st' ∧ dfs_inv deps st'
           ∧ (cycles st' = [] →
              ∀ w, w ∈ l → w ∈ visited st' ∧ w ∉ rec_stack st').
Proof.
  intros Hf. induction l as [|w l IH]; intros st Hinv Hok Hfuel; simpl.
  - exists st. split; [done|]. split; [apply dfs_post_refl|].
    split; [done|]. intros _ w Hw. by apply elem_of_nil in Hw.
  - destruct (Hf w st Hinv) as (b & st1 & -> & Hp1 & Hinv1 & Hw & _);
      [apply Hok; left | done |]. simpl.
    destruct (IH st1 Hinv1) as (st2 & -> & Hp2 & Hinv2 & Hl).
    + intros w' Hw'. destruct (Hok w') as [? Htop]; [by right|].
      split; [done|]. by rewrite (dp_path _ _ Hp1).
    + pose proof (unvisited_mono deps st st1 (dp_visited _ _ Hp1)). lia.
    + exists st2. split; [done|]. split; [by eapply dfs_post_trans|].
      split; [done|].
      intros Hnil w' [->|Hw']%elem_of_cons; [|by apply Hl].
      destruct Hw as [Hv Hs]; [by eapply dfs_post_no_cycles|]. split.
      * by apply (dp_visited _ _ Hp2).
      * by rewrite (dp_stack _ _ Hp2).
Qed.

Lemma dfs_inv_enter deps st node :
  dfs_inv deps st → call_ok deps st node → node ∉ visited st →
  dfs_inv deps (DfsState (cycles st) ({[node]} ∪ visited st)
                         ({[node]} ∪ rec_stack st) (path st ++ [node])).
Proof.
  intros Hinv [Hnode Htop] Hnew. split; simpl.
  - intros x. rewrite elem_of_union, elem_of_app, elem_of_singleton,
      list_elem_of_singleton, (di_stack _ _ Hinv). tauto.
  - apply chain_snoc; [apply Hinv | done].
  - intros x [->%elem_of_singleton|Hx]%elem_of_union;
      [done | by apply (di_nodes _ _ Hinv)].
  - apply Hinv.
  - intros Hnil u Hu Hus.
    assert (u ∈ visited st ∧ u ∉ rec_stack st) as [Hu' Hus'] by set_solver.
    destruct (di_closed _ _ Hinv Hnil u Hu' Hus') as [Hcl Hac].
    split; [|done]. intros w Hw. destruct (Hcl w Hw) as [Hwv Hws].
    split; [set_solver|]. intros [->%elem_of_singleton|?]%elem_of_union; done.
Qed.

Lemma dfs_spec deps fuel :
  NoDup deps.*1 →
  ∀ node st,
    dfs_inv deps st → call_ok deps st node →
    length (unvisited deps st) < fuel →
    ∃ b st', dfs fuel deps node st = Ok (b, st') ∧ dfs_post st st'
             ∧ dfs_inv deps st'
             ∧ (cycles st' = [] → node ∈ visited st' ∧ node ∉ rec_stack st')
             ∧ (node ∉ rec_stack st → node ∈ visited st').
Proof.
  intros Hnd.
  induction fuel as [|fuel IH]; intros node st Hinv Hok Hfuel; [lia|].
  cbn [dfs]. destruct (decide (node ∈ rec_stack st)) as [Hon|Hoff].
  - (* the node is on the current path: a cycle is recorded *)
    apply (di_stack _ _ Hinv) in Hon.
    destruct (list_index_is_Some _ _ Hon) as [i Hi]. rewrite Hi.
    apply list_index_lookup in Hi.
    eexists _, _. split; [done|].
    split; [split; simpl; [done | done | done | by eexists]|].
    split; [|split; [simpl; intros Hnil; by apply app_eq_nil in Hnil as [_ ?]
                    |intros []; by apply (di_stack _ _ Hinv)]].
    split; simpl; try apply Hinv.
    + intros c [Hc|Hc]%elem_of_app; [by apply (di_cycles _ _ Hinv)|].
      apply list_elem_of_singleton in Hc as ->. split.
      * apply chain_snoc; [apply chain_drop, Hinv|].
        intros top Htop. apply Hok. rewrite last_lookup in Htop |- *.
        rewrite lookup_drop, length_drop in Htop.
        apply lookup_lt_Some in Hi as Hlt.
        by replace (i + pred (length (path st) - i))
          with (pred (length (path st))) in Htop by lia.
      * exists node, (drop (S i) (path st)).
        by rewrite (drop_S _ _ _ Hi).
    + intros Hnil. by apply app_eq_nil in Hnil as [_ ?].
  - destruct (decide (node ∈ visited st)) as [Hvis|Hnew].
    + (* already explored *)
      exists false, st. split; [done|]. split; [apply dfs_post_refl|].
      split; [done|]. split; done.
    + (* a fresh node: explore its dependencies *)
      set (st1 := DfsState (cycles st) ({[node]} ∪ visited st)
                           ({[node]} ∪ rec_stack st) (path st ++ [node])).
      destruct (dfs_each_spec deps (dfs fuel deps) fuel IH
                  (set_iter (dict_get_set deps node)) st1)
        as (st2 & -> & Hp & Hinv2 & Hnb).
      { by apply dfs_inv_enter. }
      { intros w Hw. apply (depends_on_deps_of deps node w Hnd) in Hw.
        split; [by apply depends_on_nodes in Hw as [_ ?]|].
        simpl. rewrite last_snoc. by intros top [= <-]. }
      { pose proof (unvisited_enter deps st node (cycles st)
                      ({[node]} ∪ rec_stack st) (path st ++ [node])
                      (proj1 Hok) Hnew). fold st1 in H0. lia. }
      destruct Hp as [Hstack Hpath Hvisited [new Hcycles]]. simpl in *.
      assert (node ∈ rec_stack st2) as Hin by (rewrite Hstack; set_solver).
      rewrite decide_True by done. rewrite Hpath.
      rewrite snoc_match, removelast_last.
      assert (rec_stack st2 ∖ {[node]} = rec_stack st) as Hpop
        by (rewrite Hstack; set_solver).
      rewrite Hpop.
      eexists _, _. split; [done|].
      split; [split; simpl; [done | done | set_solver | by eexists]|].
      split; [|split; [simpl; intros _; split; [set_solver | done]
                      |simpl; intros _; set_solver]].
      split; simpl; try apply Hinv; try apply Hinv2.
      intros Hnil u Hu Hus. destruct (decide (u = node)) as [->|Hne].
      * assert (∀ w, depends_on deps node w →
                     w ∈ visited st2 ∧ w ∉ rec_stack st2) as Hsucc.
        { intros w Hw. apply Hnb; [done|].
          by apply (depends_on_deps_of deps node w Hnd). }
        split.
        -- intros w Hw. destruct (Hsucc w Hw) as [Hwv Hws].
           split; [done|]. rewrite Hstack in Hws. set_solver.
        -- intros Hcyc.
           assert (∃ w, depends_on deps node w
                        ∧ (w = node ∨ tc (depends_on deps) w node))
             as (w & Hw & Hrest).
           { inversion Hcyc; subst; eauto. }
           destruct (Hsucc w Hw) as [Hwv Hws].
           destruct Hrest as [->|Hrest]; [done|].
           assert (node ∈ visited st2 ∧ node ∉ rec_stack st2) as [_ ?];
             [|done].
           eapply (tc_closed _ (λ a, a ∈ visited st2 ∧ a ∉ rec_stack st2));
             [|exact Hrest|done].
           intros a b [Ha Has] Hab.
           by apply (di_closed _ _ Hinv2 Hnil a Ha Has).
      * assert (u ∉ rec_stack st2) as Hus' by (rewrite Hstack; set_solver).
        destruct (di_closed _ _ Hinv2 Hnil u Hu Hus') as [Hcl Hac].
        split; [|done]. intros w Hw. destruct (Hcl w Hw) as [Hwv Hws].
        split; [done|]. rewrite Hstack in Hws. set_solver.
Qed.

Lemma dfs_roots_spec deps fuel keys st :
  NoDup deps.*1 →
  dfs_inv deps st → path st = [] →
  (∀ k, k ∈ keys → k ∈ all_nodes deps) →
  length (unvisited deps st) < fuel →
  ∃ st', dfs_roots fuel deps keys st = Ok st' ∧ dfs_post st st'
         ∧ dfs_inv deps st' ∧ ∀ k, k ∈ keys → k ∈ visited st'.
Proof.
  intros Hnd. revert st.
  induction keys as [|k keys IH]; intros st Hinv Hpath Hkeys Hfuel; simpl.
  - exists st. split; [done|]. split; [apply dfs_post_refl|].
    split; [done|]. intros k Hk. by apply elem_of_nil in Hk.
  - destruct (decide (k ∈ visited st)) as [Hk|Hk].
    + destruct (IH st Hinv Hpath) as (st' & -> & Hp & Hinv' & Hvis);
        [intros; apply Hkeys; by right | done |].
      exists st'. split; [done|]. split; [done|]. split; [done|].
      intros k' [->|?]%elem_of_cons; [|by apply Hvis].
      by apply (dp_visited _ _ Hp).
    + destruct (dfs_spec deps fuel Hnd k st Hinv)
        as (b & st1 & -> & Hp1 & Hinv1 & _ & Hk1); [|done|].
      { split; [apply Hkeys; left|]. by rewrite Hpath. }
      simpl. destruct (IH st1 Hinv1) as (st' & -> & Hp & Hinv' & Hvis).
      * by rewrite (dp_path _ _ Hp1).
      * intros; apply Hkeys; by right.
      * pose proof (unvisited_mono deps st st1 (dp_visited _ _ Hp1)). lia.
      * exists st'. split; [done|]. split; [by eapply dfs_post_trans|].
        split; [done|]. intros k' [->|?]%elem_of_cons; [|by apply Hvis].
        apply (dp_visited _ _ Hp), Hk1.
        rewrite (di_stack _ _ Hinv), Hpath. apply not_elem_of_nil.
Qed.

Lemma dfs_inv_init deps : dfs_inv deps (DfsState [] ∅ ∅ []).
Proof.
  split; simpl.
  - intros x. split; [by intros ?%not_elem_of_empty | by intros ?%elem_of_nil].
  - by intros i a b ?.
  - by intros x ?%not_elem_of_empty.
  - by intros c ?%elem_of_nil.
  - by intros _ u ?%not_elem_of_empty.
Qed.

(** [_detect_cycles] returns; what it stores are closed walks of the graph,
    and it stores at least one whenever the graph has a cycle. *)
Lemma detect_cycles_spec deps :
  NoDup deps.*1 →
  ∃ cs, _detect_cycles deps = Ok cs
        ∧ (∀ c, c ∈ cs → closed_walk deps c)
        ∧ (cyclic deps → cs ≠ []).
Proof.
  intros Hnd. unfold _detect_cycles.
  destruct (dfs_roots_spec deps (dfs_fuel deps) deps.*1 (DfsState [] ∅ ∅ [])
              Hnd (dfs_inv_init deps) eq_refl)
    as (st & -> & Hp & Hinv & Hvis).
  { intros k Hk. apply all_nodes_elem. by left. }
  { unfold dfs_fuel, set_len, unvisited.
    apply Nat.lt_succ_r, length_filter. }
  simpl. exists (cycles st). split; [done|]. split; [apply Hinv|].
  intros [x Hx] Hnil.
  assert (x ∈ deps.*1) as Hkey.
  { assert (∃ y, depends_on deps x y) as (y & ts & Hin & _)
      by (inversion Hx; subst; eauto).
    by apply (list_elem_of_fmap_2 fst) in Hin. }
  destruct (di_closed _ _ Hinv Hnil x) as [_ Hac]; [by apply Hvis| |done].
  rewrite (dp_stack _ _ Hp). simpl. apply not_elem_of_empty.
Qed.

End Dfs.

(** *** Independence of the set order *)

(** A set with at most one element is enumerated in one way only. *)
Lemma set_iter_small `{SetOrder} (s : list string) :
  length s ≤ 1 → set_iter s = s.
Proof.
  destruct s as [|x [|y s]]; simpl; [|intros _|lia].
  - intros _. apply set_iter_nil.
  - apply Permutation_singleton_r, NoDup_Permutation;
      [apply set_iter_NoDup | apply NoDup_singleton | apply set_iter_elem].
Qed.

Lemma dfs_each_ext (f g : string → dfs_state → res (bool * dfs_state)) l st :
  (∀ node st, f node st = g node st) → dfs_each f l st = dfs_each g l st.
Proof.
  intros Hfg. revert st. induction l as [|n l IH]; intros st; simpl; [done|].
  rewrite Hfg. destruct (g n st) as [[b st']| |]; simpl; auto.
Qed.

(** The traversal depends on the set order only through the enumeration of
    the dependency sets. *)
Lemma dfs_ext (O1 O2 : SetOrder) deps :
  (∀ node, @set_iter O1 (dict_get_set deps node)
           = @set_iter O2 (dict_get_set deps node)) →
  ∀ fuel node st, @dfs O1 fuel deps node st = @dfs O2 fuel deps node st.
Proof.
  intros Hiter. induction fuel as [|fuel IH]; intros node st; simpl; [done|].
  repeat case_decide; try done.
  rewrite Hiter. by rewrite (dfs_each_ext _ _ _ _ IH).
Qed.

Lemma set_len_ext (O1 O2 : SetOrder) s : @set_len O1 s = @set_len O2 s.
Proof.
  unfold set_len. apply Permutation_length, NoDup_Permutation;
    [apply set_iter_NoDup | apply set_iter_NoDup |].
  intros x. by rewrite !set_iter_elem.
Qed.

Lemma detect_cycles_ext (O1 O2 : SetOrder) deps :
  (∀ ts, ts ∈ deps.*2 → @set_iter O1 ts = @set_iter O2 ts) →
  @_detect_cycles O1 deps = @_detect_cycles O2 deps.
Proof.
  intros Hiter.
  assert (∀ node, @set_iter O1 (dict_get_set deps node)
                  = @set_iter O2 (dict_get_set deps node)) as Hnode.
  { intros node. unfold dict_get_set.
    destruct (dict_get deps node) as [ts|] eqn:E; simpl.
    - apply Hiter. apply dict_get_Some_elem in E.
      by apply (list_elem_of_fmap_2 snd) in E.
    - by rewrite !set_iter_small by (simpl; lia). }
  unfold _detect_cycles, dfs_fuel.
  assert (@all_nodes O1 deps = @all_nodes O2 deps) as ->.
  { unfold all_nodes. f_equal. f_equal.
    apply Forall_fmap_ext_1, Forall_forall. intros ts Hts. by apply Hiter. }
  rewrite (set_len_ext O1 O2). generalize (S (@set_len O2 (@all_nodes O2 deps))).
  intros fuel. generalize (DfsState [] ∅ ∅ []).
  induction deps.*1 as [|k keys IH]; intros st; simpl; [done|].
  case_decide; [apply IH|]. rewrite (dfs_ext O1 O2 deps Hnode).
  destruct (dfs fuel deps k st) as [[b st']| |]; simpl; [apply IH|done|done].
Qed.

(** When every dependency set has at most one element, the detector's result
    is the one computed with [insertion_order]. *)
Lemma detect_cycles_small `{SetOrder} deps :
  Forall (λ ts : list string, length ts ≤ 1) deps.*2 →
  _detect_cycles deps = @_detect_cycles insertion_order deps.
Proof.
  intros Hsmall. apply detect_cycles_ext. intros ts Hts.
  rewrite Forall_forall in Hsmall. by rewrite !set_iter_small by auto.
Qed.

(** ** The detector within a recursion limit *)

Section Limit.
Context `{SetOrder}.

Lemma dfs_each_stable (f g : string → dfs_state → res (bool * dfs_state)) l :
  (∀ node st, f node st ≠ OutOfFuel → g node st = f node st) →
  ∀ st, dfs_each f l st ≠ OutOfFuel → dfs_each g l st = dfs_each f l st.
Proof.
  intros Hfg. induction l as [|n l IH]; intros st; simpl; [done|].
  intros Hne. rewrite Hfg.
  - destruct (f n st) as [[b st1]| |]; simpl in *; [by apply IH|done..].
  - intros Hf. by rewrite Hf in Hne.
Qed.

(** A call that returns or raises with [fuel] frames does the same with
    more. *)
Lemma dfs_stable deps fuel fuel' node st :
  fuel ≤ fuel' → dfs fuel deps node st ≠ OutOfFuel →
  dfs fuel' deps node st = dfs fuel deps node st.
Proof.
  revert fuel' node st.
  induction fuel as [|fuel IH]; intros fuel' node st Hle; simpl; [done|].
  destruct fuel' as [|fuel']; [lia|]. simpl.
  case_decide; [done|]. case_decide; [done|].
  intros Hne.
  rewrite (dfs_each_stable (dfs fuel deps) (dfs fuel' deps)); [done| |].
  - intros n st' Hn. apply IH; [lia | done].
  - intros Heach. by rewrite Heach in Hne.
Qed.

Lemma dfs_roots_stable deps fuel fuel' keys :
  fuel ≤ fuel' →
  ∀ st, dfs_roots fuel deps keys st ≠ OutOfFuel →
        dfs_roots fuel' deps keys st = dfs_roots fuel deps keys st.
Proof.
  intros Hle. induction keys as [|k keys IH]; intros st; simpl; [done|].
  case_decide; [apply IH|]. intros Hne.
  rewrite (dfs_stable deps fuel fuel') by
    (done || (intros Hk; by rewrite Hk in Hne)).
  destruct (dfs fuel deps k st) as [[b st1]| |]; simpl in *; [by apply IH|done..].
Qed.

Lemma detect_cycles_within_stable deps depth depth' :
  depth ≤ depth' → _detect_cycles_within depth deps ≠ RecursionError →
  _detect_cycles_within depth' deps = _detect_cycles_within depth deps.
Proof.
  unfold _detect_cycles_within, RecursionError. intros Hle Hne.
  rewrite (dfs_roots_stable deps depth depth'); [done..|].
  intros Hr. by rewrite Hr in Hne.
Qed.

(** With more frames than nodes the limit is not reached. *)
Lemma detect_cycles_within_enough deps depth :
  NoDup deps.*1 → set_len (all_nodes deps) < depth →
  _detect_cycles_within depth deps = _detect_cycles deps.
Proof.
  intros Hnd Hdepth.
  destruct (detect_cycles_spec deps Hnd) as (cs & Hcs & _).
  change (_detect_cycles deps)
    with (_detect_cycles_within (dfs_fuel deps) deps) in *.
  apply detect_cycles_within_stable; [unfold dfs_fuel; lia|].
  by rewrite Hcs.
Qed.

(** Whatever the limit, the traversal runs out of frames or does what it
    does without a limit. *)
Lemma detect_cycles_within_cases deps depth :
  NoDup deps.*1 →
  _detect_cycles_within depth deps = RecursionError
  ∨ _detect_cycles_within depth deps = _detect_cycles deps.
Proof.
  intros Hnd.
  destruct (decide (set_len (all_nodes deps) < depth)) as [Hlt|Hge].
  { right. by apply detect_cycles_within_enough. }
  destruct (_detect_cycles_within depth deps) as [cs| e |] eqn:Hw;
    [right | right | by left].
  - rewrite <- Hw. symmetry.
    apply (detect_cycles_within_stable deps depth (dfs_fuel deps));
      [unfold dfs_fuel; lia | by rewrite Hw].
  - rewrite <- Hw. symmetry.
    apply (detect_cycles_within_stable deps depth (dfs_fuel deps));
      [unfold dfs_fuel; lia | by rewrite Hw].
Qed.

End Limit.

Lemma node_name_inj : Inj (=) (=) node_name.
Proof.
  intros i j Hij. unfold node_name in Hij. simpl in Hij.
  injection Hij as Hij. by apply (inj pretty).
Qed.

Lemma deep_chain_keys k : (deep_chain k).*1 = node_name <$> seq 0 (S k).
Proof.
  unfold deep_chain. rewrite fmap_app, <- list_fmap_compose, seq_S, fmap_app.
  done.
Qed.

Lemma deep_chain_NoDup k : NoDup (deep_chain k).*1.
Proof.
  rewrite deep_chain_keys. apply NoDup_fmap_2; [apply node_name_inj|].
  apply NoDup_seq.
Qed.

Lemma deep_chain_get k i :
  i < k → dict_get (deep_chain k) (node_name i) = Some [node_name (S i)].
Proof.
  intros Hi. apply dict_get_elem; [apply deep_chain_NoDup|].
  unfold deep_chain. apply elem_of_app. left.
  apply list_elem_of_fmap. exists i. split; [done|].
  apply elem_of_seq. lia.
Qed.

Lemma deep_chain_get_last k :
  dict_get (deep_chain k) (node_name k) = Some [node_name (k - 1)].
Proof.
  apply dict_get_elem; [apply deep_chain_NoDup|].
  unfold deep_chain. apply elem_of_app. right. left.
Qed.

Section DeepChain.
Context `{SetOrder}.

(** On the chain the traversal takes a frame for each node: started at
    n[i] with no more frames than nodes ahead, it runs out of them. *)
Lemma deep_chain_dfs k fuel :
  ∀ i st,
    i + fuel ≤ k →
    (∀ x, x ∈ visited st ∨ x ∈ rec_stack st →
          ∃ j, j < i ∧ x = node_name j) →
    dfs fuel (deep_chain k) (node_name i) st = OutOfFuel.
Proof.
  induction fuel as [|fuel IH]; intros i st Hfuel Hseen; [done|].
  simpl.
  assert (∀ x, x ∈ visited st ∨ x ∈ rec_stack st → x ≠ node_name i) as Hnew.
  { intros x Hx ->. destruct (Hseen _ Hx) as (j & Hj & Heq).
    apply node_name_inj in Heq. lia. }
  rewrite decide_False by (intros Hin; by eapply Hnew; [right|]).
  rewrite decide_False by (intros Hin; by eapply Hnew; [left|]).
  unfold dict_get_set. rewrite deep_chain_get by lia. simpl.
  rewrite set_iter_small by (simpl; lia). simpl.
  rewrite IH; [done | lia |].
  simpl. intros x Hx. rewrite !elem_of_union, !elem_of_singleton in Hx.
  destruct (decide (x = node_name i)) as [->|Hne]; [exists i; split; [lia|done]|].
  destruct (Hseen x) as (j & Hj & ->); [tauto|].
  exists j. split; [lia | done].
Qed.

Lemma deep_chain_exhausts k depth :
  depth ≤ k → _detect_cycles_within depth (deep_chain k) = RecursionError.
Proof.
  intros Hdepth. unfold _detect_cycles_within.
  rewrite deep_chain_keys. simpl.
  rewrite decide_False by apply not_elem_of_empty.
  rewrite (deep_chain_dfs k depth 0); [done | lia |].
  simpl. intros x [Hx|Hx]; by apply not_elem_of_empty in Hx.
Qed.

End DeepChain.


(** ** Graph builder *)

Section Builder.
Context `{SetOrder}.
Implicit Types (d t : pydict pyset) (m : Mapper).

Lemma dd_update_keys k vs d x : x ∈ (dd_update k vs d).*1 ↔ x ∈ d.*1 ∨ x = k.
Proof.
  induction d as [|[k' s] d IH]; simpl.
  - rewrite list_elem_of_singleton, elem_of_nil. tauto.
  - case_decide as Hk; simpl; rewrite !elem_of_cons.
    + subst. tauto.
    + rewrite IH. tauto.
Qed.

Lemma dd_update_NoDup k vs d : NoDup d.*1 → NoDup (dd_update k vs d).*1.
Proof.
  induction d as [|[k' s] d IH]; simpl.
  - intros _. apply NoDup_singleton.
  - intros [Hk Hd]%NoDup_cons. case_decide; simpl.
    + by apply NoDup_cons.
    + apply NoDup_cons. split; [|auto]. rewrite dd_update_keys.
      intros [?|?]; simpl in *; [done | by subst].
Qed.

Lemma dd_update_depends k vs d s x :
  depends_on (dd_update k vs d) s x ↔ depends_on d s x ∨ (s = k ∧ x ∈ vs).
Proof.
  unfold depends_on. induction d as [|[k' ts] d IH]; simpl.
  - split.
    + intros (ts & [= -> ->]%list_elem_of_singleton & Hx). by right.
    + intros [(ts & ?%elem_of_nil & _)|[-> Hx]]; [done|].
      exists vs. split; [left | done].
  - case_decide as Hk.
    + subst k'. split.
      * intros (ts' & [[= -> ->]|Hin]%elem_of_cons & Hx).
        -- apply elem_of_app in Hx as [Hx|Hx]; [left | by right].
           exists ts. split; [left | done].
        -- left. exists ts'. split; [by right | done].
      * intros [(ts' & [[= -> ->]|Hin]%elem_of_cons & Hx)|[-> Hx]].
        -- exists (ts ++ vs). split; [left | apply elem_of_app; by left].
        -- exists ts'. split; [by right | done].
        -- exists (ts ++ vs). split; [left | apply elem_of_app; by right].
    + split.
      * intros (ts' & [[= -> ->]|Hin]%elem_of_cons & Hx).
        -- left. exists ts. split; [left | done].
        -- destruct (proj1 IH) as [(ts'' & ? & ?)|?]; [by eauto | | by right].
           left. exists ts''. split; [by right | done].
      * intros [(ts' & [[= -> ->]|Hin]%elem_of_cons & Hx)|Hnew].
        -- exists ts. split; [left | done].
        -- destruct (proj2 IH) as (ts'' & ? & ?); [left; by eauto|].
           exists ts''. split; [by right | done].
        -- destruct (proj2 IH) as (ts'' & ? & ?); [by right|].
           exists ts''. split; [by right | done].
Qed.

Lemma dd_add_populated k v d : populated d → populated (dd_add k v d).
Proof.
  intros Hd k' Hk'. unfold dd_add in *. apply dd_update_keys in Hk'.
  destruct (decide (k' = k)) as [->|Hne].
  - exists v. apply dd_update_depends. right. split; [done | left].
  - destruct Hk' as [Hk'|?]; [|done]. destruct (Hd k' Hk') as [x Hx].
    exists x. apply dd_update_depends. by left.
Qed.

(** *** Merging the trackers *)

Lemma merge_tracker_keys acc t x :
  x ∈ (merge_tracker acc t).*1 ↔ x ∈ acc.*1 ∨ x ∈ t.*1.
Proof.
  unfold merge_tracker. revert acc.
  induction t as [|[k ts] t IH]; intros acc; simpl.
  - rewrite elem_of_nil. tauto.
  - rewrite IH, dd_update_keys, elem_of_cons. tauto.
Qed.

Lemma merge_tracker_NoDup acc t :
  NoDup acc.*1 → NoDup (merge_tracker acc t).*1.
Proof.
  unfold merge_tracker. revert acc.
  induction t as [|[k ts] t IH]; intros acc Hacc; simpl; [done|].
  by apply IH, dd_update_NoDup.
Qed.

Lemma depends_on_cons k ts d s x :
  depends_on ((k, ts) :: d) s x ↔ (s = k ∧ x ∈ ts) ∨ depends_on d s x.
Proof.
  unfold depends_on. split.
  - intros (ts' & [[= -> ->]|Hin]%elem_of_cons & Hx); [by left|].
    right. eauto.
  - intros [[-> Hx]|(ts' & Hin & Hx)].
    + exists ts. split; [left | done].
    + exists ts'. split; [by right | done].
Qed.

Lemma merge_tracker_depends acc t s x :
  depends_on (merge_tracker acc t) s x
  ↔ depends_on acc s x ∨ depends_on t s x.
Proof.
  unfold merge_tracker. revert acc.
  induction t as [|[k ts] t IH]; intros acc; simpl.
  - split; [by left|]. intros [?|(? & ?%elem_of_nil & _)]; done.
  - rewrite IH, dd_update_depends, depends_on_cons, set_iter_elem. tauto.
Qed.

Lemma all_dependencies_NoDup m : NoDup (all_dependencies m).*1.
Proof.
  unfold all_dependencies. repeat apply merge_tracker_NoDup. constructor.
Qed.

Lemma depends_on_nil s x : ¬ depends_on [] s x.
Proof. by intros (? & ?%elem_of_nil & _). Qed.

Lemma all_dependencies_depends m s x :
  depends_on (all_dependencies m) s x
  ↔ depends_on (container_dependencies m) s x
    ∨ depends_on (network_dependencies m) s x
    ∨ depends_on (volume_dependencies m) s x
    ∨ depends_on (compose_dependencies m) s x.
Proof.
  unfold all_dependencies. rewrite !merge_tracker_depends.
  pose proof (depends_on_nil s x). tauto.
Qed.

Lemma all_dependencies_keys m x :
  x ∈ (all_dependencies m).*1
  ↔ x ∈ (container_dependencies m).*1 ∨ x ∈ (network_dependencies m).*1
    ∨ x ∈ (volume_dependencies m).*1 ∨ x ∈ (compose_dependencies m).*1.
Proof.
  unfold all_dependencies. rewrite !merge_tracker_keys. simpl.
  rewrite elem_of_nil. tauto.
Qed.

(** *** The trackers after the analysers have run *)

Lemma record_fact_tracker m f k :
  tracker_of (record_fact m f) k
  = if decide (k = kind f)
    then dd_add (source f) (target f) (tracker_of m k)
    else tracker_of m k.
Proof. unfold record_fact. by destruct (kind f), k. Qed.

Lemma record_fact_containers m f : containers (record_fact m f) = containers m.
Proof. unfold record_fact. by destruct (kind f). Qed.

Lemma foldl_record_containers m facts :
  containers (foldl record_fact m facts) = containers m.
Proof.
  revert m. induction facts as [|f facts IH]; intros m; simpl; [done|].
  by rewrite IH, record_fact_containers.
Qed.

Lemma foldl_record_depends m facts k s x :
  depends_on (tracker_of (foldl record_fact m facts) k) s x
  ↔ depends_on (tracker_of m k) s x
    ∨ ∃ f, f ∈ facts ∧ kind f = k ∧ source f = s ∧ target f = x.
Proof.
  revert m. induction facts as [|f facts IH]; intros m; simpl.
  - split; [by left|]. intros [?|(? & ?%elem_of_nil & _)]; done.
  - rewrite IH, record_fact_tracker. case_decide as Hk.
    + unfold dd_add. rewrite dd_update_depends, list_elem_of_singleton.
      split.
      * intros [[?|[-> ->]]|(f' & ? & ?)]; [by left | right | right].
        -- exists f. split; [left | done].
        -- exists f'. split; [by right | done].
      * intros [?|(f' & [->|?]%elem_of_cons & Hf)]; [by left; left | | ].
        -- left. right. by destruct Hf as (_ & -> & ->).
        -- right. by exists f'.
    + split.
      * intros [?|(f' & ? & ?)]; [by left | right].
        exists f'. split; [by right | done].
      * intros [?|(f' & [->|?]%elem_of_cons & Hf)]; [by left | | ].
        -- by destruct Hf as (<- & _).
        -- right. by exists f'.
Qed.

Lemma foldl_record_NoDup m facts k :
  NoDup (tracker_of m k).*1 →
  NoDup (tracker_of (foldl record_fact m facts) k).*1.
Proof.
  revert m. induction facts as [|f facts IH]; intros m Hm; simpl; [done|].
  apply IH. rewrite record_fact_tracker. case_decide; [|done].
  by apply dd_update_NoDup.
Qed.

Lemma foldl_record_populated m facts k :
  populated (tracker_of m k) →
  populated (tracker_of (foldl record_fact m facts) k).
Proof.
  revert m. induction facts as [|f facts IH]; intros m Hm; simpl; [done|].
  apply IH. rewrite record_fact_tracker. case_decide; [|done].
  by apply dd_add_populated.
Qed.

Lemma foldl_register_tracker m inventory k :
  tracker_of (foldl register_container m inventory) k = tracker_of m k.
Proof.
  revert m. induction inventory as [|c inv IH]; intros m; simpl; [done|].
  rewrite IH. by destruct k.
Qed.

Lemma foldl_register_NoDup m inventory :
  NoDup (containers m) →
  NoDup (containers (foldl register_container m inventory)).
Proof.
  revert m. induction inventory as [|c inv IH]; intros m Hm; simpl; [done|].
  apply IH. simpl. case_decide; [done|].
  apply NoDup_app. split; [done|]. split; [|apply NoDup_singleton].
  intros x Hx ->%list_elem_of_singleton. done.
Qed.

Lemma analysed_containers_NoDup inventory facts :
  NoDup (containers (analysed inventory facts)).
Proof.
  unfold analysed. rewrite foldl_record_containers.
  apply foldl_register_NoDup. constructor.
Qed.

Lemma analysed_tracker_depends inventory facts k s x :
  depends_on (tracker_of (analysed inventory facts) k) s x
  ↔ ∃ f, f ∈ facts ∧ kind f = k ∧ source f = s ∧ target f = x.
Proof.
  unfold analysed. rewrite foldl_record_depends, foldl_register_tracker.
  split; [|by right]. intros [Hnil|?]; [|done].
  destruct k; by apply depends_on_nil in Hnil.
Qed.

Lemma analysed_tracker_populated inventory facts k :
  populated (tracker_of (analysed inventory facts) k).
Proof.
  unfold analysed. apply foldl_record_populated.
  rewrite foldl_register_tracker. intros x Hx.
  destruct k; by apply elem_of_nil in Hx.
Qed.

Lemma analysed_tracker_NoDup inventory facts k :
  NoDup (tracker_of (analysed inventory facts) k).*1.
Proof.
  unfold analysed. apply foldl_record_NoDup.
  rewrite foldl_register_tracker. destruct k; constructor.
Qed.

Lemma analysed_depends inventory facts s x :
  depends_on (all_dependencies (analysed inventory facts)) s x
  ↔ ∃ f, f ∈ facts ∧ source f = s ∧ target f = x.
Proof.
  rewrite all_dependencies_depends.
  pose proof (analysed_tracker_depends inventory facts) as Hk. split.
  - intros [Hd|[Hd|[Hd|Hd]]];
      [apply (Hk ContainerDep) in Hd | apply (Hk NetworkDep) in Hd
       | apply (Hk VolumeDep) in Hd | apply (Hk ComposeDep) in Hd];
      destruct Hd as (f & ? & _ & ? & ?); eauto.
  - intros (f & Hf & Hs & Ht).
    pose proof (proj2 (Hk (kind f) s x)) as Hd.
    destruct (kind f) eqn:E; simpl in Hd;
      [left | right; left | right; right; left | right; right; right];
      apply Hd; exists f; by rewrite E.
Qed.

Lemma analysed_keys inventory facts x :
  x ∈ (all_dependencies (analysed inventory facts)).*1
  ↔ ∃ f, f ∈ facts ∧ source f = x.
Proof.
  split.
  - intros Hx. apply all_dependencies_keys in Hx.
    assert (∃ k y, depends_on (tracker_of (analysed inventory facts) k) x y)
      as (k & y & Hd).
    { destruct Hx as [Hx|[Hx|[Hx|Hx]]];
        [exists ContainerDep | exists NetworkDep
         | exists VolumeDep | exists ComposeDep];
        by apply (analysed_tracker_populated inventory facts _ x). }
    apply analysed_tracker_depends in Hd as (f & ? & _ & ? & _). eauto.
  - intros (f & Hf & <-).
    assert (depends_on (all_dependencies (analysed inventory facts))
                       (source f) (target f)) as (ts & Hin & _).
    { apply analysed_depends. eauto. }
    by apply (list_elem_of_fmap_2 fst) in Hin.
Qed.

(** *** Nodes and edges *)

Lemma graph_edges_elem d e :
  e ∈ graph_edges d
  ↔ ∃ s x, depends_on d s x ∧ e = Edge s x "depends_on".
Proof.
  unfold graph_edges. rewrite elem_of_concat. split.
  - intros (l & He & Hl). apply list_elem_of_fmap in Hl as ([s ts] & -> & Hin).
    apply list_elem_of_fmap in He as (x & -> & Hx%set_iter_elem_1).
    exists s, x. split; [|done]. by exists ts.
  - intros (s & x & (ts & Hin & Hx) & ->).
    exists ((λ target, Edge s target "depends_on") <$> set_iter ts). split.
    + apply list_elem_of_fmap. exists x. split; [done|].
      by apply set_iter_elem_2.
    + apply list_elem_of_fmap. by exists (s, ts).
Qed.

Lemma graph_edges_NoDup d : NoDup d.*1 → NoDup (graph_edges d).
Proof.
  unfold graph_edges. induction d as [|[s ts] d IH]; simpl; [constructor|].
  intros [Hs Hd]%NoDup_cons. apply NoDup_app. split; [|split; [|auto]].
  - apply NoDup_fmap_2; [|apply set_iter_NoDup]. by intros x y [= ->].
  - intros e (x & -> & _)%list_elem_of_fmap He.
    apply (graph_edges_elem d) in He as (s' & x' & (ts' & Hin & _) & [= <- _]).
    apply Hs. by apply (list_elem_of_fmap_2 fst) in Hin.
Qed.

Lemma foldl_register_elem m inventory x :
  x ∈ containers (foldl register_container m inventory)
  ↔ x ∈ containers m ∨ x ∈ inventory.
Proof.
  revert m. induction inventory as [|c inventory IH]; intros m; simpl.
  - rewrite elem_of_nil. tauto.
  - rewrite IH, elem_of_cons. simpl. case_decide.
    + naive_solver.
    + rewrite elem_of_app, list_elem_of_singleton. tauto.
Qed.

Lemma analysed_containers_elem inventory facts x :
  x ∈ containers (analysed inventory facts) ↔ x ∈ inventory.
Proof.
  unfold analysed. rewrite foldl_record_containers, foldl_register_elem.
  simpl. rewrite elem_of_nil. tauto.
Qed.

End Builder.

(** ** The graph, the cycles and the startup order *)

Section Graph.
Context `{SetOrder}.
Implicit Types (deps : pydict pyset) (m : Mapper).

Lemma build_dependency_graph_total m :
  ∃ g, build_dependency_graph m = Ok g
       ∧ dg_nodes g = set_iter (all_nodes (all_dependencies m))
       ∧ dg_edges g = graph_edges (all_dependencies m)
       ∧ _detect_cycles (all_dependencies m) = Ok (dg_cycles g)
       ∧ _calculate_startup_order (all_dependencies m)
         = Some (dg_startup_order g).
Proof.
  unfold build_dependency_graph.
  destruct (detect_cycles_spec _ (all_dependencies_NoDup m)) as (cs & -> & _).
  destruct (startup_order_total _ (all_dependencies_NoDup m))
    as (order & d & -> & _).
  simpl. eexists. split; [done|]. by simpl.
Qed.

Lemma acyclic_ranked deps (rank : string → nat) :
  Forall (λ item : string * list string,
            Forall (λ t, rank t < rank item.1) item.2) deps →
  acyclic deps.
Proof.
  intros Hrank x Hx.
  assert (∀ a b, tc (depends_on deps) a b → rank b < rank a) as Hlt.
  { induction 1 as [a b (ts & Hin & Hb)|a b c (ts & Hin & Hb) _ IH].
    - rewrite Forall_forall in Hrank. specialize (Hrank _ Hin).
      rewrite Forall_forall in Hrank. by apply Hrank.
    - rewrite Forall_forall in Hrank. specialize (Hrank _ Hin).
      rewrite Forall_forall in Hrank. specialize (Hrank _ Hb). simpl in *.
      lia. }
  specialize (Hlt x x Hx). lia.
Qed.

Lemma depends_on_get deps s ts t :
  dict_get deps s = Some ts → t ∈ ts → depends_on deps s t.
Proof. intros Hs Ht. exists ts. split; [by apply dict_get_Some_elem | done]. Qed.

Lemma built_edges_are_facts (inventory : list string)
    (facts : list fact) :
  ∃ g,
    build_dependency_graph (analysed inventory facts) = Ok g
    ∧ ∀ e, e ∈ dg_edges g
           ↔ ∃ f, f ∈ facts ∧ e = Edge (source f) (target f) "depends_on".
Proof.
  destruct (build_dependency_graph_total (analysed inventory facts))
    as (g & Hg & _ & Hedges & _).
  exists g. split; [done|]. rewrite Hedges.
  intros e. rewrite graph_edges_elem. split.
  - intros (s & x & (f & Hf & <- & <-)%analysed_depends & ->). eauto.
  - intros (f & Hf & ->). exists (source f), (target f).
    split; [|done]. apply analysed_depends. eauto.
Qed.

(** C1. On an acyclic dependency map [_calculate_startup_order] returns an
    order with as many entries as the graph has nodes, in which the target
    of every edge has a smaller index than its source. *)
Theorem startup_order_respects_dependencies deps :
  NoDup deps.*1 → acyclic deps →
  ∃ order,
    _calculate_startup_order deps = Some order
    ∧ length order = set_len (all_nodes deps)
    ∧ ∀ source target,
        depends_on deps source target →
        ∃ i j, list_index target order = Some i
               ∧ list_index source order = Some j ∧ i < j.
Proof.
  intros Hnd Hacyc.
  destruct (startup_order_total deps Hnd) as (order & d & Hrun & Hinv).
  exists order. split; [done|].
  pose proof (kahn_order_NoDup _ _ _ Hinv) as Hnodup. split.
  - unfold set_len. apply Permutation_length, NoDup_Permutation;
      [done | apply set_iter_NoDup |].
    intros x. rewrite set_iter_elem. split.
    + by eapply kahn_order_nodes.
    + by eapply kahn_order_complete.
  - intros s t Hst.
    assert (s ∈ order) as [j Hj]%list_elem_of_lookup.
    { eapply kahn_order_complete; eauto.
      by apply depends_on_nodes in Hst as [? _]. }
    destruct (kahn_order_before deps order d s t j Hnd Hinv
                (tc_once _ _ _ Hst) Hj) as (i & Hi & Ht).
    exists i, j. repeat split; [| |done]; by apply lookup_list_index.
Qed.

(** C10. The order returned by [_calculate_startup_order] has no duplicate
    entries, and every entry is a node of the graph: a key of the dependency
    map or a dependency of one. *)
Theorem startup_order_distinct_nodes deps :
  NoDup deps.*1 →
  ∃ order,
    _calculate_startup_order deps = Some order
    ∧ NoDup order
    ∧ ∀ x, x ∈ order →
           x ∈ set_iter (all_nodes deps)
           ∧ (x ∈ deps.*1 ∨ ∃ source, depends_on deps source x).
Proof.
  intros Hnd.
  destruct (startup_order_total deps Hnd) as (order & d & Hrun & Hinv).
  exists order. split; [done|]. split; [by eapply kahn_order_NoDup|].
  intros x Hx. pose proof (kahn_order_nodes _ _ _ _ Hinv Hx) as Hnode.
  split; [by apply set_iter_elem_2 | by apply all_nodes_elem].
Qed.

(** What the detector stores: every stored cycle is a walk along dependency
    edges that starts and ends with the same node. *)
Theorem detected_cycles_are_closed_walks deps :
  NoDup deps.*1 →
  ∃ cs,
    _detect_cycles deps = Ok cs
    ∧ ∀ c, c ∈ cs →
           chain (depends_on deps) c ∧ ∃ node mid, c = node :: mid ++ [node].
Proof.
  intros Hnd. destruct (detect_cycles_spec deps Hnd) as (cs & Hcs & Hwalk & _).
  exists cs. split; [done|]. intros c Hc. by apply Hwalk.
Qed.

(** C4, as the code has it. On a dependency map with a cycle
    [_detect_cycles] returns a nonempty list when the interpreter has room
    for more nested calls of [dfs] than the graph has nodes; with less room
    it returns a nonempty list or raises RecursionError.
    [_calculate_startup_order], which is a loop, returns fewer entries than
    the graph has nodes: no node of a cycle and no node that depends on one,
    directly or through other nodes, is in the order. *)
Theorem cyclic_graph_reported deps :
  NoDup deps.*1 → cyclic deps →
  (∀ depth, set_len (all_nodes deps) < depth →
            ∃ cs, _detect_cycles_within depth deps = Ok cs ∧ cs ≠ [])
  ∧ (∀ depth, _detect_cycles_within depth deps = RecursionError
              ∨ ∃ cs, _detect_cycles_within depth deps = Ok cs ∧ cs ≠ [])
  ∧ ∃ order,
      _calculate_startup_order deps = Some order
      ∧ length order < set_len (all_nodes deps)
      ∧ ∀ x y, rtc (depends_on deps) x y → tc (depends_on deps) y y →
               x ∉ order.
Proof.
  intros Hnd Hcyc.
  destruct (detect_cycles_spec deps Hnd) as (cs & Hcs & _ & Hne).
  destruct (startup_order_total deps Hnd) as (order & d & Hrun & Hinv).
  split.
  { intros depth Hdepth. exists cs.
    rewrite detect_cycles_within_enough by done. split; [done | by apply Hne]. }
  split.
  { intros depth.
    destruct (detect_cycles_within_cases deps depth Hnd) as [Hrec|Heq];
      [by left|].
    right. exists cs. rewrite Heq. split; [done | by apply Hne]. }
  exists order. split; [done|].
  assert (∀ x y, rtc (depends_on deps) x y → tc (depends_on deps) y y →
                 x ∉ order) as Hout.
  { intros x y Hxy Hy Hx.
    assert (tc (depends_on deps) x y) as Htc by (by eapply tc_rtc_l).
    apply list_elem_of_lookup in Hx as [j Hj].
    destruct (kahn_order_before deps order d x y j Hnd Hinv Htc Hj)
      as (i & _ & Hi).
    eapply kahn_order_no_cycle; [done | done | exact Hy |].
    by eapply list_elem_of_lookup_2. }
  split; [|done].
  destruct Hcyc as [x Hx].
  assert (x :: order ⊆+ set_iter (all_nodes deps)) as Hsub.
  { apply NoDup_submseteq.
    - apply NoDup_cons. split; [by eapply Hout | by eapply kahn_order_NoDup].
    - intros y [->|Hy]%elem_of_cons; apply set_iter_elem_2.
      + by eapply tc_depends_on_node.
      + by eapply kahn_order_nodes. }
  apply submseteq_length in Hsub. simpl in Hsub. unfold set_len. lia.
Qed.

(** C6. The graph built from the recorded relationship facts: its nodes are
    exactly the sources and targets of the facts, each listed once; its edges
    are exactly the (source, target) pairs of the facts, each listed once
    whatever the number and kinds of the facts that give the pair; and both
    ends of every edge are nodes. *)
Theorem graph_is_union_of_facts (inventory : list string) (facts : list fact) :
  ∃ g,
    build_dependency_graph (analysed inventory facts) = Ok g
    ∧ NoDup (dg_nodes g)
    ∧ (∀ x, x ∈ dg_nodes g ↔ ∃ f, f ∈ facts ∧ (source f = x ∨ target f = x))
    ∧ NoDup (dg_edges g)
    ∧ (∀ e, e ∈ dg_edges g
            ↔ ∃ f, f ∈ facts ∧ e = Edge (source f) (target f) "depends_on")
    ∧ (∀ e, e ∈ dg_edges g →
            edge_from e ∈ dg_nodes g ∧ edge_to e ∈ dg_nodes g).
Proof.
  destruct (built_edges_are_facts inventory facts) as (g & Hg & Hedge).
  destruct (build_dependency_graph_total (analysed inventory facts))
    as (g' & Hg' & Hnodes & Hedges & _).
  rewrite Hg in Hg'. injection Hg' as <-.
  exists g. split; [done|]. rewrite Hnodes.
  set (deps := all_dependencies (analysed inventory facts)).
  split; [apply set_iter_NoDup|]. split; [|split; [|split; [done|]]].
  - intros x. rewrite set_iter_elem, all_nodes_elem. unfold deps.
    rewrite analysed_keys. split.
    + intros [(f & ? & ?)|(s & (f & ? & _ & ?)%analysed_depends)]; eauto.
    + intros (f & Hf & [Hs|Ht]); [left; eauto | right].
      exists (source f). apply analysed_depends. eauto.
  - rewrite Hedges. apply graph_edges_NoDup, all_dependencies_NoDup.
  - rewrite Hedges. intros e (s & x & Hd & ->)%graph_edges_elem. simpl.
    rewrite !set_iter_elem. by apply depends_on_nodes.
Qed.

(** C7, as the code has it. The graph builder inserts self-loops like any
    other edge: the edge list has an edge from a node to itself exactly when
    some recorded fact has that node as source and as target. *)
Theorem self_loops_are_kept (inventory : list string) (facts : list fact) :
  ∃ g,
    build_dependency_graph (analysed inventory facts) = Ok g
    ∧ ∀ x, Edge x x "depends_on" ∈ dg_edges g
           ↔ ∃ f, f ∈ facts ∧ source f = x ∧ target f = x.
Proof.
  destruct (built_edges_are_facts inventory facts) as (g & Hg & Hedge).
  exists g. split; [done|]. intros x. rewrite Hedge. split.
  - intros (f & Hf & [= -> Ht]). eauto.
  - intros (f & Hf & <- & Ht). exists f. split; [done|]. by rewrite Ht.
Qed.

End Graph.

(** ** Phase planner *)

Section Planner.
Context `{SetOrder}.
Implicit Types (table : list (nat * list string)) (level : nat).

Lemma level_append_keys level node table x :
  x ∈ (level_append level node table).*1 ↔ x ∈ table.*1 ∨ x = level.
Proof.
  induction table as [|[l cs] table IH]; simpl.
  - rewrite list_elem_of_singleton, elem_of_nil. tauto.
  - case_decide; simpl; rewrite !elem_of_cons; [subst; tauto|].
    rewrite IH. tauto.
Qed.

Lemma level_append_NoDup level node table :
  NoDup table.*1 → NoDup (level_append level node table).*1.
Proof.
  induction table as [|[l cs] table IH]; simpl.
  - intros _. apply NoDup_singleton.
  - intros [Hl Ht]%NoDup_cons. case_decide; simpl.
    + by apply NoDup_cons.
    + apply NoDup_cons. split; [|auto]. rewrite level_append_keys.
      intros [?|?]; simpl in *; [done | by subst].
Qed.

Lemma level_append_values level node table :
  concat (level_append level node table).*2 ≡ₚ concat table.*2 ++ [node].
Proof.
  induction table as [|[l cs] table IH]; simpl; [done|].
  case_decide; simpl.
  - rewrite <-!app_assoc. apply Permutation_app_head, Permutation_app_comm.
  - by rewrite IH, app_assoc.
Qed.

Lemma place_nodes_spec cdeps order table processed :
  NoDup table.*1 →
  NoDup (foldl (place_node cdeps) (table, processed) order).1.*1
  ∧ concat (foldl (place_node cdeps) (table, processed) order).1.*2
    ≡ₚ concat table.*2 ++ order.
Proof.
  revert table processed.
  induction order as [|node order IH]; intros table processed Hnd; simpl.
  - by rewrite app_nil_r.
  - unfold place_node at 2 4. simpl.
    edestruct IH as [Hkeys Hvals]; [by apply level_append_NoDup|].
    split; [exact Hkeys|]. rewrite Hvals, level_append_values.
    by rewrite <-app_assoc.
Qed.

Lemma level_get_values table :
  NoDup table.*1 → level_get table <$> table.*1 = table.*2.
Proof.
  induction table as [|[l cs] table IH]; [done|].
  rewrite !fmap_cons. cbn [fst snd]. intros [Hl Ht]%NoDup_cons. f_equal.
  - cbn. by rewrite decide_True.
  - rewrite <-IH by done. apply Forall_fmap_ext_1, Forall_forall.
    intros k Hk. cbn. rewrite decide_False; [done|]. by intros ->.
Qed.

Lemma concat_fmap_Permutation {A B} (f : A → list B) (l k : list A) :
  l ≡ₚ k → concat (f <$> l) ≡ₚ concat (f <$> k).
Proof.
  induction 1 as [|x l k _ IH|x y l|l k k' _ IH1 _ IH2]; simpl.
  - done.
  - by rewrite IH.
  - rewrite !app_assoc. apply Permutation_app_tail, Permutation_app_comm.
  - by rewrite IH1.
Qed.

Lemma level_phases_containers table (levels : list nat) :
  phase_containers <$> (level_phase table <$> levels)
  = level_get table <$> levels.
Proof. rewrite <-list_fmap_compose. by apply list_fmap_ext. Qed.

(** The level phases hold the startup order, each node once. *)
Lemma level_phases_Permutation cdeps order :
  concat (phase_containers
          <$> (level_phase (group_by_level cdeps order)
               <$> sorted_levels (group_by_level cdeps order)))
  ≡ₚ order.
Proof.
  unfold group_by_level.
  destruct (place_nodes_spec cdeps order [] ∅) as [Hkeys Hvals];
    [constructor|].
  rewrite level_phases_containers. unfold sorted_levels.
  rewrite (concat_fmap_Permutation _ _ _ (merge_sort_Permutation _ _)).
  by rewrite level_get_values.
Qed.

Lemma level_phase_special table level :
  special (level_phase table level) = None.
Proof. done. Qed.

(** *** Levels *)

Lemma level_of_key table x level :
  level_of table x = Some level → level ∈ table.*1.
Proof.
  induction table as [|[l cs] table IH]; simpl; [done|].
  case_decide; [intros [= <-]; left | intros ?; right; auto].
Qed.

Lemma level_get_elem table x level :
  x ∈ level_get table level → x ∈ concat table.*2.
Proof.
  induction table as [|[l cs] table IH]; simpl;
    [by intros ?%elem_of_nil|].
  rewrite elem_of_app. case_decide; [by left | right; auto].
Qed.

(** With distinct keys and disjoint level lists, the list a node is found
    in is the list of its level. *)
Lemma level_of_get table x level :
  NoDup table.*1 → NoDup (concat table.*2) →
  level_of table x = Some level ↔ x ∈ level_get table level.
Proof.
  induction table as [|[l cs] table IH]; simpl.
  - intros _ _. split; [done | by intros ?%elem_of_nil].
  - intros [Hl Hkeys]%NoDup_cons (Hcs & Hdisj & Hrest)%NoDup_app.
    destruct (decide (x ∈ cs)) as [Hx|Hx].
    + split.
      * intros [= <-]. by rewrite decide_True.
      * case_decide as Hk; [by subst|].
        intros Hin%level_get_elem. by destruct (Hdisj x).
    + rewrite (IH Hkeys Hrest). case_decide as Hk; [|done]. subst l.
      split; [|done]. intros Hin.
      apply (IH Hkeys Hrest), level_of_key in Hin. done.
Qed.

Lemma level_of_append level node table x :
  level_of table node = None →
  level_of (level_append level node table) x
  = if decide (x = node) then Some level else level_of table x.
Proof.
  induction table as [|[l cs] table IH]; simpl.
  - intros _. destruct (decide (x = node)) as [->|Hx].
    + rewrite decide_True; [done | left].
    + rewrite decide_False; [done | by intros ?%list_elem_of_singleton].
  - destruct (decide (node ∈ cs)) as [|Hnode]; [done|]. intros Hrest.
    destruct (decide (level = l)) as [->|Hne]; simpl.
    + destruct (decide (x = node)) as [->|Hx].
      * rewrite decide_True; [done | apply elem_of_app; right; left].
      * destruct (decide (x ∈ cs)) as [Hin|Hin].
        -- rewrite decide_True; [done | apply elem_of_app; by left].
        -- rewrite decide_False; [done|].
           rewrite elem_of_app, list_elem_of_singleton. tauto.
    + rewrite IH by done. destruct (decide (x = node)) as [->|Hx].
      * by rewrite decide_False.
      * done.
Qed.

Lemma raise_level_fold processed table deps level0 :
  level0 ≤ foldl (raise_level processed table) level0 deps
  ∧ ∀ b lb, b ∈ deps → b ∈ processed → level_of table b = Some lb →
            lb + 1 ≤ foldl (raise_level processed table) level0 deps.
Proof.
  revert level0. induction deps as [|d deps IH]; intros level0; simpl.
  - split; [done|]. by intros b lb ?%elem_of_nil.
  - destruct (IH (raise_level processed table level0 d)) as [Hge Hdeps].
    assert (level0 ≤ raise_level processed table level0 d) as Hstep.
    { unfold raise_level. case_decide; [|done].
      destruct (level_of table d); lia. }
    split; [lia|]. intros b lb [->|Hb]%elem_of_cons Hproc Hlvl; [|eauto].
    assert (lb + 1 ≤ raise_level processed table level0 d); [|lia].
    unfold raise_level. rewrite decide_True by done. rewrite Hlvl. lia.
Qed.

Lemma place_nodes_levels cdeps order table (processed : gset string) done :
  NoDup (done ++ order) →
  (∀ l1 a l2, order = l1 ++ a :: l2 →
              ∀ b, b ∈ deps_of cdeps a → b ∈ done ++ l1) →
  (∀ x, x ∈ processed ↔ x ∈ done) →
  (∀ x, is_Some (level_of table x) ↔ x ∈ done) →
  (∀ a b, a ∈ done → b ∈ deps_of cdeps a → b ∈ done) →
  (∀ a b la lb, a ∈ done → b ∈ deps_of cdeps a →
                level_of table a = Some la → level_of table b = Some lb →
                lb < la) →
  ∀ a b la lb,
    a ∈ done ++ order → b ∈ deps_of cdeps a →
    level_of (foldl (place_node cdeps) (table, processed) order).1 a
    = Some la →
    level_of (foldl (place_node cdeps) (table, processed) order).1 b
    = Some lb →
    lb < la.
Proof.
  revert table processed done.
  induction order as [|n order IH];
    intros table processed done Hnd Hbefore Hproc Hlev Hclosed Hlt.
  - simpl. intros a b la lb Ha. rewrite app_nil_r in Ha. by apply Hlt.
  - cbn [foldl]. unfold place_node at 2 4. cbn [fst snd].
    set (level := foldl (raise_level processed table) 0
                        (set_iter (dict_get_set cdeps n))).
    assert (n ∉ done) as Hn.
    { apply NoDup_app in Hnd as (_ & Hdisj & _). intros Hin.
      apply (Hdisj _ Hin). left. }
    assert (level_of table n = None) as Hnone.
    { apply eq_None_not_Some. by rewrite Hlev. }
    assert (∀ b, b ∈ deps_of cdeps n → b ∈ done) as Hdeps.
    { intros b Hb. specialize (Hbefore [] n order eq_refl b Hb).
      by rewrite app_nil_r in Hbefore. }
    intros a b la lb Ha.
    apply (IH (level_append level n table) ({[n]} ∪ processed) (done ++ [n])).
    + by rewrite <-app_assoc.
    + intros l1 a' l2 -> b' Hb'. rewrite <-app_assoc. simpl.
      by apply (Hbefore (n :: l1) a' l2).
    + intros x. rewrite elem_of_union, elem_of_singleton, elem_of_app,
        list_elem_of_singleton, Hproc. tauto.
    + intros x. rewrite level_of_append by done.
      rewrite elem_of_app, list_elem_of_singleton, <-Hlev.
      destruct (decide (x = n)) as [->|]; [|tauto].
      split; [by right | by eexists].
    + intros a' b' [Ha'| ->%list_elem_of_singleton]%elem_of_app Hb';
        apply elem_of_app; left; eauto.
    + intros a' b' la' lb' Ha' Hb'. rewrite !level_of_append by done.
      assert (b' ∈ done) as Hb'd.
      { apply elem_of_app in Ha' as [?| ->%list_elem_of_singleton]; eauto. }
      assert (b' ≠ n) as Hb'n by (by intros ->).
      rewrite (decide_False (P := b' = n)) by done.
      destruct (decide (a' = n)) as [->|Ha'n].
      * intros [= <-] Hlb'.
        destruct (raise_level_fold processed table
                    (set_iter (dict_get_set cdeps n)) 0) as [_ Hge].
        specialize (Hge b' lb' Hb' (proj2 (Hproc b') Hb'd) Hlb').
        unfold level. lia.
      * apply elem_of_app in Ha' as [?|?%list_elem_of_singleton]; [|done].
        by apply Hlt.
    + by rewrite <-app_assoc.
Qed.

Lemma group_by_level_spec cdeps order :
  NoDup (group_by_level cdeps order).*1
  ∧ concat (group_by_level cdeps order).*2 ≡ₚ order.
Proof.
  unfold group_by_level.
  by destruct (place_nodes_spec cdeps order [] ∅) as [? ?]; [constructor|].
Qed.

(** A node placed after its container dependencies gets a higher level than
    each of them. *)
Lemma group_by_level_levels cdeps order a b la lb :
  NoDup order →
  (∀ l1 a l2, order = l1 ++ a :: l2 →
              ∀ b, b ∈ deps_of cdeps a → b ∈ l1) →
  a ∈ order → b ∈ deps_of cdeps a →
  level_of (group_by_level cdeps order) a = Some la →
  level_of (group_by_level cdeps order) b = Some lb →
  lb < la.
Proof.
  intros Hnd Hbefore. unfold group_by_level.
  apply (place_nodes_levels cdeps order [] ∅ []); try done.
  - intros x. split; [by intros ?%not_elem_of_empty | by intros ?%elem_of_nil].
  - intros x. split; [by intros [? ?] | by intros ?%elem_of_nil].
  - by intros ? ? ?%elem_of_nil.
Qed.

End Planner.

(** ** The migration sequence *)

Section Sequence.
Context `{SetOrder}.
Implicit Types (m : Mapper) (g : dependency_graph).

Lemma generate_phases m g :
  phases (generate_migration_sequence m g)
  = match dg_cycles g, concat (dg_cycles g) with
    | _ :: _, _ :: _ => [cycle_phase (concat (dg_cycles g)) (dg_cycles g)]
    | _, _ => []
    end
    ++ match dg_startup_order g with
       | [] => [Phase "Phase 1" (containers m) false None None None]
       | _ =>
           level_phase
             (group_by_level (container_dependencies m) (dg_startup_order g))
           <$> sorted_levels
                 (group_by_level (container_dependencies m)
                                 (dg_startup_order g))
       end.
Proof.
  unfold generate_migration_sequence.
  destruct (dg_startup_order g), (dg_cycles g) as [|c cs];
    try destruct (concat (c :: cs)); reflexivity.
Qed.

(** What [plan] computes: the graph with the detector's cycles and the
    sequencer's order, and the sequence generated from it. *)
Lemma plan_total m :
  ∃ g in_degree,
    plan m = Ok (g, generate_migration_sequence m g)
    ∧ build_dependency_graph m = Ok g
    ∧ (∀ c, c ∈ dg_cycles g → closed_walk (all_dependencies m) c)
    ∧ (cyclic (all_dependencies m) → dg_cycles g ≠ [])
    ∧ kahn_inv (all_dependencies m) (dg_startup_order g) [] in_degree.
Proof.
  destruct (build_dependency_graph_total m) as (g & Hg & _ & _ & Hcs & Hord).
  destruct (detect_cycles_spec _ (all_dependencies_NoDup m))
    as (cs & Hcs' & Hwalk & Hne).
  destruct (startup_order_total _ (all_dependencies_NoDup m))
    as (order & d & Hord' & Hinv).
  rewrite Hcs in Hcs'. injection Hcs' as <-.
  rewrite Hord in Hord'. injection Hord' as <-.
  exists g, d. unfold plan. rewrite Hg. simpl. done.
Qed.

Lemma closed_walk_nonempty deps c : closed_walk deps c → c ≠ [].
Proof. by intros [_ (node & mid & ->)]. Qed.

(** C5, as the code has it. When cycles were detected, the first phase is
    the dedicated one: marked special, not parallel, holding exactly the
    nodes of the detected cycles, and no other phase is marked special.
    Unless that phase stands next to the fallback phase of an empty startup
    order, no node is listed twice in the phases; and when the startup order
    is not empty the phases hold exactly the startup order and the nodes of
    the cycles. When the startup order is empty, the last phase is the
    fallback "Phase 1", which lists each container of the inventory once: it
    is the only phase when no cycle was detected, and it follows the cycle
    phase otherwise, so that a container of the inventory that is on a
    detected cycle is listed in both. *)
Theorem phases_of_the_sequence (inventory : list string) (facts : list fact) :
  ∃ g ms,
    plan (analysed inventory facts) = Ok (g, ms)
    ∧ (dg_cycles g ≠ [] →
       ∃ ph rest,
         phases ms = ph :: rest
         ∧ special ph = Some true ∧ parallel ph = false
         ∧ NoDup (phase_containers ph)
         ∧ (∀ x, x ∈ phase_containers ph ↔ ∃ c, c ∈ dg_cycles g ∧ x ∈ c)
         ∧ ∀ ph', ph' ∈ rest → special ph' = None)
    ∧ (dg_cycles g = [] → ∀ ph, ph ∈ phases ms → special ph = None)
    ∧ (dg_startup_order g ≠ [] ∨ dg_cycles g = [] →
       NoDup (concat (phase_containers <$> phases ms)))
    ∧ (dg_startup_order g ≠ [] →
       ∀ x, x ∈ concat (phase_containers <$> phases ms)
            ↔ x ∈ dg_startup_order g ∨ ∃ c, c ∈ dg_cycles g ∧ x ∈ c)
    ∧ (dg_startup_order g = [] →
       ∃ fallback,
         fallback = Phase "Phase 1" (containers (analysed inventory facts))
                          false None None None
         ∧ NoDup (phase_containers fallback)
         ∧ (∀ x, x ∈ phase_containers fallback ↔ x ∈ inventory)
         ∧ (dg_cycles g = [] → phases ms = [fallback])
         ∧ (dg_cycles g ≠ [] →
            ∃ ph,
              phases ms = [ph; fallback]
              ∧ ∀ x, x ∈ inventory → (∃ c, c ∈ dg_cycles g ∧ x ∈ c) →
                     x ∈ phase_containers ph
                     ∧ x ∈ phase_containers fallback)).
Proof.
  set (m := analysed inventory facts).
  assert (NoDup (containers m) ∧ ∀ x, x ∈ containers m ↔ x ∈ inventory)
    as [Hinv_nd Hinv_el]
    by (split; [apply analysed_containers_NoDup
               | intros x; apply analysed_containers_elem]).
  destruct (plan_total m) as (g & d & Hplan & _ & Hwalk & _ & Hinv).
  exists g, (generate_migration_sequence m g). split; [done|].
  pose proof (generate_phases m g) as Hph.
  pose proof (level_phases_Permutation (container_dependencies m)
                (dg_startup_order g)) as Hlevels.
  pose proof (kahn_order_NoDup _ _ _ Hinv) as Horder.
  set (levels := level_phase
         (group_by_level (container_dependencies m) (dg_startup_order g))
       <$> sorted_levels
             (group_by_level (container_dependencies m)
                             (dg_startup_order g))) in *.
  assert (∀ ph, ph ∈ levels → special ph = None) as Hlev_special.
  { intros ph (l & -> & _)%list_elem_of_fmap. done. }
  assert (∀ x, (∃ c, c ∈ dg_cycles g ∧ x ∈ c) → x ∉ dg_startup_order g)
    as Hdisj.
  { intros x (c & Hc & Hx).
    eapply kahn_order_no_cycle;
      [apply all_dependencies_NoDup | done | by eapply closed_walk_tc, Hx; auto]. }
  destruct (dg_cycles g) as [|c cs] eqn:Hcs.
  { (* no cycles *)
    simpl in Hph. split; [done|]. split.
    - intros _ ph. rewrite Hph.
      destruct (dg_startup_order g); [|by apply Hlev_special].
      by intros ->%list_elem_of_singleton.
    - split.
      + intros _. rewrite Hph. destruct (dg_startup_order g) eqn:E.
        * simpl. rewrite app_nil_r. apply analysed_containers_NoDup.
        * by rewrite Hlevels.
      + split.
        * intros Hne x. rewrite Hph.
          destruct (dg_startup_order g) eqn:E; [done|]. rewrite Hlevels.
          split; [by left|]. intros [?|(c & ?%elem_of_nil & _)]; done.
        * intros Hempty. eexists. split; [reflexivity|]. simpl.
          split; [done|]. split; [done|]. split; [|done].
          intros _. by rewrite Hph, Hempty. }
  (* some cycle *)
  assert (concat (c :: cs) ≠ []) as Hcat.
  { simpl. intros [Hc _]%app_eq_nil.
    eapply closed_walk_nonempty; [apply (Hwalk c); left | done]. }
  destruct (concat (c :: cs)) as [|y ys] eqn:Hcc; [done|]. clear Hcat.
  rewrite <-Hcc in Hph.
  assert (∀ x, x ∈ set_iter (concat (c :: cs))
               ↔ ∃ c', c' ∈ c :: cs ∧ x ∈ c') as Hunion.
  { intros x. rewrite set_iter_elem, elem_of_concat. naive_solver. }
  split; [|split; [done|split; [|split]]].
  - intros _. eexists _, _. split; [exact Hph|]. split; [done|].
    split; [done|]. split; [apply set_iter_NoDup|]. split; [exact Hunion|].
    intros ph. destruct (dg_startup_order g); [|by apply Hlev_special].
    by intros ->%list_elem_of_singleton.
  - intros [Hne|?]; [|done]. rewrite Hph.
    destruct (dg_startup_order g) eqn:E; [done|]. simpl.
    apply NoDup_app. split; [apply set_iter_NoDup|]. split.
    + intros x Hx. rewrite Hlevels. by apply Hdisj, Hunion.
    + by rewrite Hlevels.
  - intros Hne x. rewrite Hph.
    destruct (dg_startup_order g) eqn:E; [done|]. simpl.
    rewrite elem_of_app, Hlevels, Hunion. tauto.
  - intros Hempty. eexists. split; [reflexivity|]. simpl.
    split; [done|]. split; [done|]. split; [done|].
    intros _. eexists. split; [by rewrite Hph, Hempty|].
    intros x Hx Hcyc. simpl. split; [by apply Hunion | by apply Hinv_el].
Qed.

(** What the levels do respect: a node of the startup order is placed on a
    strictly higher level than every node it depends on through the
    container tracker (environment references, links, labels); edges that
    come from the other three trackers are not consulted. *)
Theorem levels_respect_container_dependencies
    (inventory : list string) (facts : list fact) :
  ∃ g ms,
    plan (analysed inventory facts) = Ok (g, ms)
    ∧ ∀ a b la lb,
        depends_on (container_dependencies (analysed inventory facts)) a b →
        a ∈ level_get
              (group_by_level
                 (container_dependencies (analysed inventory facts))
                 (dg_startup_order g)) la →
        b ∈ level_get
              (group_by_level
                 (container_dependencies (analysed inventory facts))
                 (dg_startup_order g)) lb →
        lb < la.
Proof.
  set (m := analysed inventory facts).
  destruct (plan_total m) as (g & d & Hplan & _ & _ & _ & Hinv).
  exists g, (generate_migration_sequence m g). split; [done|].
  pose proof (kahn_order_NoDup _ _ _ Hinv) as Horder.
  pose proof (analysed_tracker_NoDup inventory facts ContainerDep) as Hcnd.
  simpl in Hcnd. fold m in Hcnd.
  destruct (group_by_level_spec (container_dependencies m)
              (dg_startup_order g)) as [Hkeys Hvals].
  assert (NoDup (concat (group_by_level (container_dependencies m)
                           (dg_startup_order g)).*2)) as Hnd
    by (by rewrite Hvals).
  intros a b la lb Hab Ha Hb.
  assert (a ∈ dg_startup_order g) as Hain
    by (rewrite <-Hvals; by eapply level_get_elem).
  apply (group_by_level_levels (container_dependencies m)
           (dg_startup_order g) a b); try done.
  - intros l1 a' l2 Heq b' Hb'.
    apply (depends_on_deps_of _ _ _ Hcnd) in Hb'.
    assert (depends_on (all_dependencies m) a' b') as Hall
      by (apply all_dependencies_depends; by left).
    apply (depends_on_deps_of _ _ _ (all_dependencies_NoDup m)) in Hall.
    destruct (ki_before _ _ _ _ Hinv (length l1) a') with (t := b')
      as (i & Hi & Hb''); [|done|].
    { rewrite Heq. by apply list_lookup_middle. }
    rewrite Heq, lookup_app_l in Hb'' by done.
    by eapply list_elem_of_lookup_2.
  - by apply (depends_on_deps_of _ _ _ Hcnd).
  - by apply level_of_get.
  - by apply level_of_get.
Qed.

End Sequence.
(** ** Double precision

    Rounding to binary64 respects equality of rationals, keeps a value
    between the doubles that enclose it, and leaves multiples of one half
    unchanged. *)

Lemma round_half_even_comp x y : x == y → round_half_even x = round_half_even y.
Proof.
  intros Hxy. unfold round_half_even. rewrite (Qfloor_comp _ _ Hxy).
  assert ((x - inject_Z (Qfloor y)) * inject_Z 2
          == (y - inject_Z (Qfloor y)) * inject_Z 2)%Q as Hr by (by rewrite Hxy).
  by rewrite (Qcompare_comp _ _ Hr _ _ (Qeq_refl _)).
Qed.

Lemma round_half_even_le x N :
  (x <= inject_Z N)%Q → (round_half_even x ≤ N)%Z.
Proof.
  intros Hx. unfold round_half_even.
  pose proof (Qfloor_le x) as Hfl.
  assert (Qfloor x ≤ N)%Z as Ht.
  { rewrite <- (Qfloor_Z N). by apply Qfloor_resp_le. }
  assert ((1 <= (x - inject_Z (Qfloor x)) * inject_Z 2)%Q
          → (Qfloor x + 1 ≤ N)%Z) as Hup.
  { intros Hhalf. destruct (decide (Qfloor x = N)) as [Heq|]; [|lia].
    exfalso. rewrite Heq in Hhalf. change (inject_Z 2) with 2%Q in Hhalf.
    lra. }
  destruct (Qcompare_spec ((x - inject_Z (Qfloor x)) * inject_Z 2)
                          (inject_Z 1)) as [Heq|Hlt|Hgt].
  - destruct (Z.even (Qfloor x)); [done|]. apply Hup. rewrite Heq.
    by change (1 <= 1)%Q.
  - done.
  - apply Hup. by apply Qlt_le_weak.
Qed.

Lemma round_half_even_ge x N :
  (inject_Z N <= x)%Q → (N ≤ round_half_even x)%Z.
Proof.
  intros Hx. unfold round_half_even.
  assert (N ≤ Qfloor x)%Z as Ht.
  { rewrite <- (Qfloor_Z N). by apply Qfloor_resp_le. }
  destruct (Qcompare _ _); [destruct (Z.even _)|..]; lia.
Qed.

Lemma round_half_even_Z N : round_half_even (inject_Z N) = N.
Proof.
  apply Z.le_antisymm.
  - apply round_half_even_le. apply Qle_refl.
  - apply round_half_even_ge. apply Qle_refl.
Qed.

Lemma two_power_pos k : (0 < 2 ^ k)%Q.
Proof. by apply Qpower_0_lt. Qed.

Lemma two_power_succ k : (2 ^ (k + 1) == 2 * 2 ^ k)%Q.
Proof. rewrite Qpower_plus by done. change (2 ^ 1)%Q with 2%Q. ring. Qed.

Lemma two_power_le j k : (j ≤ k)%Z → (2 ^ j <= 2 ^ k)%Q.
Proof. intros Hjk. by apply Qpower_le_compat_l. Qed.

Lemma binade_spec x :
  (0 < x)%Q → (2 ^ binade x <= x)%Q ∧ (x < 2 ^ (binade x + 1))%Q.
Proof.
  intros Hx. unfold binade.
  set (a := Z.log2 (Qnum x)). set (b := Z.log2 (Z.pos (Qden x))).
  assert (0 < Qnum x)%Z as Hn.
  { unfold Qlt in Hx. simpl in Hx. lia. }
  destruct (Z.log2_spec (Qnum x) Hn) as [Ha1 Ha2].
  destruct (Z.log2_spec (Z.pos (Qden x))) as [Hb1 Hb2]; [lia|].
  fold a in Ha1, Ha2. fold b in Hb1, Hb2.
  assert (0 ≤ a)%Z as Ha0 by apply Z.log2_nonneg.
  assert (0 ≤ b)%Z as Hb0 by apply Z.log2_nonneg.
  pose proof (two_power_pos a) as HA. pose proof (two_power_pos b) as HB.
  pose proof (two_power_pos (a - b)) as HP.
  assert (2 ^ (a - b) * 2 ^ b == 2 ^ a)%Q as HPB.
  { rewrite <- Qpower_plus by done. by replace (a - b + b)%Z with a by lia. }
  assert (inject_Z (2 ^ a) == 2 ^ a)%Q as HAz by (by apply Zpower_Qpower).
  assert (inject_Z (2 ^ b) == 2 ^ b)%Q as HBz by (by apply Zpower_Qpower).
  assert (x * inject_Z (Z.pos (Qden x)) == inject_Z (Qnum x))%Q as Hxd.
  { unfold Qeq, Qmult, inject_Z. simpl. lia. }
  assert (2 ^ a <= inject_Z (Qnum x))%Q as Hn1.
  { rewrite <- HAz. by rewrite <- Zle_Qle. }
  assert (inject_Z (Qnum x) < 2 * 2 ^ a)%Q as Hn2.
  { rewrite <- HAz. change 2%Q with (inject_Z 2) at 1.
    rewrite <- inject_Z_mult, <- Zlt_Qlt.
    rewrite Z.pow_succ_r in Ha2 by done. lia. }
  assert (2 ^ b <= inject_Z (Z.pos (Qden x)))%Q as Hd1.
  { rewrite <- HBz. by rewrite <- Zle_Qle. }
  assert (inject_Z (Z.pos (Qden x)) < 2 * 2 ^ b)%Q as Hd2.
  { rewrite <- HBz. change 2%Q with (inject_Z 2) at 1.
    rewrite <- inject_Z_mult, <- Zlt_Qlt.
    rewrite Z.pow_succ_r in Hb2 by done. lia. }
  set (P := (2 ^ (a - b))%Q) in *. set (A := (2 ^ a)%Q) in *.
  set (B := (2 ^ b)%Q) in *. set (D := inject_Z (Z.pos (Qden x))) in *.
  set (N := inject_Z (Qnum x)) in *.
  assert (x < 2 * P)%Q as Hupper by nra.
  assert (P < 2 * x)%Q as Hlower by nra.
  destruct (Qle_bool P x) eqn:Hle.
  - apply Qle_bool_iff in Hle. split; [done|].
    by rewrite two_power_succ.
  - assert (¬ (P <= x)%Q) as Hnle.
    { intros Hc. apply Qle_bool_iff in Hc. congruence. }
    apply Qnot_le_lt in Hnle.
    replace (a - b - 1 + 1)%Z with (a - b)%Z by lia.
    split; [|done].
    assert (P == 2 * 2 ^ (a - b - 1))%Q as HP1.
    { unfold P. rewrite <- two_power_succ.
      by replace (a - b - 1 + 1)%Z with (a - b)%Z by lia. }
    pose proof (two_power_pos (a - b - 1)). lra.
Qed.

Lemma scaled_bounds x :
  (0 < x)%Q →
  (inject_Z (2 ^ 52) <= x / 2 ^ (binade x - 52))%Q
  ∧ (x / 2 ^ (binade x - 52) <= inject_Z (2 ^ 53))%Q.
Proof.
  intros Hx. destruct (binade_spec x Hx) as [Hlo Hhi].
  pose proof (two_power_pos (binade x - 52)) as He.
  assert (2 ^ binade x == inject_Z (2 ^ 52) * 2 ^ (binade x - 52))%Q as Hk.
  { rewrite Zpower_Qpower by done. rewrite <- Qpower_plus by done.
    by replace (52 + (binade x - 52))%Z with (binade x) by lia. }
  assert (2 ^ (binade x + 1) == inject_Z (2 ^ 53) * 2 ^ (binade x - 52))%Q
    as Hk1.
  { rewrite Zpower_Qpower by done. rewrite <- Qpower_plus by done.
    by replace (53 + (binade x - 52))%Z with (binade x + 1)%Z by lia. }
  split.
  - apply Qle_shift_div_l; [done|]. by rewrite <- Hk.
  - apply Qle_shift_div_r; [done|]. rewrite <- Hk1. by apply Qlt_le_weak.
Qed.

Lemma nearest_double_pos x : (0 < x)%Q → (0 < nearest_double x)%Q.
Proof.
  intros Hx. unfold nearest_double.
  destruct (scaled_bounds x Hx) as [Hlo _].
  apply round_half_even_ge in Hlo.
  apply Qmult_lt_0_compat; [|apply two_power_pos].
  change 0%Q with (inject_Z 0). rewrite <- Zlt_Qlt. lia.
Qed.

(** A positive [x] below a double [N * 2 ^ (k - 52)] rounds to a double that
    is not above it. *)
Lemma nearest_double_le x N k :
  (0 < x)%Q → (2 ^ 52 ≤ N < 2 ^ 53)%Z →
  (x <= inject_Z N * 2 ^ (k - 52))%Q →
  (nearest_double x <= inject_Z N * 2 ^ (k - 52))%Q.
Proof.
  intros Hx [HN1 HN2] Hb. unfold nearest_double.
  destruct (binade_spec x Hx) as [Hlo Hhi].
  destruct (scaled_bounds x Hx) as [_ Hs].
  pose proof (two_power_pos (binade x - 52)) as He.
  pose proof (two_power_pos (k - 52)) as Hk.
  assert (2 ^ k == inject_Z (2 ^ 52) * 2 ^ (k - 52))%Q as Hk52.
  { rewrite Zpower_Qpower by done. rewrite <- Qpower_plus by done.
    by replace (52 + (k - 52))%Z with k by lia. }
  assert (2 ^ (k + 1) == inject_Z (2 ^ 53) * 2 ^ (k - 52))%Q as Hk53.
  { rewrite Zpower_Qpower by done. rewrite <- Qpower_plus by done.
    by replace (53 + (k - 52))%Z with (k + 1)%Z by lia. }
  assert (2 ^ k <= inject_Z N * 2 ^ (k - 52))%Q as HbN.
  { rewrite Hk52. apply Qmult_le_compat_r; [|by apply Qlt_le_weak].
    by rewrite <- Zle_Qle. }
  assert (inject_Z N * 2 ^ (k - 52) < 2 ^ (k + 1))%Q as HNb.
  { rewrite Hk53. apply Qmult_lt_compat_r; [done|]. by rewrite <- Zlt_Qlt. }
  destruct (Z.lt_trichotomy (binade x) k) as [Hlt|[Heq|Hgt]].
  - apply round_half_even_le in Hs.
    apply Qle_trans with (2 ^ k)%Q; [|done].
    apply Qle_trans with (2 ^ (binade x + 1))%Q;
      [|apply two_power_le; lia].
    assert (2 ^ (binade x + 1)
            == inject_Z (2 ^ 53) * 2 ^ (binade x - 52))%Q as ->.
    { rewrite Zpower_Qpower by done. rewrite <- Qpower_plus by done.
      by replace (53 + (binade x - 52))%Z with (binade x + 1)%Z by lia. }
    apply Qmult_le_compat_r; [|by apply Qlt_le_weak].
    by rewrite <- Zle_Qle.
  - rewrite Heq in *.
    apply Qmult_le_compat_r; [|by apply Qlt_le_weak].
    rewrite <- Zle_Qle. apply round_half_even_le.
    apply Qle_shift_div_r; [done|]. done.
  - exfalso.
    assert (2 ^ (k + 1) <= 2 ^ binade x)%Q by (apply two_power_le; lia).
    lra.
Qed.

Lemma binary64_comp x y : x == y → binary64 x = binary64 y.
Proof. intros Hxy. unfold binary64. by rewrite (Qred_complete _ _ Hxy). Qed.

Lemma binary64_zero x : x == 0 → binary64 x = inject_Z 0.
Proof. intros Hx. by rewrite (binary64_comp _ 0 Hx). Qed.

Lemma binary64_nonneg x : (0 <= x)%Q → (0 <= binary64 x)%Q.
Proof.
  intros Hx. unfold binary64.
  assert (0 <= Qred x)%Q as Hr by (by rewrite Qred_correct).
  destruct (Qnum (Qred x)) eqn:Hn.
  - done.
  - apply Qlt_le_weak, nearest_double_pos. unfold Qlt. simpl. lia.
  - unfold Qle in Hr. simpl in Hr. lia.
Qed.

Lemma binary64_le x N k :
  (0 <= x)%Q → (2 ^ 52 ≤ N < 2 ^ 53)%Z →
  (x <= inject_Z N * 2 ^ (k - 52))%Q →
  (binary64 x <= inject_Z N * 2 ^ (k - 52))%Q.
Proof.
  intros Hx HN Hb. unfold binary64.
  assert (0 <= Qred x)%Q as Hr by (by rewrite Qred_correct).
  assert (Qred x <= inject_Z N * 2 ^ (k - 52))%Q as Hrb
    by (by rewrite Qred_correct).
  destruct (Qnum (Qred x)) eqn:Hn.
  - apply Qmult_le_0_compat; [|apply Qlt_le_weak, two_power_pos].
    change 0%Q with (inject_Z 0). rewrite <- Zle_Qle. lia.
  - apply nearest_double_le; [|done..]. unfold Qlt. simpl. lia.
  - unfold Qle in Hr. simpl in Hr. lia.
Qed.

Lemma binary64_le_1 x : (0 <= x)%Q → (x <= 1)%Q → (binary64 x <= 1)%Q.
Proof.
  intros Hx H1.
  assert (1 == inject_Z (2 ^ 52) * 2 ^ (0 - 52))%Q as Hone by done.
  rewrite Hone. apply binary64_le; [done|lia|]. by rewrite <- Hone.
Qed.

Lemma binary64_le_100 x : (0 <= x)%Q → (x <= 100)%Q → (binary64 x <= 100)%Q.
Proof.
  intros Hx H1.
  assert (100 == inject_Z (100 * 2 ^ 46) * 2 ^ (6 - 52))%Q as Hb by done.
  rewrite Hb. apply binary64_le; [done|lia|]. by rewrite <- Hb.
Qed.

(** Multiples of one half below [2 ^ 52] are doubles. *)
Lemma binary64_halves n :
  (0 ≤ n < 2 ^ 53)%Z → binary64 (n # 2) == n # 2.
Proof.
  intros [Hn0 Hn1].
  destruct (decide (n = 0%Z)) as [->|Hne]; [done|].
  set (x := Qred (n # 2)).
  assert (x == n # 2) as Hx by apply Qred_correct.
  assert (0 < x)%Q as Hpos.
  { rewrite Hx. unfold Qlt. simpl. lia. }
  assert (binary64 (n # 2) = nearest_double x) as ->.
  { unfold binary64. fold x. destruct (Qnum x) eqn:Hq; [| done |].
    - unfold Qlt in Hpos. simpl in Hpos. lia.
    - unfold Qlt in Hpos. simpl in Hpos. lia. }
  unfold nearest_double.
  destruct (binade_spec x Hpos) as [Hlo Hhi].
  set (k := binade x) in *.
  assert (k ≤ 51)%Z as Hk.
  { destruct (decide (k ≤ 51)%Z); [done|]. exfalso.
    assert (2 ^ 52 <= 2 ^ k)%Q by (apply two_power_le; lia).
    assert (x < 2 ^ 52)%Q; [|lra].
    rewrite Hx. rewrite <- (Zpower_Qpower 2 52) by done.
    unfold Qlt, inject_Z. simpl Qnum. simpl Qden. lia. }
  pose proof (two_power_pos (k - 52)) as He.
  set (E := (2 ^ (k - 52))%Q) in *.
  assert (x == inject_Z (n * 2 ^ (51 - k)) * E)%Q as Hint.
  { rewrite inject_Z_mult, Zpower_Qpower by lia. unfold E.
    rewrite <- Qmult_assoc, <- Qpower_plus by done.
    replace (51 - k + (k - 52))%Z with (-1)%Z by lia.
    rewrite Hx. unfold Qeq, Qmult, inject_Z. simpl. lia. }
  assert (x / E == inject_Z (n * 2 ^ (51 - k)))%Q as Hq.
  { rewrite Hint at 1. field. lra. }
  rewrite (round_half_even_comp _ _ Hq), round_half_even_Z.
  by rewrite <- Hint.
Qed.

Lemma parallel_phase_time :
  float_mul (inject_Z base_time_per_container) parallel_efficiency == 7 # 2.
Proof. by vm_compute. Qed.


(** ** Duration estimator *)

Lemma py_int_comp x y : x == y → py_int x = py_int y.
Proof.
  intros Hxy. unfold py_int. rewrite (Qleb_comp _ _ (Qeq_refl _) _ _ Hxy).
  by rewrite (Qfloor_comp _ _ Hxy), (Qceiling_comp _ _ Hxy).
Qed.

Lemma py_round1_comp x y : x == y → py_round1 x = py_round1 y.
Proof.
  intros Hxy. unfold py_round1.
  assert (x * inject_Z 10 == y * inject_Z 10)%Q as Hy by (by rewrite Hxy).
  rewrite (Qfloor_comp _ _ Hy).
  assert ((x * inject_Z 10 - inject_Z (Qfloor (y * inject_Z 10))) * inject_Z 2
          == (y * inject_Z 10 - inject_Z (Qfloor (y * inject_Z 10)))
             * inject_Z 2)%Q as Hr by (by rewrite Hxy).
  by rewrite (Qcompare_comp _ _ Hr _ _ (Qeq_refl _)).
Qed.

Lemma py_int_halves (n : Z) : (0 ≤ n)%Z → py_int (n # 2) = (n / 2)%Z.
Proof.
  intros Hn. unfold py_int.
  assert (Qle_bool (inject_Z 0) (n # 2) = true) as ->; [|done].
  apply Qle_bool_iff. unfold Qle. simpl. lia.
Qed.

Lemma node_count_cons ph phases :
  node_count (ph :: phases)
  = (Z.of_nat (length (phase_containers ph)) + node_count phases)%Z.
Proof. unfold node_count. rewrite fmap_cons. simpl. rewrite length_app. lia. Qed.

Lemma node_count_nonneg phases : (0 ≤ node_count phases)%Z.
Proof. unfold node_count. lia. Qed.

Lemma total_containers_fold phases acc :
  foldl (λ acc ph, (acc + Z.of_nat (length (phase_containers ph)))%Z)
        acc phases
  = (acc + node_count phases)%Z.
Proof.
  revert acc. induction phases as [|ph phases IH]; intros acc; simpl.
  - unfold node_count. simpl. lia.
  - rewrite IH, node_count_cons. lia.
Qed.

Lemma parallel_sum_cons ph phases :
  (parallel_sum (ph :: phases) == phase_time ph + parallel_sum phases)%Q.
Proof.
  unfold parallel_sum, parallel_count, sequential_nodes, phase_time.
  rewrite !filter_cons. destruct (parallel ph) eqn:Hp.
  - rewrite decide_True, decide_False by done. cbn [length].
    rewrite parallel_phase_time.
    unfold Qeq, Qplus, inject_Z. cbn [Qnum Qden]. lia.
  - rewrite decide_False, decide_True by done. rewrite node_count_cons.
    unfold base_time_per_container, Qeq, Qplus, inject_Z.
    cbn [Qnum Qden]. lia.
Qed.

Lemma parallel_minutes_fold phases acc :
  (foldl (λ acc ph, acc + phase_time ph) acc phases
   == acc + parallel_sum phases)%Q.
Proof.
  revert acc. induction phases as [|ph phases IH]; intros acc; simpl.
  - unfold parallel_sum, parallel_count, sequential_nodes, node_count. simpl.
    unfold Qeq. simpl. lia.
  - rewrite IH, parallel_sum_cons. ring.
Qed.

Lemma parallel_minutes_sum phases :
  foldl (λ acc ph, acc + phase_time ph)%Q (inject_Z 0) phases
  == parallel_sum phases.
Proof. rewrite parallel_minutes_fold. ring. Qed.

Lemma float_div_comp x x' y y' :
  x == x' → y == y' → float_div x y = float_div x' y'.
Proof. intros Hx Hy. apply binary64_comp. by rewrite Hx, Hy. Qed.

Lemma float_sub_comp x x' y y' :
  x == x' → y == y' → float_sub x y = float_sub x' y'.
Proof. intros Hx Hy. apply binary64_comp. by rewrite Hx, Hy. Qed.

Lemma float_mul_comp x x' y y' :
  x == x' → y == y' → float_mul x y = float_mul x' y'.
Proof. intros Hx Hy. apply binary64_comp. by rewrite Hx, Hy. Qed.

Lemma phase_time_halves ph : phase_time ph == phase_halves ph # 2.
Proof.
  unfold phase_time, phase_halves. destruct (parallel ph).
  - apply parallel_phase_time.
  - unfold base_time_per_container, Qeq, inject_Z. cbn [Qnum Qden]. lia.
Qed.

Lemma parallel_sum_halves phases :
  (7 * parallel_count phases + 10 * sequential_nodes phases)%Z
  = foldr (λ ph acc, (phase_halves ph + acc)%Z) 0%Z phases.
Proof.
  unfold parallel_count, sequential_nodes.
  induction phases as [|ph phases IH]; [done|].
  cbn [foldr]. rewrite <- IH, !filter_cons. unfold phase_halves.
  destruct (parallel ph) eqn:Hp.
  - rewrite decide_True, decide_False by done. cbn [length]. lia.
  - rewrite decide_False, decide_True by done. rewrite node_count_cons. lia.
Qed.

(** The sum of the phase times that the loop accumulates in double precision
    is the exact sum as long as it stays below [2 ^ 52] minutes. *)
Lemma float_minutes_exact phases :
  (7 * parallel_count phases + 10 * sequential_nodes phases < 2 ^ 53)%Z →
  float_minutes (phase_time <$> phases) == parallel_sum phases.
Proof.
  unfold parallel_sum. rewrite parallel_sum_halves. unfold float_minutes.
  assert (∀ acc a,
    acc == a # 2 → (0 ≤ a)%Z →
    (a + foldr (λ ph acc, (phase_halves ph + acc)%Z) 0%Z phases < 2 ^ 53)%Z →
    foldl (λ acc t, binary64 (acc + t)) acc (phase_time <$> phases)
    == (a + foldr (λ ph acc, (phase_halves ph + acc)%Z) 0%Z phases)%Z # 2)
    as Hgen.
  { induction phases as [|ph phases IH]; intros acc a Hacc Ha Hlt.
    - cbn [fmap list_fmap foldl foldr]. by rewrite Z.add_0_r.
    - cbn [foldr] in Hlt |- *. rewrite fmap_cons. cbn [foldl].
      assert (0 ≤ phase_halves ph)%Z as Hh
        by (unfold phase_halves; destruct (parallel ph); lia).
      assert (0 ≤ foldr (λ ph acc, (phase_halves ph + acc)%Z) 0%Z phases)%Z
        as Hrest.
      { clear. induction phases as [|p l IHl]; [done|]. cbn [foldr].
        assert (0 ≤ phase_halves p)%Z
          by (unfold phase_halves; destruct (parallel p); lia).
        lia. }
      rewrite (IH _ (a + phase_halves ph)%Z); [| |lia|lia].
      + by rewrite Z.add_assoc.
      + rewrite (binary64_comp _ ((a + phase_halves ph) # 2)).
        * apply binary64_halves. lia.
        * rewrite Hacc, phase_time_halves.
          unfold Qeq, Qplus. cbn [Qnum Qden]. lia. }
  intros Hlt. rewrite (Hgen (inject_Z 0) 0%Z); [done|done|done|lia].
Qed.

(** C8, as the code has it. The sequential estimate is five minutes per
    node. The reported parallel estimate is the integer part of the sum of
    three and a half minutes per parallel phase and five minutes per node of
    the other phases. The savings are one minus the ratio of that sum (not
    of its integer part) to the sequential estimate, in percent, each
    operation rounding to double precision, rounded to one decimal, and 0
    when there is no node. One parallel phase of three nodes gives 15
    minutes, 3 minutes and 76.7 percent. *)
Theorem duration_estimate (phases : list phase) :
  (total_containers (_estimate_migration_duration phases) = node_count phases
   ∧ estimated_sequential_minutes (_estimate_migration_duration phases)
     = (node_count phases * 5)%Z
   ∧ estimated_parallel_minutes (_estimate_migration_duration phases)
     = py_int (parallel_sum phases)
   ∧ estimated_parallel_minutes (_estimate_migration_duration phases)
     = ((7 * parallel_count phases + 10 * sequential_nodes phases) / 2)%Z
   ∧ time_savings_percent (_estimate_migration_duration phases)
     = if decide (0 < node_count phases * 5)%Z
       then py_round1
              (float_mul
                 (float_sub (inject_Z 1)
                    (float_div (parallel_sum phases)
                               (inject_Z (node_count phases * 5))))
                 (inject_Z 100))
       else inject_Z 0)
  ∧ ∀ ph, parallel ph = true → length (phase_containers ph) = 3 →
      estimated_sequential_minutes (_estimate_migration_duration [ph]) = 15%Z
      ∧ estimated_parallel_minutes (_estimate_migration_duration [ph]) = 3%Z
      ∧ time_savings_percent (_estimate_migration_duration [ph]) = 767 # 10.
Proof.
  pose proof parallel_minutes_sum as Hsum.
  split.
  - unfold _estimate_migration_duration. simpl.
    rewrite total_containers_fold, Z.add_0_l.
    split; [done|]. split; [done|]. split; [by apply py_int_comp|].
    split.
    + rewrite (py_int_comp _ _ (Hsum phases)). apply py_int_halves.
      unfold parallel_count, sequential_nodes, node_count. lia.
    + unfold base_time_per_container. case_decide; [|done].
      by rewrite (float_div_comp _ (parallel_sum phases) _ _
                    (Hsum phases) (Qeq_refl _)).
  - intros [name cs par desc sp cyc]. simpl. intros -> Hlen.
    destruct cs as [|a [|b [|c [|? ?]]]]; try done.
Qed.
(** *** The estimate in double precision

    On the values of the examples [binary64] is the arithmetic of the
    processor: the literal [0.7] is the double 0x1.6666666666666p-1,
    [5 * 0.7] is the double 3.5, and the quotients, the difference and the
    product of the estimate are the doubles that [float_div], [float_sub]
    and [float_mul] give. *)

Example parallel_efficiency_double :
  double_value 0x1.6666666666666p-1 == parallel_efficiency.
Proof. by vm_compute. Qed.

Example phase_time_double :
  (5 * 0x1.6666666666666p-1 =? 3.5)%float = true
  ∧ double_value (5 * 0x1.6666666666666p-1)
    == float_mul (inject_Z 5) parallel_efficiency.
Proof. split; [reflexivity | by vm_compute]. Qed.

Example savings_double :
  (76.65625 <? (1 - 3.5 / 15) * 100)%float = true
  ∧ ((1 - 3.5 / 15) * 100 <? 76.75)%float = true
  ∧ double_value ((1 - 3.5 / 15) * 100)
    == float_mul (float_sub (inject_Z 1) (float_div (7 # 2) (inject_Z 15)))
                 (inject_Z 100).
Proof. split; [reflexivity|]. split; [reflexivity | by vm_compute]. Qed.

(** Three nodes in a parallel phase and five in a sequential one take 28.5
    of 40 minutes. The exact saving is 28.75 percent, which would round to
    28.8; the double the code computes lies below 28.75, and the function
    returns 28.7. *)
Example mixed_savings_double :
  parallel_sum mixed_phases == 57 # 2
  ∧ estimated_sequential_minutes (_estimate_migration_duration mixed_phases)
    = 40%Z
  ∧ ((1 - 28.5 / 40) * 100 <? 28.75)%float = true
  ∧ double_value ((1 - 28.5 / 40) * 100)
    == float_mul (float_sub (inject_Z 1) (float_div (57 # 2) (inject_Z 40)))
                 (inject_Z 100)
  ∧ time_savings_percent (_estimate_migration_duration mixed_phases)
    = 287 # 10
  ∧ py_round1 ((inject_Z 1 - (57 # 2) / inject_Z 40) * inject_Z 100)
    = 288 # 10.
Proof.
  split; [by vm_compute|]. split; [by vm_compute|]. split; [reflexivity|].
  split; [by vm_compute|]. split; by vm_compute.
Qed.

(** Twenty-seven minutes are 0.45 hours; the double nearest to 0.45 lies
    above it, and the function returns 0.5 where the exact value would tie
    to 0.4. *)
Example half_hour_double :
  parallel_sum half_hour_phases == inject_Z 27
  ∧ double_value (27 / 60) == float_div (inject_Z 27) (inject_Z 60)
  ∧ (45 # 100 < float_div (inject_Z 27) (inject_Z 60))%Q
  ∧ estimated_parallel_hours (_estimate_migration_duration half_hour_phases)
    = 5 # 10
  ∧ py_round1 (inject_Z 27 / inject_Z 60) = 4 # 10.
Proof.
  split; [by vm_compute|]. split; [by vm_compute|]. split; [by vm_compute|].
  split; by vm_compute.
Qed.


Section EmptyGraph.
Context `{SetOrder}.

(** C9, as the code has it. With no recorded fact and an empty inventory no
    stage raises: the graph has no node and no edge, the cycle list and the
    startup order are empty, the sequence has no parallel group and an empty
    sequential order, and its phase list holds one phase, the fallback
    "Phase 1", not parallel and without containers; every estimate is 0. *)
Theorem empty_graph_outputs :
  ∃ g ms,
    plan (analysed [] []) = Ok (g, ms)
    ∧ dg_nodes g = [] ∧ dg_edges g = []
    ∧ dg_cycles g = [] ∧ dg_startup_order g = []
    ∧ phases ms = [Phase "Phase 1" [] false None None None]
    ∧ total_phases ms = 1
    ∧ parallel_groups ms = [] ∧ sequential_order ms = []
    ∧ estimated_sequential_minutes (estimated_duration ms) = 0%Z
    ∧ estimated_parallel_minutes (estimated_duration ms) = 0%Z
    ∧ time_savings_percent (estimated_duration ms) = inject_Z 0.
Proof.
  unfold plan, build_dependency_graph, _calculate_startup_order.
  cbn [analysed foldl all_dependencies new_mapper merge_tracker
       container_dependencies network_dependencies volume_dependencies
       compose_dependencies].
  assert (all_nodes [] = []) as -> by done. rewrite set_iter_nil.
  eexists _, _. split; [reflexivity|]. by repeat split.
Qed.

End EmptyGraph.

(** ** Concrete runs *)

(** The runs below are evaluated with the set order [insertion_order]. *)

Lemma startup_order_respects_dependencies_witness :
  NoDup chain_deps.*1 ∧ acyclic chain_deps
  ∧ ∃ order,
      _calculate_startup_order chain_deps = Some order
      ∧ length order = set_len (all_nodes chain_deps)
      ∧ ∀ source target,
          depends_on chain_deps source target →
          ∃ i j, list_index target order = Some i
                 ∧ list_index source order = Some j ∧ i < j.
Proof.
  assert (NoDup chain_deps.*1) as Hnd
    by (apply (bool_decide_unpack _); vm_compute; exact I).
  assert (acyclic chain_deps) as Hacyc.
  { apply (acyclic_ranked _ chain_rank).
    apply (bool_decide_unpack _). vm_compute. exact I. }
  split; [exact Hnd|]. split; [exact Hacyc|].
  exact (startup_order_respects_dependencies chain_deps Hnd Hacyc).
Defined.

Lemma startup_order_distinct_nodes_witness :
  NoDup chain_deps.*1
  ∧ ∃ order,
      _calculate_startup_order chain_deps = Some order
      ∧ NoDup order
      ∧ ∀ x, x ∈ order →
             x ∈ set_iter (all_nodes chain_deps)
             ∧ (x ∈ chain_deps.*1
                ∨ ∃ source, depends_on chain_deps source x).
Proof.
  assert (NoDup chain_deps.*1) as Hnd
    by (apply (bool_decide_unpack _); vm_compute; exact I).
  split; [exact Hnd|].
  exact (startup_order_distinct_nodes chain_deps Hnd).
Defined.

Lemma cyclic_graph_reported_witness :
  NoDup two_cycle_deps.*1 ∧ cyclic two_cycle_deps
  ∧ (∀ depth, set_len (all_nodes two_cycle_deps) < depth →
              ∃ cs, _detect_cycles_within depth two_cycle_deps = Ok cs
                    ∧ cs ≠ [])
  ∧ (∀ depth, _detect_cycles_within depth two_cycle_deps = RecursionError
              ∨ ∃ cs, _detect_cycles_within depth two_cycle_deps = Ok cs
                      ∧ cs ≠ [])
  ∧ ∃ order,
      _calculate_startup_order two_cycle_deps = Some order
      ∧ length order < set_len (all_nodes two_cycle_deps)
      ∧ ∀ x y, rtc (depends_on two_cycle_deps) x y →
               tc (depends_on two_cycle_deps) y y → x ∉ order.
Proof.
  assert (NoDup two_cycle_deps.*1) as Hnd
    by (apply (bool_decide_unpack _); vm_compute; exact I).
  assert (cyclic two_cycle_deps) as Hcyc.
  { exists "X". apply (tc_l _ _ "Y").
    - apply (depends_on_get _ _ ["Y"]); [reflexivity|].
      apply (bool_decide_unpack _). vm_compute. exact I.
    - apply tc_once. apply (depends_on_get _ _ ["X"]); [reflexivity|].
      apply (bool_decide_unpack _). vm_compute. exact I. }
  split; [exact Hnd|]. split; [exact Hcyc|].
  exact (cyclic_graph_reported two_cycle_deps Hnd Hcyc).
Defined.

(** C4 does not hold as stated: the chain n0, n1, ..., n1000 ends in a cycle
    of two nodes, and [dfs] needs a frame for each of its 1001 nodes before
    it meets the cycle. Python's default limit is 1000 frames in all; with
    room for 1000 nested calls of [dfs], or fewer, the detector raises
    RecursionError and returns no list. *)
Lemma deep_cycle_is_not_reported :
  NoDup (deep_chain 1000).*1 ∧ cyclic (deep_chain 1000)
  ∧ ∀ depth, depth ≤ 1000 →
             _detect_cycles_within depth (deep_chain 1000) = RecursionError.
Proof.
  split; [apply deep_chain_NoDup|]. split.
  { exists (node_name 999). apply (tc_l _ _ (node_name 1000)).
    - apply (depends_on_get _ _ [node_name 1000]);
        [by apply (deep_chain_get 1000 999); lia | left].
    - apply tc_once. apply (depends_on_get _ _ [node_name 999]);
        [apply (deep_chain_get_last 1000) | left]. }
  apply deep_chain_exhausts.
Qed.

(** The scenario of the specification: A depends on B, B depends on C. *)
Example chain_scenario :
  ∃ g ms,
    plan (analysed ["A"; "B"; "C"]
            [Fact "A" "B" ContainerDep; Fact "B" "C" ContainerDep])
    = Ok (g, ms)
    ∧ dg_cycles g = [] ∧ dg_startup_order g = ["C"; "B"; "A"]
    ∧ phase_name <$> phases ms = ["Phase 1"; "Phase 2"; "Phase 3"]
    ∧ phase_containers <$> phases ms = [["C"]; ["B"]; ["A"]].
Proof. eexists _, _. split; [vm_compute; reflexivity|]. by repeat split. Qed.

(** C2, as the code has it. When [dfs] reaches a node that is on the stack,
    the cycle it stores is the path from the first occurrence of that node to
    the end of the path, followed by the node once more. For X→Y, Y→X the
    stored list is [[X, Y, X]], and [[Y, X, Y]] when Y is recorded first. *)
Theorem stored_cycle_repeats_its_start `{SetOrder} :
  (∀ deps fuel node st i,
     node ∈ rec_stack st → list_index node (path st) = Some i →
     dfs (S fuel) deps node st
     = Ok (true, DfsState (cycles st ++ [drop i (path st) ++ [node]])
                          (visited st) (rec_stack st) (path st)))
  ∧ _detect_cycles two_cycle_deps = Ok [["X"; "Y"; "X"]]
  ∧ _detect_cycles two_cycle_deps_rev = Ok [["Y"; "X"; "Y"]].
Proof.
  split; [intros; by apply dfs_on_stack|].
  split; (rewrite detect_cycles_small;
          [vm_compute; reflexivity
          |apply (bool_decide_unpack _); vm_compute; exact I]).
Qed.

Lemma stored_cycle_repeats_its_start_witness :
  "X" ∈ rec_stack on_stack_xy
  ∧ list_index "X" (path on_stack_xy) = Some 0
  ∧ dfs 1 two_cycle_deps "X" on_stack_xy
    = Ok (true, DfsState [["X"; "Y"; "X"]] (visited on_stack_xy)
                         (rec_stack on_stack_xy) (path on_stack_xy)).
Proof.
  assert ("X" ∈ rec_stack on_stack_xy) as Hin
    by (apply (bool_decide_unpack _); vm_compute; exact I).
  split; [exact Hin|]. split; [reflexivity|].
  exact (proj1 stored_cycle_repeats_its_start two_cycle_deps 0 "X"
               on_stack_xy 0 Hin eq_refl).
Defined.

(** C2 does not hold as stated: for X→Y, Y→X the stored list is neither
    [[X, Y]] nor [[Y, X]]. *)
Lemma two_node_cycle_is_not_a_pair :
  _detect_cycles two_cycle_deps ≠ Ok [["X"; "Y"]]
  ∧ _detect_cycles two_cycle_deps ≠ Ok [["Y"; "X"]].
Proof. split; vm_compute; intros [=]. Qed.

(** The warning [build_dependency_graph] logs for the stored cycle names X
    three times: X -> Y -> X -> X. *)
Example logged_two_node_cycle :
  logged_cycle ["X"; "Y"; "X"] = Some ["X"; "Y"; "X"; "X"].
Proof. reflexivity. Qed.

(** C3. A compose service and the service it depends on are given the same
    level: one phase, run in parallel, recorded as free of
    interdependencies. *)
Theorem compose_dependency_shares_a_phase :
  ∃ g ms,
    plan (analysed [] [Fact "web" "db" ComposeDep]) = Ok (g, ms)
    ∧ dg_edges g = [Edge "web" "db" "depends_on"]
    ∧ dg_cycles g = []
    ∧ dg_startup_order g = ["db"; "web"]
    ∧ phases ms
      = [Phase "Phase 1" ["db"; "web"] true
               (Some "Migrate containers with dependency level 0") None None]
    ∧ parallel_groups ms
      = [ParallelGroup 1 ["db"; "web"] "No interdependencies within group"].
Proof. eexists _, _. split; [vm_compute; reflexivity|]. by repeat split. Qed.

(** C5 does not hold as stated: with two containers that depend on each
    other the startup order is empty, and each container is listed both in
    the cycle phase and in the fallback phase. *)
Lemma phases_overlap_in_fallback :
  ∃ g ms,
    plan (analysed ["X"; "Y"]
            [Fact "X" "Y" ContainerDep; Fact "Y" "X" ContainerDep])
    = Ok (g, ms)
    ∧ ∃ ph0 ph1,
        phases ms !! 0 = Some ph0 ∧ phases ms !! 1 = Some ph1
        ∧ "X" ∈ phase_containers ph0 ∧ "X" ∈ phase_containers ph1.
Proof.
  eexists _, _. split; [vm_compute; reflexivity|].
  eexists _, _. split; [reflexivity|]. split; [reflexivity|].
  split; apply (bool_decide_unpack _); vm_compute; exact I.
Qed.

Lemma phases_of_the_sequence_witness :
  ∃ g ms,
    plan (analysed ["X"; "Y"; "B"; "C"] mixed_facts) = Ok (g, ms)
    ∧ dg_cycles g ≠ [] ∧ dg_startup_order g ≠ []
    ∧ NoDup (concat (phase_containers <$> phases ms))
    ∧ ∃ ph rest,
        phases ms = ph :: rest
        ∧ special ph = Some true ∧ parallel ph = false
        ∧ NoDup (phase_containers ph)
        ∧ (∀ x, x ∈ phase_containers ph ↔ ∃ c, c ∈ dg_cycles g ∧ x ∈ c)
        ∧ ∀ ph', ph' ∈ rest → special ph' = None.
Proof.
  destruct (phases_of_the_sequence ["X"; "Y"; "B"; "C"] mixed_facts)
    as (g & ms & Hplan & Hcyc & _ & Hnd & _).
  assert (dg_cycles g ≠ [] ∧ dg_startup_order g ≠ []) as [Hc Ho].
  { assert (∃ g0 ms0,
              plan (analysed ["X"; "Y"; "B"; "C"] mixed_facts) = Ok (g0, ms0)
              ∧ dg_cycles g0 ≠ [] ∧ dg_startup_order g0 ≠ [])
      as (g0 & ms0 & Hrun & Hne).
    { eexists _, _. split; [vm_compute; reflexivity | by split]. }
    rewrite Hrun in Hplan. by injection Hplan as <- <-. }
  exists g, ms. split; [exact Hplan|]. split; [exact Hc|]. split; [exact Ho|].
  split; [apply Hnd; by left | by apply Hcyc].
Defined.

(** C7 does not hold as stated: a fact whose source is its target yields a
    self-loop in the edge list. *)
Lemma self_loop_in_edge_list :
  ∃ g e,
    build_dependency_graph (analysed [] [Fact "a" "a" ComposeDep]) = Ok g
    ∧ e ∈ dg_edges g ∧ edge_from e = edge_to e.
Proof.
  eexists _, (Edge "a" "a" "depends_on"). split; [vm_compute; reflexivity|].
  split; [|done]. simpl. left.
Qed.

Lemma duration_estimate_witness :
  parallel three_node_phase = true
  ∧ length (phase_containers three_node_phase) = 3
  ∧ estimated_sequential_minutes
      (_estimate_migration_duration [three_node_phase]) = 15%Z
  ∧ estimated_parallel_minutes
      (_estimate_migration_duration [three_node_phase]) = 3%Z
  ∧ time_savings_percent
      (_estimate_migration_duration [three_node_phase]) = 767 # 10.
Proof.
  split; [reflexivity|]. split; [reflexivity|].
  exact (proj2 (duration_estimate []) three_node_phase eq_refl eq_refl).
Defined.

(** C8 does not hold as stated: for one parallel phase of three nodes the
    reported parallel estimate is 3, not 3.5. *)
Lemma parallel_estimate_is_truncated :
  estimated_parallel_minutes
    (_estimate_migration_duration [three_node_phase]) = 3%Z
  ∧ ¬ (inject_Z 3 == 7 # 2).
Proof. split; [vm_compute; reflexivity | by intros ?]. Qed.

(** C9 does not hold as stated: the sequence of the empty graph has a
    phase. *)
Lemma empty_graph_has_a_phase :
  ∃ g ms, plan (analysed [] []) = Ok (g, ms) ∧ phases ms ≠ [].
Proof. eexists _, _. split; [vm_compute; reflexivity | done]. Qed.

(** ** Further properties of the detector and the sequencer *)

Section Reach.
Context `{SetOrder}.

(** In a finite set in which every element has a successor, every element
    reaches a cycle. *)
Lemma serial_reach_cycle (R : relation string) (l : list string) :
  (∀ x, x ∈ l → ∃ y, y ∈ l ∧ R x y) →
  ∀ x, x ∈ l → ∃ z, rtc R x z ∧ tc R z z.
Proof.
  remember (length l) as n eqn:Hn. revert R l Hn.
  induction n as [n IH] using lt_wf_ind. intros R l -> Hser x Hx.
  destruct (Hser x Hx) as (y & Hy & Hxy).
  destruct (decide (y = x)) as [->|Hyx].
  { exists x. split; [done | by apply tc_once]. }
  set (l' := filter (λ z, z ≠ x) l).
  assert (∀ z, z ∈ l' ↔ z ∈ l ∧ z ≠ x) as Hl'.
  { intros z. unfold l'. by rewrite list_elem_of_filter, (comm and). }
  assert (length l' < length l) as Hlt.
  { unfold l'. apply length_filter_lt with x; [done | naive_solver]. }
  destruct (IH (length l') Hlt (λ a b, R a b ∨ (R a x ∧ R x b)) l' eq_refl)
    with (x := y) as (z & Hyz & Hcyc).
  - intros a [Ha Hax]%Hl'. destruct (Hser a Ha) as (b & Hb & Hab).
    destruct (decide (b = x)) as [->|Hbx].
    + exists y. split; [by apply Hl' | by right].
    + exists b. split; [by apply Hl' | by left].
  - by apply Hl'.
  - exists z. split; [|by eapply tc_shortcut].
    apply rtc_l with y; [done|].
    clear -Hyz. induction Hyz as [|a b c [Hab|[Hax Hxb]] _ IH]; [done| |].
    + by apply rtc_l with b.
    + apply rtc_l with x; [done|]. by apply rtc_l with b.
Qed.

(** A node that the sequencer leaves out has a dependency that is left out
    as well. *)
Lemma kahn_blocked_successor deps order in_degree x :
  NoDup deps.*1 → kahn_inv deps order [] in_degree →
  x ∈ all_nodes deps → x ∉ order →
  ∃ t, depends_on deps x t ∧ t ∈ all_nodes deps ∧ t ∉ order.
Proof.
  intros Hnd Hinv Hx Hout.
  destruct (filter (λ t, t ∉ order) (deps_of deps x)) as [|t l] eqn:Hf.
  { exfalso. apply Hout.
    assert (pending deps order x = 0) as Hp by (unfold pending; by rewrite Hf).
    pose proof (ki_complete _ _ _ _ Hinv x Hx Hp) as Hin.
    by rewrite app_nil_r in Hin. }
  assert (t ∈ filter (λ t, t ∉ order) (deps_of deps x)) as Ht
    by (rewrite Hf; left).
  apply list_elem_of_filter in Ht as [Ht1 Ht2].
  apply depends_on_deps_of in Ht2; [|done].
  exists t. split; [done|]. split; [|done].
  by apply depends_on_nodes in Ht2 as [_ ?].
Qed.

Lemma kahn_order_blocked deps order in_degree x :
  NoDup deps.*1 → kahn_inv deps order [] in_degree →
  x ∈ all_nodes deps → x ∉ order →
  ∃ y, rtc (depends_on deps) x y ∧ tc (depends_on deps) y y.
Proof.
  intros Hnd Hinv Hx Hout.
  apply serial_reach_cycle
    with (l := filter (λ t, t ∉ order) (set_iter (all_nodes deps))).
  - intros a [Ha1 Ha2%set_iter_elem_1]%list_elem_of_filter.
    destruct (kahn_blocked_successor _ _ _ a Hnd Hinv Ha2 Ha1)
      as (t & Hat & Ht & Hto).
    exists t. split; [|done].
    apply list_elem_of_filter. split; [done | by apply set_iter_elem_2].
  - apply list_elem_of_filter. split; [done | by apply set_iter_elem_2].
Qed.

Lemma release_queue_prefix neighbors in_degree queue :
  ∃ new, (release neighbors in_degree queue).2 = queue ++ new.
Proof.
  revert in_degree queue.
  induction neighbors as [|n l IH]; intros in_degree queue; simpl.
  { exists []. by rewrite app_nil_r. }
  case_decide.
  - destruct (IH (<[n:=(dd_int in_degree n - 1)%Z]> in_degree)
                 (queue ++ [n])) as [new ->].
    exists (n :: new). by rewrite <- app_assoc.
  - apply IH.
Qed.

Lemma kahn_loop_prefix fuel graph in_degree queue order result :
  kahn_loop fuel graph in_degree queue order = Some result →
  ∃ rest, result = order ++ queue ++ rest.
Proof.
  revert in_degree queue order.
  induction fuel as [|fuel IH]; intros in_degree queue order;
    destruct queue as [|node queue]; simpl; try done.
  - intros [= <-]. exists []. by rewrite app_nil_r.
  - intros [= <-]. exists []. by rewrite app_nil_r.
  - intros Hk.
    destruct (release_queue_prefix (dd_list graph node) in_degree queue)
      as [new Hnew].
    rewrite Hnew in Hk. apply IH in Hk as [rest ->].
    exists (new ++ rest). by rewrite <- !app_assoc.
Qed.

End Reach.

Section SimpleCycles.
Context `{SetOrder}.

Lemma dfs_each_simple (f : string → dfs_state → res (bool * dfs_state)) l :
  (∀ node st b st', f node st = Ok (b, st') → path_inv st →
                    path_inv st' ∧ path st' = path st) →
  ∀ st st', dfs_each f l st = Ok st' → path_inv st →
            path_inv st' ∧ path st' = path st.
Proof.
  intros Hf. induction l as [|n l IH]; intros st st'; simpl.
  - by intros [= <-].
  - destruct (f n st) as [[b st1]| |] eqn:Hn; simpl; try done.
    intros Hl Hinv. destruct (Hf _ _ _ _ Hn Hinv) as [Hinv1 Hp1].
    destruct (IH _ _ Hl Hinv1) as [Hinv' Hp']. split; [done | congruence].
Qed.

Lemma dfs_simple deps fuel :
  ∀ node st b st', dfs fuel deps node st = Ok (b, st') → path_inv st →
                   path_inv st' ∧ path st' = path st.
Proof.
  induction fuel as [|fuel IH]; intros node st b st'; simpl; [done|].
  case_decide as Hstack.
  { destruct (list_index node (path st)) as [i|] eqn:Hi; [|done].
    intros [= <- <-] Hinv. split; [|done].
    destruct Hinv as [Hnd Hst Hcyc]. split; simpl; [done..|].
    intros c [Hc| ->%list_elem_of_singleton]%elem_of_app; [by apply Hcyc|].
    apply list_index_lookup in Hi.
    exists node, (drop (S i) (path st)). split.
    - by rewrite (drop_S _ _ _ Hi).
    - rewrite <- (drop_S _ _ _ Hi).
      eapply sublist_NoDup; [exact Hnd | apply sublist_drop]. }
  case_decide as Hvis; [by intros [= <- <-]|].
  destruct (dfs_each _ _ _) as [st2| |] eqn:Heach; simpl; try done.
  intros Hres Hinv.
  assert (path_inv (DfsState (cycles st) ({[node]} ∪ visited st)
                             ({[node]} ∪ rec_stack st) (path st ++ [node])))
    as Hinv1.
  { destruct Hinv as [Hnd Hst Hcyc]. split; simpl; [| |done].
    - apply NoDup_app. split; [done|]. split; [|apply NoDup_singleton].
      intros x Hx ->%list_elem_of_singleton. by apply Hstack, Hst.
    - intros x. rewrite elem_of_union, elem_of_singleton, elem_of_app,
        list_elem_of_singleton, Hst. tauto. }
  destruct (dfs_each_simple _ _ (IH) _ _ Heach Hinv1) as [Hinv2 Hp2].
  simpl in Hp2. case_decide; [|done].
  rewrite Hp2, snoc_match in Hres. injection Hres as <- <-.
  rewrite removelast_last. split; [|done].
  destruct Hinv2 as [Hnd2 Hst2 Hcyc2]. rewrite Hp2 in Hnd2.
  apply NoDup_app in Hnd2 as (Hnd & Hnot & _).
  split; simpl; [done| |done].
  intros x. rewrite elem_of_difference, Hst2, Hp2, elem_of_app,
    list_elem_of_singleton, elem_of_singleton.
  split; [tauto|]. intros Hx. split; [by left|].
  intros ->. by apply (Hnot node Hx), list_elem_of_singleton.
Qed.

Lemma dfs_roots_simple deps fuel keys :
  ∀ st st', dfs_roots fuel deps keys st = Ok st' → path_inv st →
            path_inv st'.
Proof.
  induction keys as [|k keys IH]; intros st st'; simpl.
  - by intros [= <-].
  - case_decide; [apply IH|].
    destruct (dfs fuel deps k st) as [[b st1]| |] eqn:Hk; simpl; try done.
    intros Hr Hinv. apply (IH _ _ Hr).
    by destruct (dfs_simple _ _ _ _ _ _ Hk Hinv).
Qed.

Lemma path_inv_init : path_inv (DfsState [] ∅ ∅ []).
Proof.
  split; simpl.
  - constructor.
  - intros x. split; [intros []%not_elem_of_empty | intros []%not_elem_of_nil].
  - intros c []%not_elem_of_nil.
Qed.

Lemma simple_cycle_length c (l : list string) :
  simple_cycle c → (∀ x, x ∈ c → x ∈ l) → NoDup l → length c ≤ S (length l).
Proof.
  intros (node & mid & -> & Hnd) Hl Hl'.
  assert (length (node :: mid) ≤ length l) as Hle.
  { apply submseteq_length, NoDup_submseteq; [done|].
    intros x Hx. apply Hl. rewrite app_comm_cons. apply elem_of_app. by left. }
  simpl in *. rewrite length_app. simpl. lia.
Qed.

End SimpleCycles.

Section DetectorSequencer.
Context `{SetOrder}.

(** X1. When the interpreter has room for more nested calls of [dfs] than
    the graph has nodes, [_detect_cycles] returns a list; and whenever it
    returns a list, the list is empty exactly when the dependency map has no
    cycle: no cycle is reported on an acyclic map, and a cycle is never
    missed. *)
Theorem no_cycle_reported_iff_acyclic deps :
  NoDup deps.*1 →
  (∀ depth, set_len (all_nodes deps) < depth →
            ∃ cs, _detect_cycles_within depth deps = Ok cs)
  ∧ ∀ depth cs, _detect_cycles_within depth deps = Ok cs →
                (cs = [] ↔ acyclic deps).
Proof.
  intros Hnd.
  destruct (detect_cycles_spec deps Hnd) as (cs & Hcs & Hwalk & Hcyc).
  split.
  { intros depth Hdepth. exists cs.
    by rewrite detect_cycles_within_enough. }
  intros depth cs' Hw.
  destruct (detect_cycles_within_cases deps depth Hnd) as [Hrec|Heq];
    [by rewrite Hw in Hrec|].
  rewrite Hw, Hcs in Heq. injection Heq as ->. split.
  - intros -> node Hnode. by apply Hcyc; [exists node|].
  - intros Hacyc. destruct cs as [|c cs]; [done|]. exfalso.
    assert (closed_walk deps c) as Hc by (apply Hwalk; left).
    destruct Hc as [Hchain (node & mid & ->)].
    apply (Hacyc node).
    apply (closed_walk_tc deps (node :: mid ++ [node])); [|left].
    split; [done | by exists node, mid].
Qed.

(** X2. In the graph that [build_dependency_graph] stores, every node of a
    reported cycle is a node of the graph that lies on a cycle of the merged
    dependency map, and no such node is in the startup order. *)
Theorem cycle_nodes_are_left_out (m : Mapper) :
  ∃ g,
    build_dependency_graph m = Ok g
    ∧ ∀ c x, c ∈ dg_cycles g → x ∈ c →
             x ∈ dg_nodes g
             ∧ tc (depends_on (all_dependencies m)) x x
             ∧ x ∉ dg_startup_order g.
Proof.
  destruct (build_dependency_graph_total m)
    as (g & Hg & Hnodes & _ & Hcs & Hord).
  exists g. split; [done|]. intros c x Hc Hx.
  pose proof (all_dependencies_NoDup m) as Hnd.
  destruct (detect_cycles_spec _ Hnd) as (cs & Hcs' & Hwalk & _).
  rewrite Hcs in Hcs'. injection Hcs' as <-.
  destruct (startup_order_total _ Hnd) as (order & in_degree & Hord' & Hinv).
  rewrite Hord in Hord'. injection Hord' as <-.
  assert (tc (depends_on (all_dependencies m)) x x) as Hcyc
    by (eapply closed_walk_tc; [by apply Hwalk | done]).
  split; [|split; [done|]].
  - rewrite Hnodes. apply set_iter_elem_2. by eapply tc_depends_on_node.
  - by eapply kahn_order_no_cycle.
Qed.

(** X3. The nodes of the startup order are exactly the nodes of the graph
    from which no cycle can be reached along dependency edges: a node is
    left out if and only if it lies on a cycle or depends, directly or
    through other nodes, on a node that does. *)
Theorem startup_order_membership deps :
  NoDup deps.*1 →
  ∃ order,
    _calculate_startup_order deps = Some order
    ∧ ∀ x, x ∈ order
           ↔ x ∈ all_nodes deps
             ∧ ¬ ∃ y, rtc (depends_on deps) x y ∧ tc (depends_on deps) y y.
Proof.
  intros Hnd.
  destruct (startup_order_total deps Hnd) as (order & in_degree & Hord & Hinv).
  exists order. split; [done|]. intros x. split.
  - intros Hx. split; [by eapply kahn_order_nodes|].
    intros (y & Hxy & Hy).
    apply rtc_tc in Hxy as [<-|Hxy].
    + by eapply kahn_order_no_cycle.
    + destruct (proj1 (list_elem_of_lookup _ _) Hx) as [j Hj].
      destruct (kahn_order_before _ _ _ _ _ _ Hnd Hinv Hxy Hj) as (i & _ & Hi).
      eapply kahn_order_no_cycle; [done..|].
      by eapply list_elem_of_lookup_2.
  - intros [Hx Hfree]. destruct (decide (x ∈ order)) as [|Hout]; [done|].
    exfalso. apply Hfree. by eapply kahn_order_blocked.
Qed.

(** X4. Whether or not the map has cycles, the startup order is closed
    under dependencies: everything a listed node depends on, directly or
    through other nodes, is listed as well, at a smaller index. *)
Theorem listed_dependencies_come_first deps :
  NoDup deps.*1 →
  ∃ order,
    _calculate_startup_order deps = Some order
    ∧ ∀ s t, s ∈ order → tc (depends_on deps) s t →
             ∃ i j, list_index t order = Some i
                    ∧ list_index s order = Some j ∧ i < j.
Proof.
  intros Hnd.
  destruct (startup_order_total deps Hnd) as (order & in_degree & Hord & Hinv).
  exists order. split; [done|]. intros s t Hs Hst.
  pose proof (kahn_order_NoDup _ _ _ Hinv) as Hnodup.
  destruct (proj1 (list_elem_of_lookup _ _) Hs) as [j Hj].
  destruct (kahn_order_before _ _ _ _ _ _ Hnd Hinv Hst Hj) as (i & Hij & Hi).
  exists i, j.
  by rewrite (lookup_list_index t order i), (lookup_list_index s order j).
Qed.

(** X5. The startup order begins with the nodes that have no dependency at
    all, in the order in which the node set is enumerated; the nodes that
    have dependencies follow. *)
Theorem free_nodes_come_first deps :
  NoDup deps.*1 →
  ∃ order rest,
    _calculate_startup_order deps = Some order
    ∧ order = filter (λ node, deps_of deps node = [])
                     (set_iter (all_nodes deps)) ++ rest.
Proof.
  intros Hnd.
  destruct (startup_order_total deps Hnd) as (order & in_degree & Hord & _).
  pose proof Hord as Hk. unfold _calculate_startup_order in Hk.
  apply kahn_loop_prefix in Hk as [rest Hrest].
  exists order, rest. split; [done|]. rewrite Hrest. simpl. f_equal.
  apply filter_ext_elem. intros x _.
  destruct (reverse_graph_spec deps Hnd) as [_ ->].
  destruct (deps_of deps x); simpl; [done | split; [lia | done]].
Qed.

End DetectorSequencer.

Section Cycles.
Context `{SetOrder}.

(** X6. The only exception [_detect_cycles] can raise is RecursionError:
    [path.index], [rec_stack.remove] and [path.pop] never fail, and with room
    for more nested calls of [dfs] than the graph has nodes a list is
    returned. Every cycle of a returned list is a simple cycle of the
    dependency map: consecutive entries are joined by dependency edges, the
    last entry repeats the first, no other node occurs twice, and the list
    is at most one longer than the number of nodes. *)
Theorem reported_cycles_are_simple deps :
  NoDup deps.*1 →
  (∀ depth e, _detect_cycles_within depth deps ≠ Raise e)
  ∧ (∀ depth, set_len (all_nodes deps) < depth →
              ∃ cs, _detect_cycles_within depth deps = Ok cs)
  ∧ ∀ depth cs,
      _detect_cycles_within depth deps = Ok cs →
      ∀ c, c ∈ cs →
           chain (depends_on deps) c
           ∧ (∃ node mid, c = node :: mid ++ [node] ∧ NoDup (node :: mid))
           ∧ length c ≤ S (set_len (all_nodes deps)).
Proof.
  intros Hnd. destruct (detect_cycles_spec deps Hnd) as (cs & Hcs & Hwalk & _).
  split.
  { intros depth e He.
    destruct (detect_cycles_within_cases deps depth Hnd) as [Hrec|Heq].
    - by rewrite He in Hrec.
    - by rewrite He, Hcs in Heq. }
  split.
  { intros depth Hdepth. exists cs.
    by rewrite detect_cycles_within_enough. }
  intros depth cs' Hw c Hc.
  assert (simple_cycle c) as Hsimple.
  { unfold _detect_cycles_within in Hw.
    destruct (dfs_roots _ _ _ _) as [st| |] eqn:Hroots; simpl in Hw; try done.
    injection Hw as <-.
    by apply (pi_cycles _ (dfs_roots_simple _ _ _ _ _ Hroots path_inv_init)). }
  destruct (detect_cycles_within_cases deps depth Hnd) as [Hrec|Heq];
    [by rewrite Hw in Hrec|].
  rewrite Hw, Hcs in Heq. injection Heq as ->.
  split; [by apply Hwalk|]. split; [done|].
  apply simple_cycle_length; [done| |apply set_iter_NoDup].
  intros x Hx. apply set_iter_elem_2.
  eapply tc_depends_on_node, closed_walk_tc; [by apply Hwalk | done].
Qed.

End Cycles.

(** ** Further properties of the planner *)

Section Levels.
Context `{SetOrder}.

Lemma raise_level_next processed table deps level0 :
  next_level table level0 →
  next_level table (foldl (raise_level processed table) level0 deps).
Proof.
  revert level0. induction deps as [|d deps IH]; intros level0 H0; [done|].
  simpl. apply IH. unfold raise_level. case_decide; [|done].
  destruct (level_of table d) as [lvl|] eqn:Hd; [|done].
  destruct (Nat.max_spec level0 (lvl + 1)) as [[_ ->]|[_ ->]]; [|done].
  right. exists lvl. split; [by eapply level_of_key | done].
Qed.

Lemma level_get_append level node table l :
  level_get (level_append level node table) l
  = if decide (l = level)
    then level_get table level ++ [node]
    else level_get table l.
Proof.
  induction table as [|[lvl cs] table IH]; simpl.
  - repeat case_decide; congruence.
  - repeat (case_decide; simpl); try congruence.
Qed.

Lemma level_append_ok level node table :
  levels_ok table → next_level table level →
  levels_ok (level_append level node table).
Proof.
  intros (Hnd & Hdown & Hne) Hnext. split; [by apply level_append_NoDup|].
  split.
  - intros l l' Hl Hl'. apply level_append_keys.
    apply level_append_keys in Hl as [Hl| ->].
    { left. by eapply Hdown. }
    destruct Hnext as [->|(lvl & Hlvl & ->)]; [lia|].
    destruct (decide (l' = lvl)) as [->|]; [by left|].
    left. apply (Hdown lvl); [done | lia].
  - intros l Hl. rewrite level_get_append. case_decide as Heq.
    + by intros [? ?]%app_eq_nil.
    + apply Hne. by apply level_append_keys in Hl as [?|?].
Qed.

Lemma place_nodes_ok cdeps order table processed :
  levels_ok table →
  levels_ok (foldl (place_node cdeps) (table, processed) order).1.
Proof.
  revert table processed.
  induction order as [|node order IH]; intros table processed Hok; [done|].
  simpl. apply IH. apply level_append_ok; [done|].
  apply raise_level_next. by left.
Qed.

Lemma group_by_level_ok cdeps order : levels_ok (group_by_level cdeps order).
Proof.
  apply place_nodes_ok. split; [constructor|].
  split; [intros l l' []%not_elem_of_nil | intros l []%not_elem_of_nil].
Qed.

Lemma Sorted_seq j n : Sorted (≤) (seq j n).
Proof.
  revert j. induction n as [|n IH]; intros j; simpl; [constructor|].
  constructor; [apply IH|]. destruct n; simpl; constructor. lia.
Qed.

(** Sorting distinct numbers that leave no gap gives the initial segment. *)
Lemma merge_sort_segment (l : list nat) :
  NoDup l → (∀ a b, a ∈ l → b < a → b ∈ l) →
  merge_sort (≤) l = seq 0 (length l).
Proof.
  intros Hnd Hdown.
  assert (∀ a, a ∈ l → a < length l) as Hlt.
  { intros a Ha.
    assert (seq 0 (S a) ⊆+ l) as Hsub.
    { apply NoDup_submseteq; [apply NoDup_seq|].
      intros b [_ Hb]%elem_of_seq.
      destruct (decide (b = a)) as [->|]; [done|].
      apply (Hdown a); [done | lia]. }
    apply submseteq_length in Hsub. rewrite length_seq in Hsub. lia. }
  assert (l ≡ₚ seq 0 (length l)) as Hperm.
  { apply submseteq_length_Permutation; [|by rewrite length_seq].
    apply NoDup_submseteq; [done|].
    intros a Ha. apply elem_of_seq. split; [lia | by apply Hlt]. }
  apply (Sorted_unique (≤)).
  - apply (Sorted_merge_sort (≤)).
  - apply Sorted_seq.
  - by rewrite merge_sort_Permutation.
Qed.

Lemma sorted_levels_segment cdeps order :
  sorted_levels (group_by_level cdeps order)
  = seq 0 (length (group_by_level cdeps order)).
Proof.
  destruct (group_by_level_ok cdeps order) as (Hnd & Hdown & _).
  unfold sorted_levels. rewrite merge_sort_segment; [|done..].
  by rewrite length_fmap.
Qed.

Lemma group_by_level_nil cdeps order :
  group_by_level cdeps order = [] → order = [].
Proof.
  intros Hnil. destruct (group_by_level_spec cdeps order) as [_ Hperm].
  rewrite Hnil in Hperm. simpl in Hperm. by apply Permutation_nil_l in Hperm.
Qed.

Lemma level_group_spec table level pg :
  pg ∈ level_group table level
  ↔ 1 < length (level_get table level)
    ∧ pg = ParallelGroup (level + 1) (level_get table level)
                         "No interdependencies within group".
Proof.
  unfold level_group. case_decide.
  - rewrite list_elem_of_singleton. tauto.
  - split; [intros []%not_elem_of_nil | tauto].
Qed.

(** Without container dependencies every node is placed on level 0. *)
Lemma place_nodes_flat order cs (processed : gset string) :
  (foldl (place_node []) ([(0, cs)], processed) order).1 = [(0, cs ++ order)].
Proof.
  revert cs processed.
  induction order as [|node order IH]; intros cs processed; simpl.
  { by rewrite app_nil_r. }
  unfold place_node at 2. simpl. unfold dict_get_set. simpl.
  rewrite set_iter_nil. simpl. rewrite IH. by rewrite <- app_assoc.
Qed.

Lemma group_by_level_flat node order :
  group_by_level [] (node :: order) = [(0, node :: order)].
Proof.
  unfold group_by_level. simpl. unfold place_node at 2. simpl.
  unfold dict_get_set. simpl. rewrite set_iter_nil. simpl.
  by rewrite place_nodes_flat.
Qed.

End Levels.

Section PlannerProperties.
Context `{SetOrder}.

Lemma filter_fmap_all {A B} (P : B → Prop) `{!∀ x, Decision (P x)}
    (f : A → B) (l : list A) :
  (∀ x, P (f x)) → filter P (f <$> l) = f <$> l.
Proof.
  intros Hf. induction l as [|x l IH]; [done|].
  rewrite fmap_cons, filter_cons_True by done. by rewrite IH.
Qed.

Lemma generate_parallel_groups m g :
  parallel_groups (generate_migration_sequence m g)
  = match dg_startup_order g with
    | [] => []
    | _ =>
        concat
          (level_group
             (group_by_level (container_dependencies m) (dg_startup_order g))
           <$> sorted_levels
                 (group_by_level (container_dependencies m)
                                 (dg_startup_order g)))
    end.
Proof.
  unfold generate_migration_sequence. by destruct (dg_startup_order g).
Qed.

Lemma special_phases_filtered m g :
  filter (λ ph, special ph = None) (phases (generate_migration_sequence m g))
  = match dg_startup_order g with
    | [] => [Phase "Phase 1" (containers m) false None None None]
    | _ =>
        level_phase
          (group_by_level (container_dependencies m) (dg_startup_order g))
        <$> sorted_levels
              (group_by_level (container_dependencies m)
                              (dg_startup_order g))
    end.
Proof.
  rewrite generate_phases, filter_app.
  assert (filter (λ ph, special ph = None)
            match dg_cycles g, concat (dg_cycles g) with
            | _ :: _, _ :: _ =>
                [cycle_phase (concat (dg_cycles g)) (dg_cycles g)]
            | _, _ => []
            end = []) as ->.
  { destruct (dg_cycles g) as [|c cs]; [done|].
    by destruct (concat (c :: cs)). }
  destruct (dg_startup_order g); [done|].
  simpl. by apply filter_fmap_all.
Qed.

Lemma sorted_levels_elem table level :
  level ∈ sorted_levels table ↔ level ∈ table.*1.
Proof. unfold sorted_levels. by rewrite merge_sort_Permutation. Qed.

(** X7. When the startup order is not empty, the phases built from it are
    named "Phase 1", "Phase 2", ... without a gap, there is at least one of
    them, and no phase of the sequence is without containers. *)
Theorem level_phases_are_numbered (m : Mapper) (g : dependency_graph) :
  dg_startup_order g ≠ [] →
  ∃ n,
    0 < n
    ∧ phase_name
      <$> filter (λ ph, special ph = None)
                 (phases (generate_migration_sequence m g))
      = (λ i, "Phase " +:+ pretty (i + 1)) <$> seq 0 n
    ∧ ∀ ph, ph ∈ phases (generate_migration_sequence m g) →
            phase_containers ph ≠ [].
Proof.
  intros Hne.
  pose proof (sorted_levels_segment (container_dependencies m)
                                    (dg_startup_order g)) as Hseg.
  exists (length (group_by_level (container_dependencies m)
                                 (dg_startup_order g))).
  split; [|split].
  - destruct (group_by_level _ _) eqn:Ht; [|simpl; lia].
    by apply group_by_level_nil in Ht.
  - rewrite special_phases_filtered.
    destruct (dg_startup_order g) eqn:Hord; [done|].
    rewrite Hseg. by rewrite <- list_fmap_compose.
  - intros ph. rewrite generate_phases, elem_of_app. intros [Hph|Hph].
    + destruct (dg_cycles g) as [|c cs] eqn:Hcs;
        [by apply not_elem_of_nil in Hph|].
      destruct (concat (c :: cs)) as [|x l] eqn:Hcc;
        [by apply not_elem_of_nil in Hph|].
      apply list_elem_of_singleton in Hph as ->. simpl. intros Hnil.
      assert (x ∈ set_iter (x :: l)) as Hx by (apply set_iter_elem_2; left).
      rewrite Hnil in Hx. by apply not_elem_of_nil in Hx.
    + destruct (dg_startup_order g) eqn:Hord; [done|]. rewrite <- Hord in Hph.
      apply list_elem_of_fmap in Hph as (level & -> & Hlevel). simpl.
      apply sorted_levels_elem in Hlevel.
      destruct (group_by_level_ok (container_dependencies m)
                                  (dg_startup_order g)) as (_ & _ & Hget).
      by apply Hget.
Qed.

(** X8. A phase is marked parallel only if it holds more than one
    container, and the parallel groups are the parallel phases: each
    parallel phase has a group with its number and its containers, and each
    group comes from such a phase. *)
Theorem parallel_groups_match_parallel_phases
    (m : Mapper) (g : dependency_graph) :
  (∀ ph, ph ∈ phases (generate_migration_sequence m g) →
         parallel ph = true →
         1 < length (phase_containers ph)
         ∧ ∃ pg, pg ∈ parallel_groups (generate_migration_sequence m g)
                 ∧ group_containers pg = phase_containers ph
                 ∧ phase_name ph = "Phase " +:+ pretty (group_phase pg))
  ∧ (∀ pg, pg ∈ parallel_groups (generate_migration_sequence m g) →
           1 < length (group_containers pg)
           ∧ ∃ ph, ph ∈ phases (generate_migration_sequence m g)
                   ∧ parallel ph = true
                   ∧ phase_containers ph = group_containers pg
                   ∧ phase_name ph = "Phase " +:+ pretty (group_phase pg)).
Proof.
  split.
  - intros ph. rewrite generate_phases, generate_parallel_groups, elem_of_app.
    intros [Hph|Hph] Hpar.
    { destruct (dg_cycles g) as [|c cs]; [by apply not_elem_of_nil in Hph|].
      destruct (concat (c :: cs)); [by apply not_elem_of_nil in Hph|].
      by apply list_elem_of_singleton in Hph as ->. }
    destruct (dg_startup_order g) eqn:Hord.
    { by apply list_elem_of_singleton in Hph as ->. }
    rewrite <- Hord in *.
    apply list_elem_of_fmap in Hph as (level & -> & Hlevel).
    simpl in Hpar. apply bool_decide_eq_true in Hpar. split; [done|].
    exists (ParallelGroup
              (level + 1)
              (level_get (group_by_level (container_dependencies m)
                                         (dg_startup_order g)) level)
              "No interdependencies within group").
    split; [|done].
    apply elem_of_concat. eexists. split; [|by apply list_elem_of_fmap_2].
    by apply level_group_spec.
  - intros pg. rewrite generate_phases, generate_parallel_groups.
    destruct (dg_startup_order g) eqn:Hord; [by intros ?%not_elem_of_nil|].
    rewrite <- Hord.
    intros (grp & Hpg
            & (level & -> & Hlevel)%list_elem_of_fmap)%elem_of_concat.
    apply level_group_spec in Hpg as [Hlen ->]. split; [done|].
    exists (level_phase (group_by_level (container_dependencies m)
                                        (dg_startup_order g)) level).
    split.
    { apply elem_of_app. right. by apply list_elem_of_fmap_2. }
    simpl. split; [by apply bool_decide_eq_true|done].
Qed.

Lemma foldl_record_other_tracker m facts k :
  (∀ f, f ∈ facts → kind f ≠ k) →
  tracker_of (foldl record_fact m facts) k = tracker_of m k.
Proof.
  revert m. induction facts as [|f facts IH]; intros m Hk; [done|].
  simpl. rewrite IH by (intros f' Hf'; apply Hk; by right).
  rewrite record_fact_tracker, decide_False; [done|].
  intros ->. by apply (Hk f); [left|].
Qed.

(** X9. When no relationship was recorded in the container tracker (all of
    them come from shared networks, shared volumes or compose files), the
    planner puts the whole startup order into one phase, "Phase 1", whatever
    the dependencies among its nodes; the phase is marked parallel as soon
    as it holds two containers. Only the phase kept for cycles can stand
    beside it. *)
Theorem other_trackers_give_one_phase
    (inventory : list string) (facts : list fact) :
  (∀ f, f ∈ facts → kind f ≠ ContainerDep) →
  ∃ g ms,
    plan (analysed inventory facts) = Ok (g, ms)
    ∧ (dg_startup_order g ≠ [] →
       filter (λ ph, special ph = None) (phases ms)
       = [Phase "Phase 1" (dg_startup_order g)
                (bool_decide (1 < length (dg_startup_order g)))
                (Some "Migrate containers with dependency level 0")
                None None]).
Proof.
  intros Hkind.
  destruct (plan_total (analysed inventory facts)) as (g & _ & Hplan & _).
  eexists _, _. split; [exact Hplan|]. intros Hne.
  rewrite special_phases_filtered.
  assert (container_dependencies (analysed inventory facts) = []) as ->.
  { change (tracker_of (analysed inventory facts) ContainerDep = []).
    unfold analysed.
    by rewrite foldl_record_other_tracker, foldl_register_tracker. }
  destruct (dg_startup_order g) as [|node order]; [done|].
  by rewrite group_by_level_flat.
Qed.

End PlannerProperties.

(** ** Further properties of the estimator *)

Lemma estimate_minutes phases :
  estimated_sequential_minutes (_estimate_migration_duration phases)
  = (node_count phases * 5)%Z
  ∧ estimated_parallel_minutes (_estimate_migration_duration phases)
    = ((7 * parallel_count phases + 10 * sequential_nodes phases) / 2)%Z.
Proof.
  unfold _estimate_migration_duration. simpl.
  rewrite total_containers_fold, Z.add_0_l. split; [done|].
  rewrite (py_int_comp _ (parallel_sum phases)).
  - apply py_int_halves.
    unfold parallel_count, sequential_nodes, node_count. lia.
  - rewrite parallel_minutes_fold. ring.
Qed.

Lemma estimate_savings phases :
  time_savings_percent (_estimate_migration_duration phases)
  = if decide (0 < node_count phases * 5)%Z
    then py_round1
           (float_mul
              (float_sub (inject_Z 1)
                 (float_div (parallel_sum phases)
                            (inject_Z (node_count phases * 5))))
              (inject_Z 100))
    else inject_Z 0.
Proof.
  unfold _estimate_migration_duration. simpl.
  rewrite total_containers_fold, Z.add_0_l.
  unfold base_time_per_container. case_decide; [|done].
  by rewrite (float_div_comp _ (parallel_sum phases) _ _
                (parallel_minutes_sum phases) (Qeq_refl _)).
Qed.

Lemma node_count_split phases :
  node_count phases
  = (node_count (filter (λ ph, parallel ph = true) phases)
     + sequential_nodes phases)%Z.
Proof.
  unfold sequential_nodes.
  induction phases as [|ph phases IH]; [done|].
  rewrite !filter_cons, node_count_cons. destruct (parallel ph) eqn:Hp.
  - rewrite decide_True, decide_False by done. rewrite node_count_cons. lia.
  - rewrite decide_False, decide_True by done. rewrite node_count_cons. lia.
Qed.

Lemma parallel_count_le phases :
  Forall (λ ph, parallel ph = true → phase_containers ph ≠ []) phases →
  (parallel_count phases
   ≤ node_count (filter (λ ph, parallel ph = true) phases))%Z.
Proof.
  unfold parallel_count.
  induction 1 as [|ph phases Hph _ IH]; [done|].
  rewrite filter_cons. case_decide as Hp; [|done].
  rewrite node_count_cons. simpl.
  destruct (phase_containers ph); [by destruct (Hph Hp)|]. simpl. lia.
Qed.

Lemma parallel_sum_bounds phases :
  Forall (λ ph, parallel ph = true → phase_containers ph ≠ []) phases →
  (0 <= parallel_sum phases)%Q
  ∧ (parallel_sum phases <= inject_Z (node_count phases * 5))%Q.
Proof.
  intros Hall. apply parallel_count_le in Hall.
  pose proof (node_count_split phases) as Hsplit.
  assert (0 ≤ parallel_count phases)%Z by (unfold parallel_count; lia).
  assert (0 ≤ sequential_nodes phases)%Z
    by (unfold sequential_nodes, node_count; lia).
  unfold parallel_sum, Qle, inject_Z. cbn [Qnum Qden]. lia.
Qed.

Lemma py_round1_bounds x :
  (0 <= x)%Q → (x <= 100)%Q →
  (0 <= py_round1 x)%Q ∧ (py_round1 x <= 100)%Q.
Proof.
  intros H0 H100. unfold py_round1.
  set (y := (x * inject_Z 10)%Q).
  assert (0 <= y)%Q as Hy0 by (unfold y; change (inject_Z 10) with 10%Q; lra).
  assert (y <= 1000)%Q as Hy1
    by (unfold y; change (inject_Z 10) with 10%Q; lra).
  pose proof (Qfloor_le y) as Hfl.
  assert (0 ≤ Qfloor y)%Z as Ht0 by (by apply (Qfloor_resp_le 0 y)).
  assert (Qfloor y ≤ 1000)%Z as Ht1 by (by apply (Qfloor_resp_le y 1000)).
  assert (∀ tenths, (0 ≤ tenths ≤ 1000)%Z →
                    (0 <= tenths # 10)%Q ∧ (tenths # 10 <= 100)%Q) as Hok.
  { intros tenths ?. unfold Qle. simpl. lia. }
  assert ((1 <= (y - inject_Z (Qfloor y)) * inject_Z 2)%Q →
          (Qfloor y + 1 ≤ 1000)%Z) as Hup.
  { intros Hhalf. destruct (decide (Qfloor y = 1000%Z)) as [Heq|]; [|lia].
    exfalso. rewrite Heq in Hhalf.
    change (inject_Z 1000) with 1000%Q in Hhalf.
    change (inject_Z 2) with 2%Q in Hhalf. lra. }
  destruct (Qcompare_spec ((y - inject_Z (Qfloor y)) * inject_Z 2)
                          (inject_Z 1)) as [Heq|Hlt|Hgt].
  - destruct (Z.even (Qfloor y)); apply Hok; [lia|].
    split; [lia|]. apply Hup. rewrite Heq. by change (1 <= 1)%Q.
  - apply Hok. lia.
  - apply Hok. split; [lia|]. apply Hup. by apply Qlt_le_weak.
Qed.

Lemma savings_value_bounds (p : Q) (s : Z) :
  (0 < s)%Z → (0 <= p)%Q → (p <= inject_Z s)%Q →
  (0 <= float_mul (float_sub (inject_Z 1) (float_div p (inject_Z s)))
                  (inject_Z 100))%Q
  ∧ (float_mul (float_sub (inject_Z 1) (float_div p (inject_Z s)))
               (inject_Z 100) <= 100)%Q.
Proof.
  intros Hs Hp0 Hps.
  assert (0 < inject_Z s)%Q as Hs' by (unfold Qlt; simpl; lia).
  assert (0 <= p / inject_Z s)%Q as Hr0.
  { apply Qle_shift_div_l; [done|]. by rewrite Qmult_0_l. }
  assert (p / inject_Z s <= 1)%Q as Hr1.
  { apply Qle_shift_div_r; [done|]. by rewrite Qmult_1_l. }
  pose proof (binary64_nonneg _ Hr0) as Hq0.
  pose proof (binary64_le_1 _ Hr0 Hr1) as Hq1.
  fold (float_div p (inject_Z s)) in Hq0, Hq1.
  set (ratio := float_div p (inject_Z s)) in *.
  assert (0 <= inject_Z 1 - ratio)%Q as Hd0
    by (change (inject_Z 1) with 1%Q; lra).
  assert (inject_Z 1 - ratio <= 1)%Q as Hd1
    by (change (inject_Z 1) with 1%Q; lra).
  pose proof (binary64_nonneg _ Hd0) as He0.
  pose proof (binary64_le_1 _ Hd0 Hd1) as He1.
  fold (float_sub (inject_Z 1) ratio) in He0, He1.
  set (saved := float_sub (inject_Z 1) ratio) in *.
  assert (0 <= saved * inject_Z 100)%Q as Hv0
    by (change (inject_Z 100) with 100%Q; lra).
  assert (saved * inject_Z 100 <= 100)%Q as Hv1
    by (change (inject_Z 100) with 100%Q; lra).
  split; [by apply binary64_nonneg | by apply binary64_le_100].
Qed.

Lemma estimate_minutes_bounds phases :
  Forall (λ ph, parallel ph = true → phase_containers ph ≠ []) phases →
  (0 ≤ estimated_parallel_minutes (_estimate_migration_duration phases)
   ≤ estimated_sequential_minutes (_estimate_migration_duration phases))%Z.
Proof.
  intros Hall. destruct (estimate_minutes phases) as [-> ->].
  pose proof (parallel_count_le _ Hall).
  pose proof (node_count_split phases).
  assert (0 ≤ parallel_count phases)%Z by (unfold parallel_count; lia).
  assert (0 ≤ sequential_nodes phases)%Z
    by (unfold sequential_nodes, node_count; lia).
  split; [apply Z.div_pos; lia|].
  apply Z.div_le_upper_bound; lia.
Qed.

Lemma estimate_savings_bounds phases :
  Forall (λ ph, parallel ph = true → phase_containers ph ≠ []) phases →
  (0 <= time_savings_percent (_estimate_migration_duration phases))%Q
  ∧ (time_savings_percent (_estimate_migration_duration phases) <= 100)%Q.
Proof.
  intros Hall. rewrite estimate_savings.
  case_decide as Hpos; [|done].
  destruct (parallel_sum_bounds _ Hall) as [Hp0 Hp1].
  destruct (savings_value_bounds _ _ Hpos Hp0 Hp1) as [Hv0 Hv1].
  by apply py_round1_bounds.
Qed.

Lemma sequential_minutes_equal phases :
  Forall (λ ph, parallel ph = false) phases →
  parallel_count phases = 0%Z
  ∧ estimated_parallel_minutes (_estimate_migration_duration phases)
    = estimated_sequential_minutes (_estimate_migration_duration phases).
Proof.
  intros Hall.
  assert (filter (λ ph, parallel ph = true) phases = []) as Hnone.
  { induction Hall as [|ph phases Hph _ IH]; [done|].
    rewrite filter_cons, decide_False by congruence. done. }
  pose proof (node_count_split phases) as Hsplit. rewrite Hnone in Hsplit.
  change (node_count []) with 0%Z in Hsplit.
  assert (parallel_count phases = 0%Z) as Hpc
    by (unfold parallel_count; by rewrite Hnone).
  split; [done|]. destruct (estimate_minutes phases) as [-> ->]. rewrite Hpc.
  replace (7 * 0 + 10 * sequential_nodes phases)%Z
    with (node_count phases * 5 * 2)%Z by lia.
  by rewrite Z.div_mul.
Qed.

Section PlanEstimate.
Context `{SetOrder}.

Lemma generated_parallel_phases m g :
  Forall (λ ph, parallel ph = true → phase_containers ph ≠ [])
         (phases (generate_migration_sequence m g)).
Proof.
  apply Forall_forall. intros ph. rewrite generate_phases, elem_of_app.
  intros [Hph|Hph] Hpar.
  { destruct (dg_cycles g) as [|c cs]; [by apply not_elem_of_nil in Hph|].
    destruct (concat (c :: cs)); [by apply not_elem_of_nil in Hph|].
    by apply list_elem_of_singleton in Hph as ->. }
  destruct (dg_startup_order g).
  { by apply list_elem_of_singleton in Hph as ->. }
  apply list_elem_of_fmap in Hph as (level & -> & _).
  simpl in *. apply bool_decide_eq_true in Hpar.
  intros Hnil. rewrite Hnil in Hpar. simpl in Hpar. lia.
Qed.

Lemma generate_estimate m g :
  estimated_duration (generate_migration_sequence m g)
  = _estimate_migration_duration (phases (generate_migration_sequence m g)).
Proof.
  unfold generate_migration_sequence.
  by destruct (dg_startup_order g), (dg_cycles g) as [|c cs];
    [| destruct (concat (c :: cs)) | | destruct (concat (c :: cs))].
Qed.

End PlanEstimate.

Section EstimateProperties.
Context `{SetOrder}.

Lemma analysed_no_facts inventory : all_dependencies (analysed inventory []) = [].
Proof.
  unfold all_dependencies.
  change (container_dependencies (analysed inventory []))
    with (tracker_of (analysed inventory []) ContainerDep).
  change (network_dependencies (analysed inventory []))
    with (tracker_of (analysed inventory []) NetworkDep).
  change (volume_dependencies (analysed inventory []))
    with (tracker_of (analysed inventory []) VolumeDep).
  change (compose_dependencies (analysed inventory []))
    with (tracker_of (analysed inventory []) ComposeDep).
  unfold analysed. simpl foldl at 1 3 5 7.
  by rewrite !foldl_register_tracker.
Qed.

Lemma startup_order_nil : _calculate_startup_order [] = Some [].
Proof.
  unfold _calculate_startup_order.
  assert (all_nodes [] = []) as -> by done. by rewrite set_iter_nil.
Qed.

(** X10. Containers of the inventory for which no relationship was recorded
    are not parallelised: with no recorded fact the graph is empty and the
    sequence is the single phase "Phase 1", not parallel, that lists every
    registered container once; there is no parallel group, and the parallel
    estimate equals the sequential one. *)
Theorem unrelated_containers_share_one_phase (inventory : list string) :
  ∃ g ms,
    plan (analysed inventory []) = Ok (g, ms)
    ∧ dg_nodes g = [] ∧ dg_cycles g = [] ∧ dg_startup_order g = []
    ∧ phases ms
      = [Phase "Phase 1" (containers (analysed inventory [])) false
               None None None]
    ∧ parallel_groups ms = []
    ∧ NoDup (containers (analysed inventory []))
    ∧ (∀ x, x ∈ containers (analysed inventory []) ↔ x ∈ inventory)
    ∧ estimated_parallel_minutes (estimated_duration ms)
      = estimated_sequential_minutes (estimated_duration ms).
Proof.
  destruct (plan_total (analysed inventory [])) as (g & _ & Hplan & Hg & _).
  destruct (build_dependency_graph_total (analysed inventory []))
    as (g' & Hg' & Hnodes & _ & Hcs & Hord).
  rewrite Hg in Hg'. injection Hg' as <-.
  rewrite analysed_no_facts in Hnodes, Hcs, Hord.
  rewrite startup_order_nil in Hord. injection Hord as Hord.
  injection Hcs as Hcs. symmetry in Hcs, Hord.
  assert (all_nodes [] = []) as Hnil by done.
  rewrite Hnil, set_iter_nil in Hnodes.
  assert (phases (generate_migration_sequence (analysed inventory []) g)
          = [Phase "Phase 1" (containers (analysed inventory [])) false
                   None None None]) as Hphases.
  { by rewrite generate_phases, Hcs, Hord. }
  eexists _, _. split; [exact Hplan|].
  repeat split; try done.
  - by rewrite generate_parallel_groups, Hord.
  - apply analysed_containers_NoDup.
  - unfold analysed. simpl. rewrite foldl_register_elem. simpl.
    rewrite elem_of_nil. tauto.
  - unfold analysed. simpl. rewrite foldl_register_elem. tauto.
  - rewrite generate_estimate, Hphases.
    apply sequential_minutes_equal. by repeat constructor.
Qed.

(** X11. When every phase that is marked parallel holds at least one
    container, the parallel estimate is not negative and not greater than
    the sequential estimate, and the reported savings lie between 0 and 100
    percent. *)
Theorem parallel_estimate_is_bounded (phases : list phase) :
  Forall (λ ph, parallel ph = true → phase_containers ph ≠ []) phases →
  (0 ≤ estimated_parallel_minutes (_estimate_migration_duration phases)
   ≤ estimated_sequential_minutes (_estimate_migration_duration phases))%Z
  ∧ (0 <= time_savings_percent (_estimate_migration_duration phases))%Q
  ∧ (time_savings_percent (_estimate_migration_duration phases) <= 100)%Q.
Proof.
  intros Hall. split; [by apply estimate_minutes_bounds|].
  by apply estimate_savings_bounds.
Qed.

(** X12. The estimate that [generate_migration_sequence] attaches to its
    own phases is always consistent: the parallel estimate is between 0 and
    the sequential estimate and the savings are between 0 and 100 percent,
    whatever the mapper state and the graph. *)
Theorem generated_estimate_is_bounded (m : Mapper) (g : dependency_graph) :
  (0 ≤ estimated_parallel_minutes
         (estimated_duration (generate_migration_sequence m g))
   ≤ estimated_sequential_minutes
       (estimated_duration (generate_migration_sequence m g)))%Z
  ∧ (0 <= time_savings_percent
            (estimated_duration (generate_migration_sequence m g)))%Q
  ∧ (time_savings_percent
       (estimated_duration (generate_migration_sequence m g)) <= 100)%Q.
Proof.
  rewrite generate_estimate.
  pose proof (generated_parallel_phases m g) as Hall.
  split; [by apply estimate_minutes_bounds|].
  by apply estimate_savings_bounds.
Qed.

(** X13. When no phase is marked parallel, parallel execution gains
    nothing: the parallel estimate equals the sequential estimate and the
    savings are 0. *)
Theorem sequential_phases_save_nothing (phases : list phase) :
  Forall (λ ph, parallel ph = false) phases →
  estimated_parallel_minutes (_estimate_migration_duration phases)
  = estimated_sequential_minutes (_estimate_migration_duration phases)
  ∧ time_savings_percent (_estimate_migration_duration phases) == 0.
Proof.
  intros Hall. destruct (sequential_minutes_equal phases Hall) as [Hpc Hmin].
  split; [done|]. rewrite estimate_savings.
  case_decide as Hpos; [|done].
  assert (parallel_sum phases / inject_Z (node_count phases * 5) == 1)
    as Hone; [|unfold float_div; by rewrite (binary64_comp _ 1 Hone)].
  assert (parallel_sum phases == inject_Z (node_count phases * 5)) as ->.
  { pose proof (node_count_split phases) as Hsplit.
    assert (node_count (filter (λ ph, parallel ph = true) phases) = 0%Z)
      as Hpn.
    { unfold parallel_count in Hpc. unfold node_count.
      destruct (filter (λ ph, parallel ph = true) phases); [done|].
      simpl in Hpc. lia. }
    unfold parallel_sum, Qeq, inject_Z. cbn [Qnum Qden]. lia. }
  field. unfold Qeq, inject_Z. cbn [Qnum Qden]. lia.
Qed.

End EstimateProperties.

(** ** The report lists and the analysers *)

Section ReportLists.
Context `{SetOrder}.

Lemma all_deps_elem inventory facts name x :
  x ∈ all_deps (analysed inventory facts) name
  ↔ ∃ f, f ∈ facts ∧ source f = name ∧ target f = x ∧ kind f ≠ ComposeDep.
Proof.
  unfold all_deps. rewrite set_iter_elem, !elem_of_app.
  fold (deps_of (container_dependencies (analysed inventory facts)) name).
  fold (deps_of (network_dependencies (analysed inventory facts)) name).
  fold (deps_of (volume_dependencies (analysed inventory facts)) name).
  rewrite <- !depends_on_deps_of.
  2: apply (analysed_tracker_NoDup inventory facts VolumeDep).
  2: apply (analysed_tracker_NoDup inventory facts NetworkDep).
  2: apply (analysed_tracker_NoDup inventory facts ContainerDep).
  change (container_dependencies (analysed inventory facts))
    with (tracker_of (analysed inventory facts) ContainerDep).
  change (network_dependencies (analysed inventory facts))
    with (tracker_of (analysed inventory facts) NetworkDep).
  change (volume_dependencies (analysed inventory facts))
    with (tracker_of (analysed inventory facts) VolumeDep).
  rewrite !analysed_tracker_depends. split.
  - intros [(f & ? & Hk & ? & ?)|[(f & ? & Hk & ? & ?)|(f & ? & Hk & ? & ?)]];
      exists f; rewrite Hk; done.
  - intros (f & ? & ? & ? & Hk). destruct (kind f) eqn:Hkind; [| | |done].
    + left. by exists f.
    + right. left. by exists f.
    + right. right. by exists f.
Qed.

Lemma save_dependencies_elem m name info :
  (name, info) ∈ save_dependencies m
  ↔ name ∈ containers m
    ∧ info = ContainerInfo (all_deps m name)
                           (dependents (container_dependencies m) name).
Proof.
  unfold save_dependencies. rewrite list_elem_of_fmap. split.
  - by intros (c & [= -> ->] & Hc).
  - intros [Hc ->]. by exists name.
Qed.

End ReportLists.

(** *** Loops that record relationships *)

Lemma record_relation_registered k container_name other m :
  container_name ∈ containers m →
  record_relation k container_name other m
  = (foldl record_fact m [Fact container_name other k], None).
Proof. intros Hreg. unfold record_relation. by rewrite decide_True. Qed.

(** In the inventory's presence a loop whose body records facts records
    the facts of all its iterations. *)
Lemma for_each_records {A} container_name
    (body : A → Mapper → outcome) (F : A → list fact) items m :
  (∀ item m, container_name ∈ containers m →
             body item m = (foldl record_fact m (F item), None)) →
  container_name ∈ containers m →
  for_each body items m
  = (foldl record_fact m (concat (F <$> items)), None).
Proof.
  intros Hbody. revert m.
  induction items as [|item items IH]; intros m Hreg; [done|].
  simpl. rewrite Hbody by done. rewrite IH.
  - by rewrite foldl_app.
  - by rewrite foldl_record_containers.
Qed.



Lemma fact_eq f s t k :
  f = Fact s t k ↔ kind f = k ∧ source f = s ∧ target f = t.
Proof. destruct f; simpl. split; [by intros [= -> -> ->] | by intros (-> & -> & ->)]. Qed.

(** *** Network analyser *)

Lemma analyze_network_records client container container_name m :
  container_name ∈ containers m →
  ∃ facts,
    _analyze_network_dependencies client container container_name m
    = foldl record_fact m facts
    ∧ ∀ f, f ∈ facts
           ↔ kind f = NetworkDep ∧ source f = container_name
             ∧ target f ≠ "" ∧ target f ≠ container_name
             ∧ ∃ network_name connected,
                 network_name ∈ c_networks container
                 ∧ network_name ≠ "bridge"
                 ∧ dict_get (client_networks client) network_name
                   = Some connected
                 ∧ Some (target f) ∈ connected.
Proof.
  intros Hreg.
  set (G := λ connected_name : option string,
              match connected_name with
              | Some n => if decide (n ≠ "" ∧ n ≠ container_name)
                          then [Fact container_name n NetworkDep] else []
              | None => []
              end).
  set (F := λ network_name : string,
              if decide (network_name = "bridge") then []
              else match dict_get (client_networks client) network_name with
                   | Some connected => concat (G <$> connected)
                   | None => []
                   end).
  exists (concat (F <$> c_networks container)). split.
  - unfold _analyze_network_dependencies.
    rewrite (for_each_records container_name _ F); [done| |done].
    intros network_name m' Hreg'. unfold F. case_decide; [done|].
    destruct (dict_get _ network_name) as [connected|]; [|done].
    rewrite (for_each_records container_name _ G); [done| |done].
    intros [n|] m'' Hreg''; unfold G; [|done].
    case_decide; [|done]. by apply record_relation_registered.
  - intros f. rewrite elem_of_concat. split.
    + intros (l & Hf & (network_name & -> & Hnet)%list_elem_of_fmap).
      unfold F in Hf. case_decide as Hbridge; [by apply not_elem_of_nil in Hf|].
      destruct (dict_get _ network_name) as [connected|] eqn:Hget;
        [|by apply not_elem_of_nil in Hf].
      apply elem_of_concat in Hf
        as (l & Hf & ([n|] & -> & Hn)%list_elem_of_fmap);
        unfold G in Hf; [|by apply not_elem_of_nil in Hf].
      case_decide as Hn'; [|by apply not_elem_of_nil in Hf].
      apply list_elem_of_singleton in Hf as ->. simpl.
      destruct Hn'. repeat (split; [done|]). by exists network_name, connected.
    + intros (Hk & Hs & Ht1 & Ht2 & network_name & connected
              & Hnet & Hbridge & Hget & Hconn).
      exists (F network_name). split; [|by apply list_elem_of_fmap_2].
      unfold F. rewrite decide_False, Hget by done.
      apply elem_of_concat. exists (G (Some (target f))).
      split; [|by apply list_elem_of_fmap_2].
      unfold G. rewrite decide_True by done.
      apply list_elem_of_singleton. by apply fact_eq.
Qed.


(** *** Volume analyser *)

Lemma shared_mount_facts_elem client container_name shared f :
  f ∈ shared_mount_facts client container_name shared
  ↔ kind f = VolumeDep ∧ source f = container_name
    ∧ target f ≠ container_name
    ∧ ∃ other other_mount,
        other ∈ client_containers client ∧ c_name other = target f
        ∧ other_mount ∈ c_mounts other ∧ shared other_mount = true.
Proof.
  unfold shared_mount_facts. rewrite elem_of_concat. split.
  - intros (l & Hf & (other & -> & Hother)%list_elem_of_fmap).
    case_decide as Hname; [by apply not_elem_of_nil in Hf|].
    apply elem_of_concat in Hf
      as (l & Hf & (other_mount & -> & Hom)%list_elem_of_fmap).
    destruct (shared other_mount) eqn:Hsh; [|by apply not_elem_of_nil in Hf].
    apply list_elem_of_singleton in Hf as ->. simpl.
    repeat (split; [done|]). by exists other, other_mount.
  - intros (Hk & Hs & Ht & other & other_mount & Hother & Hname & Hom & Hsh).
    eexists. split; [|by apply (list_elem_of_fmap_2 _ _ other)].
    simpl. rewrite decide_False by congruence.
    apply elem_of_concat.
    eexists. split; [|by apply (list_elem_of_fmap_2 _ _ other_mount)].
    simpl. rewrite Hsh. apply list_elem_of_singleton.
    apply fact_eq. by rewrite Hname.
Qed.

Lemma for_other_mounts_records client container_name shared m :
  container_name ∈ containers m →
  for_other_mounts client container_name shared m
  = (foldl record_fact m (shared_mount_facts client container_name shared),
     None).
Proof.
  intros Hreg. unfold for_other_mounts, shared_mount_facts.
  apply (for_each_records container_name); [|done].
  intros other m' Hreg'. case_decide; [done|].
  apply (for_each_records container_name); [|done].
  intros other_mount m'' Hreg''. destruct (shared other_mount); [|done].
  by apply record_relation_registered.
Qed.

Lemma analyze_volume_records client container container_name m :
  container_name ∈ containers m →
  ∃ facts,
    _analyze_volume_dependencies client container container_name m
    = foldl record_fact m facts
    ∧ ∀ f, f ∈ facts
           ↔ kind f = VolumeDep ∧ source f = container_name
             ∧ target f ≠ container_name
             ∧ ∃ mount other other_mount,
                 mount ∈ c_mounts container
                 ∧ other ∈ client_containers client
                 ∧ c_name other = target f
                 ∧ other_mount ∈ c_mounts other
                 ∧ shares_storage mount other_mount.
Proof.
  intros Hreg.
  set (F := λ mount : docker_mount,
    if decide (mount_type mount = Some "volume") then
      match mount_name mount with
      | Some volume_name =>
          if decide (volume_name ≠ "") then
            shared_mount_facts client container_name
              (λ other_mount,
                 bool_decide (mount_type other_mount = Some "volume"
                              ∧ mount_name other_mount = Some volume_name))
          else []
      | None => []
      end
    else if decide (mount_type mount = Some "bind") then
      shared_mount_facts client container_name
        (λ other_mount,
           bool_decide (mount_type other_mount = Some "bind"
                        ∧ mount_source other_mount = mount_source mount))
    else []).
  exists (concat (F <$> c_mounts container)). split.
  - unfold _analyze_volume_dependencies.
    rewrite (for_each_records container_name _ F); [done| |done].
    intros mount m' Hreg'. unfold F.
    case_decide; [|case_decide; [|done]].
    + destruct (mount_name mount) as [volume_name|]; [|done].
      case_decide; [|done]. by apply for_other_mounts_records.
    + by apply for_other_mounts_records.
  - intros f. rewrite elem_of_concat. split.
    + intros (l & Hf & (mount & -> & Hmount)%list_elem_of_fmap).
      unfold F in Hf. case_decide as Hvol; [|case_decide as Hbind].
      * destruct (mount_name mount) as [volume_name|] eqn:Hname;
          [|by apply not_elem_of_nil in Hf].
        case_decide as Hne; [|by apply not_elem_of_nil in Hf].
        apply shared_mount_facts_elem in Hf
          as (Hk & Hs & Ht & other & other_mount & Ho & Hn & Hom
              & [Hty Hnm]%bool_decide_eq_true).
        repeat (split; [done|]). exists mount, other, other_mount.
        repeat (split; [done|]). left. split; [done|]. split; [done|].
        by exists volume_name.
      * apply shared_mount_facts_elem in Hf
          as (Hk & Hs & Ht & other & other_mount & Ho & Hn & Hom
              & [Hty Hsrc]%bool_decide_eq_true).
        repeat (split; [done|]). exists mount, other, other_mount.
        repeat (split; [done|]). by right.
      * by apply not_elem_of_nil in Hf.
    + intros (Hk & Hs & Ht & mount & other & other_mount & Hmount & Ho & Hn
              & Hom & Hshare).
      exists (F mount). split; [|by apply list_elem_of_fmap_2].
      unfold F.
      destruct Hshare as [(Hty & Hty' & v & Hv & Hnm & Hnm')|(Hty & Hty' & Hsrc)].
      * rewrite decide_True, Hnm, decide_True by done.
        apply shared_mount_facts_elem. repeat (split; [done|]).
        exists other, other_mount. repeat (split; [done|]).
        by apply bool_decide_eq_true.
      * rewrite decide_False, decide_True by (done || congruence).
        apply shared_mount_facts_elem. repeat (split; [done|]).
        exists other, other_mount. repeat (split; [done|]).
        by apply bool_decide_eq_true.
Qed.

Lemma shares_storage_sym mount other_mount :
  shares_storage mount other_mount → shares_storage other_mount mount.
Proof.
  intros [(Hty & Hty' & v & Hv & Hnm & Hnm')|(Hty & Hty' & Hsrc)].
  - left. split; [done|]. split; [done|]. by exists v.
  - right. by repeat split.
Qed.

(** *** Strings *)

Lemma str_contains_char c a s :
  str_contains (String c "") (String a s)
  = bool_decide (c = a) || str_contains (String c "") s.
Proof.
  simpl. destruct (Ascii.ascii_dec c a) as [->|Hne].
  - rewrite bool_decide_eq_true_2 by done. by destruct s.
  - by rewrite bool_decide_eq_false_2.
Qed.

Lemma str_split1_app c k v :
  str_contains (String c "") k = false →
  str_split1 c (k +:+ String c v) = (k, Some v).
Proof.
  induction k as [|a k IH]; intros Hk.
  - simpl. by rewrite decide_True.
  - rewrite str_contains_char in Hk. apply orb_false_iff in Hk as [Ha Hk].
    apply bool_decide_eq_false in Ha. simpl.
    rewrite decide_False by congruence. by rewrite (IH Hk).
Qed.

Lemma str_contains_app c k v :
  str_contains (String c "") (k +:+ String c v) = true.
Proof.
  induction k as [|a k IH].
  - change ("" +:+ String c v) with (String c v).
    rewrite str_contains_char. by rewrite bool_decide_eq_true_2.
  - change (String a k +:+ String c v) with (String a (k +:+ String c v)).
    rewrite str_contains_char, IH. by destruct (bool_decide _).
Qed.

Lemma str_split1_spec c s :
  if str_contains (String c "") s
  then ∃ k v, str_split1 c s = (k, Some v) ∧ s = k +:+ String c v
              ∧ str_contains (String c "") k = false
  else str_split1 c s = (s, None).
Proof.
  induction s as [|a s IH]; [done|].
  rewrite str_contains_char. cbn [str_split1].
  destruct (decide (a = c)) as [->|Hne].
  - rewrite bool_decide_eq_true_2 by done. simpl. by exists "", s.
  - rewrite bool_decide_eq_false_2 by congruence. simpl.
    destruct (str_contains (String c "") s).
    + destruct IH as (k & v & -> & -> & Hk). exists (String a k), v.
      split; [done|]. split; [done|]. rewrite str_contains_char, Hk.
      by rewrite bool_decide_eq_false_2 by congruence.
    + by rewrite IH.
Qed.

Lemma str_split_split1 c s :
  (str_split c s).1 = (str_split1 c s).1
  ∧ ((str_split c s).2 = [] ↔ (str_split1 c s).2 = None).
Proof.
  induction s as [|a s [IH1 IH2]]; [done|]. simpl.
  destruct (str_split c s) as [piece pieces], (str_split1 c s) as [k rest].
  simpl in *. case_decide; simpl; [done|]. by rewrite IH1.
Qed.

Lemma str_split_app c k v :
  str_contains (String c "") k = false →
  (str_split c (k +:+ String c v)).1 = k
  ∧ 2 ≤ S (length (str_split c (k +:+ String c v)).2).
Proof.
  intros Hk. destruct (str_split_split1 c (k +:+ String c v)) as [H1 H2].
  rewrite (str_split1_app _ _ _ Hk) in H1, H2. simpl in *. split; [done|].
  destruct (str_split c (k +:+ String c v)).2; [|simpl; lia].
  exfalso. by pose proof (proj1 H2 eq_refl).
Qed.


(** *** Environment and link analysers *)

Lemma analyze_environment_records upper client container container_name m :
  container_name ∈ containers m →
  ∃ facts,
    _analyze_environment_dependencies upper client container container_name m
    = foldl record_fact m facts
    ∧ ∀ f, f ∈ facts
           ↔ kind f = ContainerDep ∧ source f = container_name
             ∧ target f ≠ container_name
             ∧ ∃ key value other,
                 key +:+ String "=" value ∈ c_env container
                 ∧ str_contains "=" key = false
                 ∧ other ∈ client_containers client
                 ∧ c_name other = target f
                 ∧ env_reference upper (target f) key value = true.
Proof.
  intros Hreg.
  set (G := λ (key value : string) (other : docker_container),
              if decide (c_name other = container_name) then []
              else if env_reference upper (c_name other) key value
                   then [Fact container_name (c_name other) ContainerDep]
                   else []).
  set (F := λ env_var : string,
              if negb (str_contains "=" env_var) then []
              else match str_split1 "=" env_var with
                   | (key, Some value) =>
                       concat (G key value <$> client_containers client)
                   | (_, None) => []
                   end).
  exists (concat (F <$> c_env container)). split.
  - unfold _analyze_environment_dependencies.
    rewrite (for_each_records container_name _ F); [done| |done].
    intros env_var m' Hreg'. unfold F.
    pose proof (str_split1_spec "=" env_var) as Hsplit.
    destruct (str_contains "=" env_var); [|done]. simpl.
    destruct Hsplit as (key & value & -> & _ & _).
    apply (for_each_records container_name); [|done].
    intros other m'' Hreg''. unfold G. case_decide; [done|].
    destruct (env_reference _ _ _ _); [|done].
    by apply record_relation_registered.
  - intros f. rewrite elem_of_concat. split.
    + intros (l & Hf & (env_var & -> & Henv)%list_elem_of_fmap).
      unfold F in Hf.
      pose proof (str_split1_spec "=" env_var) as Hsplit.
      destruct (str_contains "=" env_var); [|by apply not_elem_of_nil in Hf].
      simpl in Hf. destruct Hsplit as (key & value & Hsp & -> & Hkey).
      rewrite Hsp in Hf.
      apply elem_of_concat in Hf
        as (l & Hf & (other & -> & Hother)%list_elem_of_fmap).
      unfold G in Hf. case_decide as Hname; [by apply not_elem_of_nil in Hf|].
      destruct (env_reference _ _ _ _) eqn:Href;
        [|by apply not_elem_of_nil in Hf].
      apply list_elem_of_singleton in Hf as ->. simpl.
      repeat (split; [done|]). by exists key, value, other.
    + intros (Hk & Hs & Ht & key & value & other & Henv & Hkey & Hother
              & Hname & Href).
      exists (F (key +:+ String "=" value)).
      split; [|by apply list_elem_of_fmap_2].
      unfold F. rewrite str_contains_app, str_split1_app by done. simpl.
      apply elem_of_concat. exists (G key value other).
      split; [|by apply list_elem_of_fmap_2].
      unfold G. rewrite decide_False by congruence. rewrite Hname, Href.
      apply list_elem_of_singleton. by apply fact_eq.
Qed.

Lemma analyze_links_records container container_name m :
  container_name ∈ containers m →
  ∃ facts,
    _analyze_container_links container container_name m
    = foldl record_fact m facts
    ∧ ∀ f, f ∈ facts
           ↔ kind f = ContainerDep ∧ source f = container_name
             ∧ ∃ first rest,
                 first +:+ String ":" rest ∈ c_links container
                 ∧ str_contains ":" first = false
                 ∧ target f = str_lstrip "/" first.
Proof.
  intros Hreg.
  set (F := λ link : string,
              if str_contains ":" link then
                if decide (2 ≤ S (length (str_split ":" link).2)) then
                  [Fact container_name (str_lstrip "/" (str_split ":" link).1)
                        ContainerDep]
                else []
              else []).
  exists (concat (F <$> c_links container)). split.
  - unfold _analyze_container_links.
    rewrite (for_each_records container_name _ F); [done| |done].
    intros link m' Hreg'. unfold F.
    destruct (str_contains ":" link); [|done]. simpl.
    case_decide; [|done]. by apply record_relation_registered.
  - intros f. rewrite elem_of_concat. split.
    + intros (l & Hf & (link & -> & Hlink)%list_elem_of_fmap).
      unfold F in Hf.
      pose proof (str_split1_spec ":" link) as Hsplit.
      destruct (str_contains ":" link); [|by apply not_elem_of_nil in Hf].
      destruct Hsplit as (first & rest & _ & -> & Hfirst).
      destruct (str_split_app ":" first rest Hfirst) as [H1 H2].
      rewrite decide_True, H1 in Hf by done.
      apply list_elem_of_singleton in Hf as ->. simpl.
      repeat (split; [done|]). by exists first, rest.
    + intros (Hk & Hs & first & rest & Hlink & Hfirst & Ht).
      exists (F (first +:+ String ":" rest)).
      split; [|by apply list_elem_of_fmap_2].
      unfold F. destruct (str_split_app ":" first rest Hfirst) as [H1 H2].
      rewrite str_contains_app, decide_True, H1 by done.
      apply list_elem_of_singleton. by apply fact_eq.
Qed.

(** *** Compose services *)

Lemma linked_service_spec :
  (∀ first rest, str_contains ":" first = false →
                 linked_service (first +:+ String ":" rest) = first)
  ∧ (∀ link, str_contains ":" link = false → linked_service link = link).
Proof.
  split.
  - intros first rest Hfirst. unfold linked_service.
    rewrite str_contains_app. by apply str_split_app.
  - intros link Hlink. unfold linked_service. by rewrite Hlink.
Qed.

Lemma service_facts_elem services f :
  f ∈ concat (service_facts <$> services)
  ↔ kind f = ComposeDep ∧ service_asks services (source f) (target f).
Proof.
  rewrite elem_of_concat. split.
  - intros (l & Hf & ([name [config|]] & -> & Hitem)%list_elem_of_fmap);
      unfold service_facts in Hf; simpl in Hf;
      [|by apply not_elem_of_nil in Hf].
    rewrite !elem_of_app in Hf.
    destruct Hf as [Hf|[Hf|Hf]];
      apply list_elem_of_fmap in Hf as (x & -> & Hx); simpl;
      (split; [done|]); exists config; (split; [done|]).
    + left. destruct (depends_on_names _) as [names|];
        [by exists names | by apply not_elem_of_nil in Hx].
    + right. left. destruct (yaml_iter (service_links config)) as [links|];
        [by exists links, x | by apply not_elem_of_nil in Hx].
    + right. right.
      destruct (yaml_iter (service_volumes_from config)) as [names|];
        [by exists names | by apply not_elem_of_nil in Hx].
  - intros (Hk & config & Hitem & Hasks).
    exists (service_facts (source f, Some config)).
    split; [|by apply list_elem_of_fmap_2].
    unfold service_facts. simpl. rewrite !elem_of_app.
    destruct Hasks as [(names & -> & Hx)|[(links & link & -> & Hl & Hx)
                                         |(names & -> & Hx)]].
    + left. apply list_elem_of_fmap. exists (target f).
      split; [by apply fact_eq | done].
    + right. left. apply list_elem_of_fmap. exists link.
      split; [by apply fact_eq | done].
    + right. right. apply list_elem_of_fmap. exists (target f).
      split; [by apply fact_eq | done].
Qed.

(** The body of the loop records relationships the service asks for, and
    all of them when it does not raise. *)
Lemma analyze_service_records services service_name service_config m :
  ∃ facts,
    (analyze_service services service_name service_config m).1
    = foldl record_fact m facts
    ∧ (∀ f, f ∈ facts → f ∈ service_facts (service_name, service_config))
    ∧ ((analyze_service services service_name service_config m).2 = None →
       facts = service_facts (service_name, service_config)).
Proof.
  assert (∀ (e : compose_error) l,
            ∃ facts, m = foldl record_fact m facts
                     ∧ (∀ f, f ∈ facts → f ∈ l)
                     ∧ (Some e = None → facts = l)) as Hnothing.
  { intros e l. exists []. split; [done|].
    split; [by intros f ?%not_elem_of_nil | done]. }
  unfold analyze_service, service_facts. simpl.
  destruct service_config as [config|]; [|apply Hnothing].
  destruct (depends_on_names _) as [names|]; [|apply Hnothing]. simpl.
  destruct (yaml_iter (service_links config)) as [links|]; simpl.
  2:{ eexists. rewrite <- foldl_fmap. split; [done|]. split; [|done].
      intros f Hf. apply elem_of_app. by left. }
  destruct (yaml_iter (service_volumes_from config)) as [vols|]; simpl.
  2:{ exists (((λ dep, Fact service_name dep ComposeDep) <$> names)
              ++ ((λ link, Fact service_name (linked_service link) ComposeDep)
                  <$> links)).
      rewrite foldl_app, !foldl_fmap. split; [done|]. split; [|done].
      intros f Hf. by rewrite app_nil_r. }
  eexists. split; [|split; [intros f Hf; exact Hf | done]].
  by rewrite !foldl_app, !foldl_fmap.
Qed.

Lemma service_loop_records services items m :
  ∃ facts,
    (service_loop services items m).1 = foldl record_fact m facts
    ∧ (∀ f, f ∈ facts → f ∈ concat (service_facts <$> items))
    ∧ ((service_loop services items m).2 = None →
       facts = concat (service_facts <$> items)).
Proof.
  revert m. induction items as [|[name config] items IH]; intros m.
  { exists []. split; [done|]. split; [by intros f ?%not_elem_of_nil | done]. }
  simpl.
  destruct (analyze_service_records services name config m)
    as (fs & Hm & Hsub & Hall).
  destruct (analyze_service services name config m) as [m' [e|]] eqn:Hs;
    simpl in *.
  - exists fs. split; [done|]. split; [|done].
    intros f Hf. apply elem_of_app. left. by apply Hsub.
  - destruct (IH m') as (fs' & Hm' & Hsub' & Hall').
    exists (fs ++ fs'). rewrite foldl_app, <- Hm. split; [done|]. split.
    + intros f [Hf|Hf]%elem_of_app; apply elem_of_app;
        [left; by apply Hsub | right; by apply Hsub'].
    + intros Hnone. by rewrite Hall, Hall'.
Qed.

Lemma network_loop_ok networks service_name services :
  networks ≠ YamlOther → Forall service_ok services →
  network_loop networks service_name services = None.
Proof.
  intros Hnet. induction 1 as [|[name config] services Hok _ IH]; [done|].
  simpl. case_decide; [done|].
  destruct Hok as (cfg & Hcfg & _ & _ & _ & Hnet'). simpl in Hcfg.
  rewrite Hcfg.
  destruct networks, (service_networks cfg); done.
Qed.

Lemma service_loop_ok services items m :
  Forall service_ok services → Forall service_ok items →
  (service_loop services items m).2 = None.
Proof.
  intros Hall Hitems. revert m.
  induction Hitems as [|[name config] items Hok _ IH]; intros m; [done|].
  simpl.
  destruct Hok as (cfg & Hcfg & [names Hn] & [links Hl] & [vols Hv] & Hnet).
  simpl in Hcfg. subst config.
  unfold analyze_service. rewrite Hn, Hl, Hv.
  rewrite network_loop_ok by done. apply IH.
Qed.

(** *** What recording a list of relationships changes *)

Lemma recorded_relationships m facts k (R : string → string → Prop) :
  (∀ f, f ∈ facts ↔ kind f = k ∧ R (source f) (target f)) →
  containers (foldl record_fact m facts) = containers m
  ∧ (∀ k', k' ≠ k →
           tracker_of (foldl record_fact m facts) k' = tracker_of m k')
  ∧ ∀ s x, depends_on (tracker_of (foldl record_fact m facts) k) s x
           ↔ depends_on (tracker_of m k) s x ∨ R s x.
Proof.
  intros Hfacts. split; [apply foldl_record_containers|]. split.
  - intros k' Hk'. apply foldl_record_other_tracker.
    intros f [Hk _]%Hfacts. congruence.
  - intros s x. rewrite foldl_record_depends. split.
    + intros [?|(f & [_ HR]%Hfacts & _ & <- & <-)]; [by left | by right].
    + intros [?|HR]; [by left|]. right. exists (Fact s x k).
      split; [by apply Hfacts | done].
Qed.

Section ReportProperties.
Context `{SetOrder}.

(** X14. [save_dependencies] stores an entry only for containers of the
    inventory. The [depends_on] list of an entry has no duplicates and holds
    exactly the targets of the relationships recorded for the container in
    the container, network and volume trackers; a relationship that is
    recorded in the compose tracker only is not in the list. *)
Theorem saved_depends_on_spec
    (inventory : list string) (facts : list fact) name info :
  (name, info) ∈ save_dependencies (analysed inventory facts) →
  name ∈ inventory
  ∧ NoDup (info_depends_on info)
  ∧ ∀ x, x ∈ info_depends_on info
         ↔ ∃ f, f ∈ facts ∧ source f = name ∧ target f = x
                ∧ kind f ≠ ComposeDep.
Proof.
  intros [Hname ->]%save_dependencies_elem. simpl.
  split; [by apply analysed_containers_elem in Hname|].
  split; [apply set_iter_NoDup|]. intros x. apply all_deps_elem.
Qed.

(** X15. The [depended_by] list that [save_dependencies] stores for a
    container names each container once that has a relationship to it in
    the container tracker, and no other; relationships of the network and
    volume trackers are not counted. Every listed container that is in the
    inventory has the container in its own [depends_on] list. *)
Theorem saved_depended_by_spec
    (inventory : list string) (facts : list fact) name info :
  (name, info) ∈ save_dependencies (analysed inventory facts) →
  NoDup (info_depended_by info)
  ∧ (∀ other, other ∈ info_depended_by info
              ↔ ∃ f, f ∈ facts ∧ kind f = ContainerDep
                     ∧ source f = other ∧ target f = name)
  ∧ ∀ other info',
      other ∈ info_depended_by info →
      (other, info') ∈ save_dependencies (analysed inventory facts) →
      name ∈ info_depends_on info'.
Proof.
  intros [Hname ->]%save_dependencies_elem. simpl.
  assert (∀ other,
            other ∈ dependents
                      (container_dependencies (analysed inventory facts)) name
            ↔ ∃ f, f ∈ facts ∧ kind f = ContainerDep
                   ∧ source f = other ∧ target f = name) as Hdep.
  { intros other. rewrite elem_of_dependents.
    apply (analysed_tracker_depends inventory facts ContainerDep). }
  split; [|split; [done|]].
  - apply NoDup_dependents.
    apply (analysed_tracker_NoDup inventory facts ContainerDep).
  - intros other info' (f & Hf & Hk & Hs & Ht)%Hdep
      [_ ->]%save_dependencies_elem.
    simpl. apply all_deps_elem. exists f. by rewrite Hk.
Qed.

End ReportProperties.

Section AnalyserProperties.
Context `{SetOrder}.

(** X16. For a container of the inventory the network analyser loses no
    relationship to an exception: it leaves the inventory and the other
    trackers as they are and adds to the network tracker exactly the
    relationships from the container to every container with another,
    non-empty name that is connected to one of its networks other than
    "bridge" that the daemon can look up. *)
Theorem network_analysis_records client container container_name m :
  container_name ∈ containers m →
  containers
    (_analyze_network_dependencies client container container_name m)
  = containers m
  ∧ (∀ k, k ≠ NetworkDep →
          tracker_of
            (_analyze_network_dependencies client container container_name m)
            k
          = tracker_of m k)
  ∧ ∀ s x,
      depends_on
        (network_dependencies
           (_analyze_network_dependencies client container container_name m))
        s x
      ↔ depends_on (network_dependencies m) s x
        ∨ (s = container_name ∧ x ≠ "" ∧ x ≠ container_name
           ∧ ∃ network_name connected,
               network_name ∈ c_networks container
               ∧ network_name ≠ "bridge"
               ∧ dict_get (client_networks client) network_name
                 = Some connected
               ∧ Some x ∈ connected).
Proof.
  intros Hreg.
  destruct (analyze_network_records client container container_name m Hreg)
    as (facts & -> & Hfacts).
  exact (recorded_relationships m facts NetworkDep _ Hfacts).
Qed.


(** X18. For a container of the inventory the volume analyser loses no
    relationship to an exception: it leaves the inventory and the other
    trackers as they are and adds to the volume tracker exactly the
    relationships from the container to every container with another name
    that has a mount sharing storage with one of its mounts: both are
    volumes with the same non-empty name, or both are bind mounts with the
    same source. *)
Theorem volume_analysis_records client container container_name m :
  container_name ∈ containers m →
  containers (_analyze_volume_dependencies client container container_name m)
  = containers m
  ∧ (∀ k, k ≠ VolumeDep →
          tracker_of
            (_analyze_volume_dependencies client container container_name m)
            k
          = tracker_of m k)
  ∧ ∀ s x,
      depends_on
        (volume_dependencies
           (_analyze_volume_dependencies client container container_name m))
        s x
      ↔ depends_on (volume_dependencies m) s x
        ∨ (s = container_name ∧ x ≠ container_name
           ∧ ∃ mount other other_mount,
               mount ∈ c_mounts container
               ∧ other ∈ client_containers client
               ∧ c_name other = x
               ∧ other_mount ∈ c_mounts other
               ∧ shares_storage mount other_mount).
Proof.
  intros Hreg.
  destruct (analyze_volume_records client container container_name m Hreg)
    as (facts & -> & Hfacts).
  exact (recorded_relationships m facts VolumeDep _ Hfacts).
Qed.

(** X19. Volume relationships are mutual: a relationship that the analysis
    of a listed container adds to the volume tracker has a counterpart,
    which the analysis of the listed container it points to records in the
    opposite direction. *)
Theorem volume_relationships_are_mutual client container m x :
  container ∈ client_containers client →
  c_name container ∈ containers m →
  depends_on
    (volume_dependencies
       (_analyze_volume_dependencies client container (c_name container) m))
    (c_name container) x →
  depends_on (volume_dependencies m) (c_name container) x
  ∨ ∃ other,
      other ∈ client_containers client ∧ c_name other = x
      ∧ ∀ m', x ∈ containers m' →
              depends_on
                (volume_dependencies
                   (_analyze_volume_dependencies client other x m'))
                x (c_name container).
Proof.
  intros Hin Hreg Hdep.
  destruct (analyze_volume_records client container (c_name container) m Hreg)
    as (facts & Hm & Hfacts).
  rewrite Hm in Hdep.
  apply (foldl_record_depends m facts VolumeDep) in Hdep
    as [Hold|(f & Hf & _ & _ & Ht)]; [by left|].
  right. apply Hfacts in Hf
    as (_ & _ & Hne & mount & other & other_mount & Hmount & Hother & Hname
        & Hom & Hshare).
  rewrite Ht in Hne, Hname. exists other. split; [done|]. split; [done|].
  intros m' Hreg'.
  destruct (analyze_volume_records client other x m' Hreg')
    as (facts' & Hm' & Hfacts').
  rewrite Hm'. apply (foldl_record_depends m' facts' VolumeDep). right.
  exists (Fact x (c_name container) VolumeDep). split; [|done].
  apply Hfacts'. simpl. repeat (split; [(done || congruence)|]).
  exists other_mount, container, mount.
  repeat (split; [done|]). by apply shares_storage_sym.
Qed.

(** X20. For a container of the inventory the environment analyser loses
    no relationship to an exception (the unpacking of the split never
    fails): it leaves the inventory and the other trackers as they are and
    adds to the container tracker exactly the relationships from the
    container to each listed container with another name for which some
    variable KEY=VALUE of the container, split at its first "=", passes the
    reference test on the name; a variable without "=" contributes
    nothing. *)
Theorem environment_analysis_records
    (upper : string → string) client container container_name m :
  container_name ∈ containers m →
  containers
    (_analyze_environment_dependencies upper client container
                                       container_name m)
  = containers m
  ∧ (∀ k, k ≠ ContainerDep →
          tracker_of
            (_analyze_environment_dependencies upper client container
                                               container_name m) k
          = tracker_of m k)
  ∧ ∀ s x,
      depends_on
        (container_dependencies
           (_analyze_environment_dependencies upper client container
                                              container_name m))
        s x
      ↔ depends_on (container_dependencies m) s x
        ∨ (s = container_name ∧ x ≠ container_name
           ∧ ∃ key value other,
               key +:+ String "=" value ∈ c_env container
               ∧ str_contains "=" key = false
               ∧ other ∈ client_containers client
               ∧ c_name other = x
               ∧ env_reference upper x key value = true).
Proof.
  intros Hreg.
  destruct (analyze_environment_records upper client container
              container_name m Hreg) as (facts & -> & Hfacts).
  exact (recorded_relationships m facts ContainerDep _ Hfacts).
Qed.

(** X21. For a container of the inventory the link analyser loses no
    relationship to an exception: it leaves the inventory and the other
    trackers as they are and adds to the container tracker exactly one
    relationship for every link that contains a colon, from the container
    to the text before the first colon with its leading slashes removed.
    A link without a colon is ignored, and a link that names the container
    itself is recorded like any other. *)
Theorem link_analysis_records container container_name m :
  container_name ∈ containers m →
  containers (_analyze_container_links container container_name m)
  = containers m
  ∧ (∀ k, k ≠ ContainerDep →
          tracker_of (_analyze_container_links container container_name m) k
          = tracker_of m k)
  ∧ ∀ s x,
      depends_on
        (container_dependencies
           (_analyze_container_links container container_name m))
        s x
      ↔ depends_on (container_dependencies m) s x
        ∨ (s = container_name
           ∧ ∃ first rest,
               first +:+ String ":" rest ∈ c_links container
               ∧ str_contains ":" first = false
               ∧ x = str_lstrip "/" first).
Proof.
  intros Hreg.
  destruct (analyze_links_records container container_name m Hreg)
    as (facts & -> & Hfacts).
  exact (recorded_relationships m facts ContainerDep _ Hfacts).
Qed.

(** X22. The service loop of the compose analyser leaves the inventory and
    the other trackers as they are, and every relationship it adds to the
    compose tracker is one a service asks for: a name under its
    [depends_on] (list, mapping keys or single name), an entry of its
    [volumes_from], or for a link the link itself or, when it contains a
    colon, the text before its first colon. When every service has a body,
    iterable values under the three keys and no number as its networks, the
    loop raises nothing and adds all of these relationships. Otherwise it
    ends at the first exception: a first service without body, or whose
    [depends_on] is null, ends it before anything is added. *)
Theorem compose_analysis_records
    (services : list (string * option compose_service)) (m : Mapper) :
  containers (analyze_services services m) = containers m
  ∧ (∀ k, k ≠ ComposeDep →
          tracker_of (analyze_services services m) k = tracker_of m k)
  ∧ (∀ s x,
       depends_on (compose_dependencies (analyze_services services m)) s x →
       depends_on (compose_dependencies m) s x ∨ service_asks services s x)
  ∧ (Forall service_ok services →
     ∀ s x,
       depends_on (compose_dependencies (analyze_services services m)) s x
       ↔ depends_on (compose_dependencies m) s x ∨ service_asks services s x)
  ∧ (∀ name config rest,
       config = None
       ∨ (∃ body, config = Some body
                  ∧ depends_on_names (service_depends_on body) = None) →
       analyze_services ((name, config) :: rest) m = m)
  ∧ (∀ first rest, str_contains ":" first = false →
                   linked_service (first +:+ String ":" rest) = first)
  ∧ (∀ link, str_contains ":" link = false → linked_service link = link).
Proof.
  unfold analyze_services.
  destruct (service_loop_records services services m)
    as (facts & -> & Hsub & Hall).
  assert (∀ f, f ∈ facts →
               kind f = ComposeDep
               ∧ service_asks services (source f) (target f)) as Hfacts.
  { intros f Hf. by apply service_facts_elem, Hsub. }
  split; [apply foldl_record_containers|]. split.
  { intros k Hk. apply foldl_record_other_tracker.
    intros f [Hkind _]%Hfacts. congruence. }
  split.
  { intros s x [Hold|(f & [_ Hasks]%Hfacts & _ & <- & <-)]%
      (foldl_record_depends m facts ComposeDep); [by left | by right]. }
  split.
  { intros Hok.
    rewrite (Hall (service_loop_ok services services m Hok Hok)).
    apply (recorded_relationships m _ ComposeDep (service_asks services)).
    apply service_facts_elem. }
  split.
  { intros name config rest [->|(body & -> & Hnone)]; [done|].
    simpl. unfold analyze_service. by rewrite Hnone. }
  apply linked_service_spec.
Qed.

End AnalyserProperties.

Section PhaseOrder.
Context `{SetOrder}.

Lemma level_phases_lookup table n i ph :
  (level_phase table <$> seq 0 n) !! i = Some ph →
  phase_containers ph = level_get table i.
Proof.
  rewrite list_lookup_fmap. intros Hi.
  apply fmap_Some in Hi as (level & Hlevel & ->).
  by apply lookup_seq in Hlevel as [-> _].
Qed.

(** X23. When the startup order is not empty, a relationship of the
    container tracker orders the phases: a container is placed in a strictly
    later phase than every container it depends on through that tracker,
    counting the phases without the one kept for cycles. *)
Theorem container_dependencies_order_phases
    (inventory : list string) (facts : list fact) :
  ∃ g ms,
    plan (analysed inventory facts) = Ok (g, ms)
    ∧ (dg_startup_order g ≠ [] →
       ∀ a b i j pa pb,
         depends_on (container_dependencies (analysed inventory facts)) a b →
         filter (λ ph, special ph = None) (phases ms) !! i = Some pa →
         a ∈ phase_containers pa →
         filter (λ ph, special ph = None) (phases ms) !! j = Some pb →
         b ∈ phase_containers pb →
         j < i).
Proof.
  destruct (levels_respect_container_dependencies inventory facts)
    as (g & ms & Hplan & Hlevels).
  destruct (plan_total (analysed inventory facts)) as (g' & _ & Hplan' & _).
  rewrite Hplan in Hplan'. injection Hplan' as <- ->.
  eexists _, _. split; [exact Hplan|].
  intros Hne a b i j pa pb Hab Hi Ha Hj Hb.
  rewrite special_phases_filtered in Hi, Hj.
  destruct (dg_startup_order g) as [|node order] eqn:Hord; [done|].
  rewrite <- Hord in *. rewrite sorted_levels_segment in Hi, Hj.
  apply level_phases_lookup in Hi, Hj. rewrite Hi in Ha. rewrite Hj in Hb.
  by apply (Hlevels a b i j).
Qed.

End PhaseOrder.

(** ** Concrete runs of the further properties *)

Lemma no_cycle_reported_iff_acyclic_witness :
  NoDup chain_deps.*1
  ∧ (∀ depth, set_len (all_nodes chain_deps) < depth →
              ∃ cs, _detect_cycles_within depth chain_deps = Ok cs)
  ∧ ∀ depth cs, _detect_cycles_within depth chain_deps = Ok cs →
                (cs = [] ↔ acyclic chain_deps).
Proof.
  assert (NoDup chain_deps.*1) as Hnd
    by (apply (bool_decide_unpack _); vm_compute; exact I).
  split; [exact Hnd|].
  exact (no_cycle_reported_iff_acyclic chain_deps Hnd).
Defined.

Lemma startup_order_membership_witness :
  NoDup chain_deps.*1
  ∧ ∃ order,
      _calculate_startup_order chain_deps = Some order
      ∧ ∀ x, x ∈ order
             ↔ x ∈ all_nodes chain_deps
               ∧ ¬ ∃ y, rtc (depends_on chain_deps) x y
                        ∧ tc (depends_on chain_deps) y y.
Proof.
  assert (NoDup chain_deps.*1) as Hnd
    by (apply (bool_decide_unpack _); vm_compute; exact I).
  split; [exact Hnd|].
  exact (startup_order_membership chain_deps Hnd).
Defined.

Lemma listed_dependencies_come_first_witness :
  NoDup chain_deps.*1
  ∧ ∃ order,
      _calculate_startup_order chain_deps = Some order
      ∧ ∀ s t, s ∈ order → tc (depends_on chain_deps) s t →
               ∃ i j, list_index t order = Some i
                      ∧ list_index s order = Some j ∧ i < j.
Proof.
  assert (NoDup chain_deps.*1) as Hnd
    by (apply (bool_decide_unpack _); vm_compute; exact I).
  split; [exact Hnd|].
  exact (listed_dependencies_come_first chain_deps Hnd).
Defined.

Lemma free_nodes_come_first_witness :
  NoDup chain_deps.*1
  ∧ ∃ order rest,
      _calculate_startup_order chain_deps = Some order
      ∧ order = filter (λ node, deps_of chain_deps node = [])
                       (set_iter (all_nodes chain_deps)) ++ rest.
Proof.
  assert (NoDup chain_deps.*1) as Hnd
    by (apply (bool_decide_unpack _); vm_compute; exact I).
  split; [exact Hnd|].
  exact (free_nodes_come_first chain_deps Hnd).
Defined.

Lemma reported_cycles_are_simple_witness :
  NoDup two_cycle_deps.*1
  ∧ (∀ depth e, _detect_cycles_within depth two_cycle_deps ≠ Raise e)
  ∧ (∀ depth, set_len (all_nodes two_cycle_deps) < depth →
              ∃ cs, _detect_cycles_within depth two_cycle_deps = Ok cs)
  ∧ ∀ depth cs,
      _detect_cycles_within depth two_cycle_deps = Ok cs →
      ∀ c, c ∈ cs →
           chain (depends_on two_cycle_deps) c
           ∧ (∃ node mid, c = node :: mid ++ [node] ∧ NoDup (node :: mid))
           ∧ length c ≤ S (set_len (all_nodes two_cycle_deps)).
Proof.
  assert (NoDup two_cycle_deps.*1) as Hnd
    by (apply (bool_decide_unpack _); vm_compute; exact I).
  split; [exact Hnd|].
  exact (reported_cycles_are_simple two_cycle_deps Hnd).
Defined.

Lemma level_phases_are_numbered_witness :
  dg_startup_order chain_graph ≠ []
  ∧ ∃ n,
      0 < n
      ∧ phase_name
        <$> filter (λ ph, special ph = None)
                   (phases (generate_migration_sequence
                              (analysed ["A"; "B"; "C"] chain_facts)
                              chain_graph))
        = (λ i, "Phase " +:+ pretty (i + 1)) <$> seq 0 n
      ∧ ∀ ph, ph ∈ phases (generate_migration_sequence
                             (analysed ["A"; "B"; "C"] chain_facts)
                             chain_graph) →
              phase_containers ph ≠ [].
Proof.
  assert (dg_startup_order chain_graph ≠ []) as Hne by (simpl; discriminate).
  split; [exact Hne|].
  exact (level_phases_are_numbered (analysed ["A"; "B"; "C"] chain_facts)
                                   chain_graph Hne).
Defined.

Lemma other_trackers_give_one_phase_witness :
  (∀ f, f ∈ [Fact "web" "db" ComposeDep] → kind f ≠ ContainerDep)
  ∧ ∃ g ms,
      plan (analysed [] [Fact "web" "db" ComposeDep]) = Ok (g, ms)
      ∧ (dg_startup_order g ≠ [] →
         filter (λ ph, special ph = None) (phases ms)
         = [Phase "Phase 1" (dg_startup_order g)
                  (bool_decide (1 < length (dg_startup_order g)))
                  (Some "Migrate containers with dependency level 0")
                  None None]).
Proof.
  assert (∀ f, f ∈ [Fact "web" "db" ComposeDep] → kind f ≠ ContainerDep)
    as Hkind.
  { intros f Hf. apply list_elem_of_singleton in Hf. rewrite Hf. simpl.
    discriminate. }
  split; [exact Hkind|].
  exact (other_trackers_give_one_phase [] [Fact "web" "db" ComposeDep] Hkind).
Defined.

Lemma parallel_estimate_is_bounded_witness :
  Forall (λ ph, parallel ph = true → phase_containers ph ≠ [])
         [three_node_phase]
  ∧ (0 ≤ estimated_parallel_minutes
           (_estimate_migration_duration [three_node_phase])
     ≤ estimated_sequential_minutes
         (_estimate_migration_duration [three_node_phase]))%Z
  ∧ (0 <= time_savings_percent
            (_estimate_migration_duration [three_node_phase]))%Q
  ∧ (time_savings_percent
       (_estimate_migration_duration [three_node_phase]) <= 100)%Q.
Proof.
  assert (Forall (λ ph, parallel ph = true → phase_containers ph ≠ [])
                 [three_node_phase]) as Hall.
  { repeat constructor. simpl. discriminate. }
  split; [exact Hall|].
  exact (parallel_estimate_is_bounded [three_node_phase] Hall).
Defined.

Lemma sequential_phases_save_nothing_witness :
  Forall (λ ph, parallel ph = false) [sequential_two]
  ∧ estimated_parallel_minutes (_estimate_migration_duration [sequential_two])
    = estimated_sequential_minutes
        (_estimate_migration_duration [sequential_two])
  ∧ time_savings_percent (_estimate_migration_duration [sequential_two]) == 0.
Proof.
  assert (Forall (λ ph, parallel ph = false) [sequential_two]) as Hall.
  { repeat constructor. }
  split; [exact Hall|].
  exact (sequential_phases_save_nothing [sequential_two] Hall).
Defined.

Lemma saved_depends_on_spec_witness :
  ("web", ContainerInfo ["db"] [])
  ∈ save_dependencies (analysed ["web"; "db"] web_db_facts)
  ∧ "web" ∈ ["web"; "db"]
  ∧ NoDup (info_depends_on (ContainerInfo ["db"] []))
  ∧ ∀ x, x ∈ info_depends_on (ContainerInfo ["db"] [])
         ↔ ∃ f, f ∈ web_db_facts ∧ source f = "web" ∧ target f = x
                ∧ kind f ≠ ComposeDep.
Proof.
  assert (("web", ContainerInfo ["db"] [])
          ∈ save_dependencies (analysed ["web"; "db"] web_db_facts)) as Hin.
  { apply (bool_decide_unpack _). vm_compute. exact I. }
  split; [exact Hin|].
  exact (saved_depends_on_spec ["web"; "db"] web_db_facts "web"
                               (ContainerInfo ["db"] []) Hin).
Defined.

Lemma saved_depended_by_spec_witness :
  ("db", ContainerInfo ["web"] ["web"])
  ∈ save_dependencies (analysed ["web"; "db"] web_db_facts)
  ∧ NoDup (info_depended_by (ContainerInfo ["web"] ["web"]))
  ∧ (∀ other, other ∈ info_depended_by (ContainerInfo ["web"] ["web"])
              ↔ ∃ f, f ∈ web_db_facts ∧ kind f = ContainerDep
                     ∧ source f = other ∧ target f = "db")
  ∧ ∀ other info',
      other ∈ info_depended_by (ContainerInfo ["web"] ["web"]) →
      (other, info') ∈ save_dependencies (analysed ["web"; "db"] web_db_facts) →
      "db" ∈ info_depends_on info'.
Proof.
  assert (("db", ContainerInfo ["web"] ["web"])
          ∈ save_dependencies (analysed ["web"; "db"] web_db_facts)) as Hin.
  { apply (bool_decide_unpack _). vm_compute. exact I. }
  split; [exact Hin|].
  exact (saved_depended_by_spec ["web"; "db"] web_db_facts "db"
                                (ContainerInfo ["web"] ["web"]) Hin).
Defined.

Lemma network_analysis_records_witness :
  "web" ∈ containers (register_container new_mapper "web")
  ∧ containers
      (_analyze_network_dependencies two_containers web_container "web"
                                     (register_container new_mapper "web"))
    = containers (register_container new_mapper "web")
  ∧ (∀ k, k ≠ NetworkDep →
          tracker_of
            (_analyze_network_dependencies two_containers web_container "web"
               (register_container new_mapper "web")) k
          = tracker_of (register_container new_mapper "web") k)
  ∧ ∀ s x,
      depends_on
        (network_dependencies
           (_analyze_network_dependencies two_containers web_container "web"
              (register_container new_mapper "web")))
        s x
      ↔ depends_on (network_dependencies (register_container new_mapper "web"))
                   s x
        ∨ (s = "web" ∧ x ≠ "" ∧ x ≠ "web"
           ∧ ∃ network_name connected,
               network_name ∈ c_networks web_container
               ∧ network_name ≠ "bridge"
               ∧ dict_get (client_networks two_containers) network_name
                 = Some connected
               ∧ Some x ∈ connected).
Proof.
  assert ("web" ∈ containers (register_container new_mapper "web")) as Hreg.
  { apply (bool_decide_unpack _). vm_compute. exact I. }
  split; [exact Hreg|].
  exact (network_analysis_records two_containers web_container "web"
                                  (register_container new_mapper "web") Hreg).
Defined.


Lemma volume_analysis_records_witness :
  "web" ∈ containers (register_container new_mapper "web")
  ∧ containers
      (_analyze_volume_dependencies two_containers web_container "web"
                                    (register_container new_mapper "web"))
    = containers (register_container new_mapper "web")
  ∧ (∀ k, k ≠ VolumeDep →
          tracker_of
            (_analyze_volume_dependencies two_containers web_container "web"
               (register_container new_mapper "web")) k
          = tracker_of (register_container new_mapper "web") k)
  ∧ ∀ s x,
      depends_on
        (volume_dependencies
           (_analyze_volume_dependencies two_containers web_container "web"
              (register_container new_mapper "web")))
        s x
      ↔ depends_on (volume_dependencies (register_container new_mapper "web"))
                   s x
        ∨ (s = "web" ∧ x ≠ "web"
           ∧ ∃ mount other other_mount,
               mount ∈ c_mounts web_container
               ∧ other ∈ client_containers two_containers
               ∧ c_name other = x
               ∧ other_mount ∈ c_mounts other
               ∧ shares_storage mount other_mount).
Proof.
  assert ("web" ∈ containers (register_container new_mapper "web")) as Hreg.
  { apply (bool_decide_unpack _). vm_compute. exact I. }
  split; [exact Hreg|].
  exact (volume_analysis_records two_containers web_container "web"
                                 (register_container new_mapper "web") Hreg).
Defined.

Lemma volume_relationships_are_mutual_witness :
  web_container ∈ client_containers two_containers
  ∧ c_name web_container ∈ containers (register_container new_mapper "web")
  ∧ depends_on
      (volume_dependencies
         (_analyze_volume_dependencies two_containers web_container
            (c_name web_container) (register_container new_mapper "web")))
      (c_name web_container) "db"
  ∧ (depends_on (volume_dependencies (register_container new_mapper "web"))
                (c_name web_container) "db"
     ∨ ∃ other,
         other ∈ client_containers two_containers ∧ c_name other = "db"
         ∧ ∀ m', "db" ∈ containers m' →
                 depends_on
                   (volume_dependencies
                      (_analyze_volume_dependencies two_containers other
                                                    "db" m'))
                   "db" (c_name web_container)).
Proof.
  assert (web_container ∈ client_containers two_containers) as Hin.
  { simpl. left. }
  assert (c_name web_container
          ∈ containers (register_container new_mapper "web")) as Hreg.
  { apply (bool_decide_unpack _). vm_compute. exact I. }
  assert (depends_on
            (volume_dependencies
               (_analyze_volume_dependencies two_containers web_container
                  (c_name web_container)
                  (register_container new_mapper "web")))
            (c_name web_container) "db") as Hdep.
  { apply (depends_on_get _ _ ["db"]); [reflexivity|].
    apply (bool_decide_unpack _). vm_compute. exact I. }
  repeat (split; [assumption|]).
  exact (volume_relationships_are_mutual two_containers web_container
           (register_container new_mapper "web") "db" Hin Hreg Hdep).
Defined.

Lemma environment_analysis_records_witness :
  "web" ∈ containers (register_container new_mapper "web")
  ∧ containers
      (_analyze_environment_dependencies str_upper two_containers
         web_container "web" (register_container new_mapper "web"))
    = containers (register_container new_mapper "web")
  ∧ (∀ k, k ≠ ContainerDep →
          tracker_of
            (_analyze_environment_dependencies str_upper two_containers
               web_container "web" (register_container new_mapper "web")) k
          = tracker_of (register_container new_mapper "web") k)
  ∧ ∀ s x,
      depends_on
        (container_dependencies
           (_analyze_environment_dependencies str_upper two_containers
              web_container "web" (register_container new_mapper "web")))
        s x
      ↔ depends_on
          (container_dependencies (register_container new_mapper "web")) s x
        ∨ (s = "web" ∧ x ≠ "web"
           ∧ ∃ key value other,
               key +:+ String "=" value ∈ c_env web_container
               ∧ str_contains "=" key = false
               ∧ other ∈ client_containers two_containers
               ∧ c_name other = x
               ∧ env_reference str_upper x key value = true).
Proof.
  assert ("web" ∈ containers (register_container new_mapper "web")) as Hreg.
  { apply (bool_decide_unpack _). vm_compute. exact I. }
  split; [exact Hreg|].
  exact (environment_analysis_records str_upper two_containers web_container
           "web" (register_container new_mapper "web") Hreg).
Defined.

Lemma link_analysis_records_witness :
  "web" ∈ containers (register_container new_mapper "web")
  ∧ containers
      (_analyze_container_links web_container "web"
                                (register_container new_mapper "web"))
    = containers (register_container new_mapper "web")
  ∧ (∀ k, k ≠ ContainerDep →
          tracker_of
            (_analyze_container_links web_container "web"
               (register_container new_mapper "web")) k
          = tracker_of (register_container new_mapper "web") k)
  ∧ ∀ s x,
      depends_on
        (container_dependencies
           (_analyze_container_links web_container "web"
              (register_container new_mapper "web")))
        s x
      ↔ depends_on
          (container_dependencies (register_container new_mapper "web")) s x
        ∨ (s = "web"
           ∧ ∃ first rest,
               first +:+ String ":" rest ∈ c_links web_container
               ∧ str_contains ":" first = false
               ∧ x = str_lstrip "/" first).
Proof.
  assert ("web" ∈ containers (register_container new_mapper "web")) as Hreg.
  { apply (bool_decide_unpack _). vm_compute. exact I. }
  split; [exact Hreg|].
  exact (link_analysis_records web_container "web"
                               (register_container new_mapper "web") Hreg).
Defined.
